(** * Noveily: the local persistence layer and the cover search

    A shallow embedding of [utils/db.ts] (the IndexedDB persistence layer)
    and of [searchComicCovers] from [services/geminiService.ts].

    Modelling conventions.
    - JavaScript numbers that the program stores ([order], [createdAt],
      [totalPages], [lastReadPage]) are page indices, page counts and
      millisecond timestamps: they are modelled as [Z].
    - JavaScript strings are modelled as [string], the bytes of the text in
      UTF-8, so that equality, concatenation and containment are those of
      the text.  Titles and queries are arbitrary text (the application is
      also used in Russian), and lower-casing them is left to the engine:
      [toLowerCase] is a parameter of the search, of which nothing is
      assumed.  Trimming removes the ASCII white space, and [toUpperCase],
      which is applied to the model's reply before it is compared with
      ["YES"], converts the ASCII letters.
    - An object store with [keyPath: 'id'] is a finite map from primary key
      to record; [put] files a record under its [id] field.  Reading a whole
      store or an index range yields the records in ascending primary-key
      order, as IndexedDB does.
    - Optional fields ([lastReadPage?]) and nullable ones
      ([coverImageBlob]) are [option]s. *)

From Stdlib Require Import ZArith String Ascii.
From stdpp Require Import gmap strings list sorting.

(* The solvers of stdpp clear hypotheses that may already be gone. *)
#[local] Set Warnings "-clear-no-such-hyp".

Local Open Scope string_scope.
Local Open Scope Z_scope.

(** ** JavaScript built-ins used by the program *)

Module JS.

Section Sorting.
Context {A : Type} (le : A → A → bool).

(** [x] is placed in front of the first element it does not exceed, so
    it stays in front of the elements it ties with. *)
Fixpoint insert_sorted (x : A) (l : list A) : list A :=
  match l with
  | [] => [x]
  | y :: l' => if le x y then x :: y :: l' else y :: insert_sorted x l'
  end.

(** A stable sort: elements that tie keep their relative order. *)
Definition stable_sort (l : list A) : list A := foldr insert_sorted [] l.
End Sorting.

(** [Array.prototype.sort(compareFn)]: a stable sort that puts [a] before
    [b] when [compareFn a b] is negative and keeps ties in place. *)
Definition sort {A : Type} (compareFn : A → A → Z) (l : list A) : list A :=
  stable_sort (λ a b, bool_decide (compareFn a b ≤ 0)) l.

Definition is_lower (c : ascii) : bool :=
  ((97 <=? N_of_ascii c) && (N_of_ascii c <=? 122))%N.

Definition upper_char (c : ascii) : ascii :=
  if is_lower c then ascii_of_N (N_of_ascii c - 32) else c.

Fixpoint map_chars (f : ascii → ascii) (s : string) : string :=
  match s with
  | EmptyString => EmptyString
  | String c s' => String (f c) (map_chars f s')
  end.

(** [String.prototype.toUpperCase], on the ASCII letters. *)
Definition toUpperCase : string → string := map_chars upper_char.

(** [String.prototype.includes]: [sub] occurs somewhere in [s]. *)
Fixpoint includes (s sub : string) : bool :=
  if String.prefix sub s then true
  else match s with
       | EmptyString => false
       | String _ s' => includes s' sub
       end.

(** White space: TAB, LF, VT, FF, CR and SPACE. *)
Definition is_space (c : ascii) : bool :=
  let n := N_of_ascii c in ((9 <=? n) && (n <=? 13) || (n =? 32))%N.

Fixpoint trimStart (s : string) : string :=
  match s with
  | EmptyString => EmptyString
  | String c s' => if is_space c then trimStart s' else s
  end.

Definition trimEnd (s : string) : string :=
  String.rev (trimStart (String.rev s)).

(** [String.prototype.trim]. *)
Definition trim (s : string) : string := trimEnd (trimStart s).

End JS.

(** ** The records of [types.ts] *)

Module Blob.
Record t := mk { type : string; data : string }.
End Blob.
Abbreviation Blob := Blob.t.

Module Comic.
Record t := mk {
  id : string;
  title : string;
  coverImageBlob : option Blob;
  createdAt : Z;
  totalPages : Z;
  lastReadPage : option Z
}.

Definition set_title (c : t) (v : string) : t :=
  mk (id c) v (coverImageBlob c) (createdAt c) (totalPages c) (lastReadPage c).
Definition set_coverImageBlob (c : t) (v : option Blob) : t :=
  mk (id c) (title c) v (createdAt c) (totalPages c) (lastReadPage c).
Definition set_totalPages (c : t) (v : Z) : t :=
  mk (id c) (title c) (coverImageBlob c) (createdAt c) v (lastReadPage c).
Definition set_lastReadPage (c : t) (v : option Z) : t :=
  mk (id c) (title c) (coverImageBlob c) (createdAt c) (totalPages c) v.
End Comic.
Abbreviation Comic := Comic.t.

(** The record kept in the [pages] store: the argument type of [saveComic]. *)
Module PageRecord.
Record t := mk {
  id : string;
  comicId : string;
  blob : Blob;
  order : Z
}.

Definition set_order (p : t) (v : Z) : t := mk (id p) (comicId p) (blob p) v.
End PageRecord.
Abbreviation PageRecord := PageRecord.t.

(** The page handed to the views: [ComicPage] of [types.ts]. *)
Module ComicPage.
Record t := mk {
  id : string;
  blob : Blob;
  order : Z
}.
End ComicPage.
Abbreviation ComicPage := ComicPage.t.

(** ** IndexedDB object stores *)

Module IDB.

(** *** Schema *)

Record IndexDef := mkIndex {
  index_name : string;
  index_keyPath : string;
  unique : bool
}.

Record StoreDef := mkStore {
  store_name : string;
  keyPath : string;
  indexes : list IndexDef
}.

Definition Schema := list StoreDef.

(** [db.objectStoreNames.contains(name)] *)
Definition contains (name : string) (db : Schema) : bool :=
  existsb (λ s, String.eqb (store_name s) name) db.

(** [db.createObjectStore(name, { keyPath })], with the indexes that are
    created on the new store before the upgrade ends. *)
Definition createObjectStore
    (name key : string) (ixs : list IndexDef) (db : Schema) : Schema :=
  (db ++ [mkStore name key ixs])%list.

(** *** Store contents *)

Section Store.
Context {A : Type}.

Definition put (key : A → string) (r : A) (s : gmap string A) : gmap string A :=
  <[key r := r]> s.

Definition delete (k : string) (s : gmap string A) : gmap string A :=
  base.delete k s.

Definition get (k : string) (s : gmap string A) : option A := s !! k.

(** The records with their primary keys, in ascending key order. *)
Definition entries (s : gmap string A) : list (string * A) :=
  JS.stable_sort (λ a b, String.leb a.1 b.1) (map_to_list s).

(** [store.getAll()] *)
Definition getAll (s : gmap string A) : list A := (entries s).*2.

(** The entries an index on field [field] holds under index key [k]:
    for one index key they come in primary-key order. *)
Definition index_entries
    (field : A → string) (k : string) (s : gmap string A) : list (string * A) :=
  filter (λ e, field e.2 = k) (entries s).

(** [store.index(field).getAll(k)] *)
Definition index_getAll
    (field : A → string) (k : string) (s : gmap string A) : list A :=
  (index_entries field k s).*2.

(** [index.openCursor(IDBKeyRange.only(k))] whose success handler calls
    [cursor.delete()] and [cursor.continue()] until the range is
    exhausted: every visited entry is removed under its primary key. *)
Definition cursor_delete_all
    (field : A → string) (k : string) (s : gmap string A) : gmap string A :=
  foldl (λ acc e, delete e.1 acc) s (index_entries field k s).
End Store.

End IDB.

(** ** [utils/db.ts] *)

Definition DB_NAME : string := "Noveily_DB".
Definition DB_VERSION : Z := 1.
Definition STORE_COMICS : string := "comics".
Definition STORE_PAGES : string := "pages".

(** The [onupgradeneeded] handler of [openDB]. *)
Definition onupgradeneeded (db : IDB.Schema) : IDB.Schema :=
  let db1 :=
    if negb (IDB.contains STORE_COMICS db)
    then IDB.createObjectStore STORE_COMICS "id" [] db
    else db in
  if negb (IDB.contains STORE_PAGES db1)
  then IDB.createObjectStore STORE_PAGES "id"
         [IDB.mkIndex "comicId" "comicId" false] db1
  else db1.

(** Opening version [DB_VERSION = 1] upgrades from the empty database. *)
Definition openDB_schema : IDB.Schema := onupgradeneeded [].

(** The exported operations, with the transaction each one opens. *)
Inductive Operation :=
| OpSaveComic | OpGetAllComics | OpGetComicPages | OpUpdateComicProgress
| OpUpdateComicCover | OpDeleteComic | OpDeleteComicPage | OpUpdateComicTitle.

Inductive TransactionMode := readonly | readwrite.

(** The arguments of [db.transaction(...)] in each operation. *)
Definition transaction_of (op : Operation) : list string * TransactionMode :=
  match op with
  | OpSaveComic => ([STORE_COMICS; STORE_PAGES], readwrite)
  | OpGetAllComics => ([STORE_COMICS], readonly)
  | OpGetComicPages => ([STORE_PAGES], readonly)
  | OpUpdateComicProgress => ([STORE_COMICS], readwrite)
  | OpUpdateComicCover => ([STORE_COMICS], readwrite)
  | OpDeleteComic => ([STORE_COMICS; STORE_PAGES], readwrite)
  | OpDeleteComicPage => ([STORE_PAGES; STORE_COMICS], readwrite)
  | OpUpdateComicTitle => ([STORE_COMICS], readwrite)
  end.

(** The arguments of the [transaction.objectStore(...)] calls of each
    operation, in source order. *)
Definition objectStores_of (op : Operation) : list string :=
  match op with
  | OpSaveComic => [STORE_COMICS; STORE_PAGES]
  | OpGetAllComics => [STORE_COMICS]
  | OpGetComicPages => [STORE_PAGES]
  | OpUpdateComicProgress => [STORE_COMICS]
  | OpUpdateComicCover => [STORE_COMICS]
  | OpDeleteComic => [STORE_COMICS; STORE_PAGES]
  | OpDeleteComicPage => [STORE_PAGES; STORE_COMICS]
  | OpUpdateComicTitle => [STORE_COMICS]
  end.

(** The contents of the database: one map per object store. *)
Record DB := mkDB {
  comics : gmap string Comic;
  pages : gmap string PageRecord
}.

(** Every record is filed under its own [id]: what [keyPath: 'id'] enforces. *)
Definition keyed_by_id {A : Type} (key : A → string) (s : gmap string A) : Prop :=
  map_Forall (λ k r, key r = k) s.

Definition well_keyed (db : DB) : Prop :=
  keyed_by_id Comic.id (comics db) ∧ keyed_by_id PageRecord.id (pages db).

Definition saveComic (comic : Comic) (pgs : list PageRecord) (db : DB) : DB :=
  mkDB (IDB.put Comic.id comic (comics db))
       (foldl (λ pageStore page, IDB.put PageRecord.id page pageStore) (pages db) pgs).

Definition getAllComics (db : DB) : list Comic :=
  JS.sort (λ a b, Comic.createdAt b - Comic.createdAt a) (IDB.getAll (comics db)).

(** The sorted [request.result] of [getComicPages], before the projection. *)
Definition sortedPages (comicId : string) (pageStore : gmap string PageRecord)
  : list PageRecord :=
  JS.sort (λ a b, PageRecord.order a - PageRecord.order b)
          (IDB.index_getAll PageRecord.comicId comicId pageStore).

(** [p => ({ id: p.id, blob: p.blob, order: p.order })] *)
Definition toComicPage (p : PageRecord) : ComicPage :=
  ComicPage.mk (PageRecord.id p) (PageRecord.blob p) (PageRecord.order p).

Definition getComicPages (comicId : string) (db : DB) : list ComicPage :=
  let pages := sortedPages comicId (pages db) in
  toComicPage <$> pages.

(** *** Requests that can fail

    A request may fail for reasons outside the program (quota, a broken
    database).  None of the error handlers calls [preventDefault], so a
    failed request aborts the transaction and its writes are rolled back. *)

Inductive Rejection :=
| RequestError                 (* [request.error] of a failed request *)
| JsError (message : string).  (* [new Error(message)] *)

Inductive Outcome := Resolved | Rejected (reason : Rejection).

Record Faults := mkFaults { get_fails : bool; put_fails : bool }.

Definition no_faults : Faults := mkFaults false false.

Definition updateComicProgress
    (f : Faults) (comicId : string) (pageIndex : Z) (db : DB) : Outcome * DB :=
  if get_fails f then (Rejected RequestError, db)
  else match IDB.get comicId (comics db) with
       | Some comic =>
           let comic' := Comic.set_lastReadPage comic (Some pageIndex) in
           if put_fails f then (Rejected RequestError, db)
           else (Resolved, mkDB (IDB.put Comic.id comic' (comics db)) (pages db))
       | None => (Resolved, db)   (* logs "Comic not found for progress update:" *)
       end.

Definition updateComicCover
    (f : Faults) (comicId : string) (coverBlob : Blob) (db : DB) : Outcome * DB :=
  if get_fails f then (Rejected RequestError, db)
  else match IDB.get comicId (comics db) with
       | Some comic =>
           let comic' := Comic.set_coverImageBlob comic (Some coverBlob) in
           if put_fails f then (Rejected RequestError, db)
           else (Resolved, mkDB (IDB.put Comic.id comic' (comics db)) (pages db))
       | None => (Rejected (JsError "Comic not found"), db)
       end.

Definition updateComicTitle
    (f : Faults) (comicId : string) (newTitle : string) (db : DB) : Outcome * DB :=
  if get_fails f then (Rejected RequestError, db)
  else match IDB.get comicId (comics db) with
       | Some comic =>
           let comic' := Comic.set_title comic newTitle in
           if put_fails f then (Rejected RequestError, db)
           else (Resolved, mkDB (IDB.put Comic.id comic' (comics db)) (pages db))
       | None => (Rejected (JsError "Comic not found for title update"), db)
       end.

(** *** Deletions (transactions that commit) *)

Definition deleteComic (comicId : string) (db : DB) : DB :=
  mkDB (IDB.delete comicId (comics db))
       (IDB.cursor_delete_all PageRecord.comicId comicId (pages db)).

(** The body of [remainingPages.forEach((page, index) => ...)]. *)
Fixpoint renumberPages
    (remainingPages : list PageRecord) (index : Z)
    (pageStore : gmap string PageRecord) : gmap string PageRecord :=
  match remainingPages with
  | [] => pageStore
  | page :: rest =>
      renumberPages rest (index + 1)
        (if decide (PageRecord.order page ≠ index)
         then IDB.put PageRecord.id (PageRecord.set_order page index) pageStore
         else pageStore)
  end.

(** The assignments made to the fetched comic in [getComicReq.onsuccess]. *)
Definition recountComic (comic : Comic) (count : Z) : Comic :=
  let comic1 := Comic.set_totalPages comic count in
  match Comic.lastReadPage comic1 with
  | Some lastReadPage =>
      if decide (lastReadPage >= Comic.totalPages comic1)
      then Comic.set_lastReadPage comic1 (Some (Z.max 0 (Comic.totalPages comic1 - 1)))
      else comic1
  | None => comic1   (* [undefined >= n] is false *)
  end.

Definition deleteComicPage (pageId comicId : string) (db : DB) : DB :=
  let pageStore := IDB.delete pageId (pages db) in
  let remainingPages := IDB.index_getAll PageRecord.comicId comicId pageStore in
  if decide (length remainingPages = 0%nat) then
    mkDB (IDB.delete comicId (comics db)) pageStore
  else
    let sorted := JS.sort (λ a b, PageRecord.order a - PageRecord.order b) remainingPages in
    let pageStore' := renumberPages sorted 0 pageStore in
    let comicStore' :=
      match IDB.get comicId (comics db) with
      | Some comic =>
          IDB.put Comic.id (recountComic comic (Z.of_nat (length sorted))) (comics db)
      | None => comics db
      end in
    mkDB comicStore' pageStore'.

(** ** [services/geminiService.ts]: [searchComicCovers] *)

(** The argument of [ai.models.generateContent]: the model name, the inline
    image with its MIME type, and the text part. *)
Record Request := mkRequest {
  model : string;
  inlineData : string;
  mimeType : string;
  text : string
}.

(** How a [generateContent] call ends: a response whose [text] may be
    undefined, or an exception. *)
Inductive Reply :=
| ReplyText (text : option string)
| ReplyThrows.

Inductive Completion (A : Type) :=
| Returns (value : A)
| Throws (message : string).
Arguments Returns {A} value.
Arguments Throws {A} message.

(** The state of one [async (comic) => ...] callback: suspended at
    [await blobToBase64(...)], suspended at [await ai.models.generateContent(...)]
    with its request sent, or settled with the value its promise resolves to. *)
Inductive Task :=
| AwaitBlob (comic : Comic) (blob : Blob)
| AwaitReply (comic : Comic) (request : Request)
| Settled (result : option Comic).

(** What the event loop can deliver to the [i]-th callback. *)
Inductive Event :=
| BlobEncoded (i : nat)
| ReplyArrived (i : nat).

Definition dquote : string := String "034"%char EmptyString.

Section Search.

(** [String.prototype.toLowerCase]: the lower-casing of the engine, for
    text in any script. *)
Variable toLowerCase : string → string.
(** [process.env.API_KEY] *)
Variable API_KEY : option string.
(** [blobToBase64]; [None] when its promise rejects. *)
Variable blobToBase64 : Blob → option string.
(** The hosted model: how the call made for the [i]-th searched comic ends. *)
Variable generateContent : nat → Request → Reply.

(** [!process.env.API_KEY]: undefined and the empty string are falsy. *)
Definition api_key_missing : bool :=
  match API_KEY with
  | None => true
  | Some k => String.eqb k ""
  end.

Definition prompt (query : string) : string :=
  "Does the cover of this comic book match the description " ++ dquote ++ query
    ++ dquote ++ "? The cover might show characters, scenes, or represent the mood."
    ++ " Answer with only " ++ dquote ++ "YES" ++ dquote ++ " or " ++ dquote ++ "NO"
    ++ dquote ++ ".".

Definition request_for (query : string) (blob : Blob) (base64Data : string) : Request :=
  mkRequest "gemini-3-pro-preview" base64Data
    (if String.eqb (Blob.type blob) "" then "image/png" else Blob.type blob)
    (prompt query).

(** [response.text?.trim().toUpperCase() === 'YES'] *)
Definition answered_yes (r : Reply) : bool :=
  match r with
  | ReplyText (Some t) => String.eqb (JS.toUpperCase (JS.trim t)) "YES"
  | ReplyText None => false
  | ReplyThrows => false
  end.

(** [comic.title.toLowerCase().includes(lowerCaseQuery)] *)
Definition titleMatch (query : string) (comic : Comic) : bool :=
  let lowerCaseQuery := toLowerCase query in
  JS.includes (toLowerCase (Comic.title comic)) lowerCaseQuery.

Definition titleMatches (comics : list Comic) (query : string) : list Comic :=
  filter (λ comic, titleMatch query comic = true) comics.

Definition titleMatchIds (comics : list Comic) (query : string) : gset string :=
  list_to_set (Comic.id <$> titleMatches comics query).

Definition comicsToSearchAi (comics : list Comic) (query : string) : list Comic :=
  filter (λ comic, Comic.id comic ∉ titleMatchIds comics query) comics.

(** One callback run from start to end: the inference calls it makes
    (at most one) and the value it returns. *)
Definition aiMatch (query : string) (i : nat) (comic : Comic)
  : list (Comic * Request) * option Comic :=
  match Comic.coverImageBlob comic with
  | Some blob =>
      match blobToBase64 blob with
      | Some base64Data =>
          let request := request_for query blob base64Data in
          ([(comic, request)],
           if answered_yes (generateContent i request) then Some comic else None)
      | None => ([], None)
      end
  | None => ([], None)
  end.

(** [searchComicCovers]: the inference calls made, and how it completes. *)
Definition searchComicCovers (comics : list Comic) (query : string)
  : list (Comic * Request) * Completion (list Comic) :=
  if api_key_missing then ([], Throws "API Key is missing.")
  else
    let settled := imap (aiMatch query) (comicsToSearchAi comics query) in
    let aiMatches := omap snd settled in
    (mjoin (fst <$> settled),
     Returns (titleMatches comics query ++ aiMatches)%list).

(** *** The callbacks as the event loop runs them *)

(** A callback runs synchronously up to its first [await]. *)
Definition task_start (comic : Comic) : Task :=
  match Comic.coverImageBlob comic with
  | Some blob => AwaitBlob comic blob
  | None => Settled None
  end.

(** [comicsToSearchAi.map(async (comic) => ...)]: every callback is
    started, in list order, before [map] returns. *)
Definition spawn (comics : list Comic) (query : string) : list Task :=
  task_start <$> comicsToSearchAi comics query.

(** Resuming the [i]-th callback. *)
Definition deliver (query : string) (ev : Event) (tasks : list Task)
  : option (list Task) :=
  match ev with
  | BlobEncoded i =>
      match tasks !! i with
      | Some (AwaitBlob comic blob) =>
          Some (<[i := match blobToBase64 blob with
                       | Some base64Data =>
                           AwaitReply comic (request_for query blob base64Data)
                       | None => Settled None
                       end]> tasks)
      | _ => None
      end
  | ReplyArrived i =>
      match tasks !! i with
      | Some (AwaitReply comic request) =>
          Some (<[i := Settled (if answered_yes (generateContent i request)
                                then Some comic else None)]> tasks)
      | _ => None
      end
  end.

Fixpoint run (query : string) (schedule : list Event) (tasks : list Task)
  : option (list Task) :=
  match schedule with
  | [] => Some tasks
  | ev :: rest =>
      match deliver query ev tasks with
      | Some tasks' => run query rest tasks'
      | None => None
      end
  end.

Definition awaiting_reply (t : Task) : bool :=
  match t with AwaitReply _ _ => true | _ => false end.

(** The number of inference requests sent and not yet answered. *)
Definition in_flight (tasks : list Task) : nat :=
  length (filter (λ t, awaiting_reply t = true) tasks).

Definition settled_value (t : Task) : option (option Comic) :=
  match t with Settled r => Some r | _ => None end.

(** [await Promise.all(aiMatchPromises)] followed by the [filter] and the
    spread: defined once every callback has settled. *)
Definition collect (comics : list Comic) (query : string) (tasks : list Task)
  : option (list Comic) :=
  match mapM settled_value tasks with
  | Some results => Some (titleMatches comics query ++ omap id results)%list
  | None => None
  end.

(** The schedule in which every cover is encoded before any reply arrives. *)
Definition encode_all (comics : list Comic) (query : string) : list Event :=
  omap id (imap (λ i comic, match Comic.coverImageBlob comic with
                            | Some _ => Some (BlobEncoded i)
                            | None => None
                            end)
                (comicsToSearchAi comics query)).

(** The searched comics whose request goes out: those with a cover that
    [blobToBase64] encodes. *)
Definition sends_request (comic : Comic) : bool :=
  match Comic.coverImageBlob comic with
  | Some blob => bool_decide (is_Some (blobToBase64 blob))
  | None => false
  end.

End Search.

(** ** Specification vocabulary *)

(** A rejection with an [Error] whose message says "Comic not found". *)
Definition is_comic_not_found (reason : Rejection) : bool :=
  match reason with
  | JsError message => String.prefix "Comic not found" message
  | RequestError => false
  end.

(** The pages of a list numbered 0, 1, 2, ... in list order: the dense
    zero-based sequence that renumbering aims at. *)
Definition resequenced (l : list PageRecord) : list PageRecord :=
  imap (λ i page, PageRecord.set_order page (Z.of_nat i)) l.



(** [selects_from P n l l']: [l'] lists, in the order of [l] and as often as
    they occur there, the elements of [l] that satisfy [P] at their
    position, the positions being counted from [n]. *)
Inductive selects_from {A : Type} (P : nat → A → Prop)
  : nat → list A → list A → Prop :=
| selects_nil n : selects_from P n [] []
| selects_keep n x l l' :
    P n x → selects_from P (S n) l l' → selects_from P n (x :: l) (x :: l')
| selects_skip n x l l' :
    ¬ P n x → selects_from P (S n) l l' → selects_from P n (x :: l) l'.


(** The model, asked about the [i]-th searched comic, answered YES (up to
    surrounding white space and case). *)
Definition model_says_yes
    (blobToBase64 : Blob → option string) (generateContent : nat → Request → Reply)
    (query : string) (i : nat) (comic : Comic) : Prop :=
  ∃ blob base64Data answer,
    Comic.coverImageBlob comic = Some blob
    ∧ blobToBase64 blob = Some base64Data
    ∧ generateContent i (request_for query blob base64Data) = ReplyText (Some answer)
    ∧ JS.toUpperCase (JS.trim answer) = "YES".

(** A callback whose cover, if it has one, has been encoded: its request
    is out, or it has given up. *)
Definition task_encoded
    (blobToBase64 : Blob → option string) (query : string) (comic : Comic) : Task :=
  match Comic.coverImageBlob comic with
  | Some blob =>
      match blobToBase64 blob with
      | Some base64Data => AwaitReply comic (request_for query blob base64Data)
      | None => Settled None
      end
  | None => Settled None
  end.

(** The schedule in which the outstanding replies arrive in list order. *)
Definition reply_all
    (toLowerCase : string → string)
    (blobToBase64 : Blob → option string) (comics : list Comic) (query : string)
  : list Event :=
  omap id (imap (λ i comic, if sends_request blobToBase64 comic
                            then Some (ReplyArrived i) else None)
                (comicsToSearchAi toLowerCase comics query)).

(** A task list agrees with the searched comics when every callback is
    somewhere on its own path: before the encoding, with its own request
    out, or settled with the value [aiMatch] computes for it. *)
Definition on_path
    (blobToBase64 : Blob → option string) (generateContent : nat → Request → Reply)
    (query : string) (i : nat) (comic : Comic) (t : Task) : Prop :=
  match t with
  | AwaitBlob comic' blob => comic' = comic ∧ Comic.coverImageBlob comic = Some blob
  | AwaitReply comic' request =>
      comic' = comic
      ∧ ∃ blob base64Data,
          Comic.coverImageBlob comic = Some blob
          ∧ blobToBase64 blob = Some base64Data
          ∧ request = request_for query blob base64Data
  | Settled result =>
      result = (aiMatch blobToBase64 generateContent query i comic).2
  end.

Definition all_on_path
    (blobToBase64 : Blob → option string) (generateContent : nat → Request → Reply)
    (query : string) (searched : list Comic) (tasks : list Task) : Prop :=
  length tasks = length searched
  ∧ ∀ i comic t, searched !! i = Some comic → tasks !! i = Some t →
                 on_path blobToBase64 generateContent query i comic t.

(** ** A sample library

    Two comics as the uploader saves them; the second one has its pages
    inserted out of key order. *)

Definition sample_blob : Blob := Blob.mk "image/png" "iVBORw0KGgo=".

Definition sample_page (id comicId : string) (order : Z) : PageRecord :=
  PageRecord.mk id comicId sample_blob order.

Definition sample_alpha : Comic :=
  Comic.mk "c1" "Alpha Flight" (Some sample_blob) 1000 3 (Some 2).

Definition sample_beta : Comic :=
  Comic.mk "c2" "The Batman" (Some (Blob.mk "" "AAAA")) 2000 2 None.

Definition sample_gamma : Comic :=
  Comic.mk "c3" "Gamma" None 3000 1 (Some 0).

Definition sample_db : DB :=
  saveComic sample_gamma [sample_page "r0" "c3" 0]
    (saveComic sample_beta [sample_page "q1" "c2" 0; sample_page "q0" "c2" 1]
       (saveComic sample_alpha
          [sample_page "p0" "c1" 0; sample_page "p1" "c1" 1; sample_page "p2" "c1" 2]
          (mkDB ∅ ∅))).

(** A sample environment for the search: a lower-casing for titles and
    queries in ASCII (it converts the letters A to Z, as the engine does,
    and is used on such text only), an API key, an encoder that succeeds,
    and a model that says YES (in lower case, with a newline) to covers
    whose data is ["AAAA"] and NO to the others. *)

Definition sample_lower_char (c : ascii) : ascii :=
  if ((65 <=? N_of_ascii c) && (N_of_ascii c <=? 90))%N
  then ascii_of_N (N_of_ascii c + 32) else c.

Definition sample_toLowerCase : string → string := JS.map_chars sample_lower_char.

Definition sample_key : option string := Some "sample-key".

Definition sample_encode (blob : Blob) : option string := Some (Blob.data blob).

Definition sample_model (i : nat) (request : Request) : Reply :=
  if String.eqb (inlineData request) "AAAA"
  then ReplyText (Some (" yes" ++ String "010"%char EmptyString))
  else ReplyText (Some "NO").

Definition sample_library : list Comic := [sample_alpha; sample_beta; sample_gamma].

(** ** [components/Uploader.tsx]: [handleSubmit]

    A [File] is stored as the [Blob] it is.  [uuidv4] is called once for the
    comic and then once per file, in list order: [uuid n] is the result of
    its [n]-th call.  [now] is [Date.now()].  The transaction of [saveComic]
    is taken to commit. *)

(** [files.map((file, index) => ({ id: uuidv4(), comicId, blob: file, order: index }))] *)
Definition uploadedPages (uuid : nat → string) (files : list Blob) : list PageRecord :=
  imap (λ index file,
          PageRecord.mk (uuid (S index)) (uuid 0%nat) file (Z.of_nat index))
       files.

(** The comic record passed to [saveComic]. *)
Definition uploadedComic
    (uuid : nat → string) (now : Z)
    (title : string) (coverFile : option Blob) (firstFile : Blob) (count : nat) : Comic :=
  let coverBlob := match coverFile with
                   | Some cover => cover
                   | None => firstFile
                   end in
  Comic.mk (uuid 0%nat) title (Some coverBlob) now (Z.of_nat count) (Some 0).

Definition handleSubmit
    (uuid : nat → string) (now : Z)
    (title : string) (coverFile : option Blob) (files : list Blob)
    (db : DB) : DB :=
  if String.eqb (JS.trim title) "" then db
  else match files with
       | [] => db
       | firstFile :: _ =>
           saveComic
             (uploadedComic uuid now title coverFile firstFile (length files))
             (uploadedPages uuid files) db
       end.

(** ** [components/Editor.tsx]: [handleDeletePage]

    After the user confirms: the page is deleted, the pages are read again,
    and the editor closes when none is left. *)

Inductive EditorView :=
| EditorClosed
| EditorShows (pages : list ComicPage).

Definition handleDeletePage (comic : Comic) (pageId : string) (db : DB)
  : EditorView * DB :=
  let db' := deleteComicPage pageId (Comic.id comic) db in
  let remainingPages := getComicPages (Comic.id comic) db' in
  (match remainingPages with
   | [] => EditorClosed
   | _ :: _ => EditorShows remainingPages
   end, db').

(** ** Consistency of the library

    What the views rely on: a comic has at least one page, [totalPages]
    counts its pages, their [order]s are 0..n-1, the reading position (when
    there is one) is the index of a page, and every page belongs to a comic
    of the library. *)

Definition comic_consistent (db : DB) (comic : Comic) : Prop :=
  let pages := sortedPages (Comic.id comic) (pages db) in
  pages ≠ []
  ∧ Comic.totalPages comic = Z.of_nat (length pages)
  ∧ PageRecord.order <$> pages = Z.of_nat <$> seq 0 (length pages)
  ∧ (∀ l, Comic.lastReadPage comic = Some l → 0 ≤ l < Comic.totalPages comic).

Definition library_consistent (db : DB) : Prop :=
  well_keyed db
  ∧ (∀ k comic, comics db !! k = Some comic → comic_consistent db comic)
  ∧ (∀ k page, pages db !! k = Some page →
               is_Some (comics db !! PageRecord.comicId page)).

(** The identifiers [handleSubmit] draws for [n] files are new to the
    database and pairwise distinct. *)
Definition fresh_ids (uuid : nat → string) (n : nat) (db : DB) : Prop :=
  comics db !! uuid 0%nat = None
  ∧ (∀ k page, pages db !! k = Some page → PageRecord.comicId page ≠ uuid 0%nat)
  ∧ (∀ i, (i < n)%nat → pages db !! uuid (S i) = None)
  ∧ (∀ i j, (i < n)%nat → (j < n)%nat → uuid (S i) = uuid (S j) → i = j).

(** ** [components/Library.tsx]: [handleAiSearch]

    The search runs on the full stored library; a query that is blank after
    trimming does nothing. *)
Definition handleAiSearch
    (toLowerCase : string → string)
    (API_KEY : option string) (blobToBase64 : Blob → option string)
    (generateContent : nat → Request → Reply)
    (searchQuery : string) (db : DB) : option (Completion (list Comic)) :=
  if String.eqb (JS.trim searchQuery) "" then None
  else
    let fullLibrary := getAllComics db in
    Some (searchComicCovers toLowerCase API_KEY blobToBase64 generateContent
            fullLibrary searchQuery).2.

(** ** [services/geminiService.ts]: [blobToBase64], [getAiPageAnalysis]
    and [generateAiTitle] *)

(** [s.split(',')]: the pieces of [s] between its commas. *)
Fixpoint split_comma (s : string) : list string :=
  match s with
  | EmptyString => [EmptyString]
  | String c s' =>
      if Ascii.eqb c ","%char then EmptyString :: split_comma s'
      else match split_comma s' with
           | piece :: pieces => String c piece :: pieces
           | [] => [String c EmptyString]
           end
  end.

(** [reader.result] when [onloadend] fires: the data URL, or [null] after a
    failed read. *)
Inductive ReaderResult :=
| ResultString (result : string)
| ResultNull.

(** How the promise of [blobToBase64] settles in [reader.onloadend]: it is
    resolved with [reader.result.split(',')[1]], which is [undefined]
    (the inner [None]) when there is no comma, or it is rejected (the outer
    [None]). *)
Definition blobToBase64_onloadend (result : ReaderResult) : option (option string) :=
  match result with
  | ResultString s => Some (split_comma s !! 1%nat)
  | ResultNull => None
  end.

(** [s.replace(/^"|"$/g, '')]: a quote at the start is removed, and a quote
    at the end of what follows it. *)
Definition strip_leading_quote (s : string) : string :=
  match s with
  | String c s' => if Ascii.eqb c "034"%char then s' else s
  | EmptyString => EmptyString
  end.

Fixpoint strip_trailing_quote (s : string) : string :=
  match s with
  | EmptyString => EmptyString
  | String c EmptyString => if Ascii.eqb c "034"%char then EmptyString else s
  | String c s' => String c (strip_trailing_quote s')
  end.

Definition strip_quotes (s : string) : string :=
  strip_trailing_quote (strip_leading_quote s).

Definition titlePrompt : string :=
  "Analyze this comic book cover art. Suggest a short, catchy, and fitting title for the comic. Respond with only the title text, with no special formatting like markdown or quotes.".

Section Gemini.

(** [process.env.API_KEY] *)
Variable API_KEY : option string.
(** [blobToBase64]; [None] when its promise rejects. *)
Variable blobToBase64 : Blob → option string.
(** The hosted model: how the one call made ends. *)
Variable generateContent : Request → Reply.

(** The argument of [generateContent] in both functions. *)
Definition image_request (imageBlob : Blob) (base64Data text : string) : Request :=
  mkRequest "gemini-3-pro-preview" base64Data
    (if String.eqb (Blob.type imageBlob) "" then "image/png" else Blob.type imageBlob)
    text.

Definition getAiPageAnalysis (imageBlob : Blob) (prompt : string) : Completion string :=
  if api_key_missing API_KEY then Throws "API Key is missing."
  else
    match blobToBase64 imageBlob with
    | Some base64Data =>
        match generateContent (image_request imageBlob base64Data prompt) with
        | ReplyText (Some text) =>
            Returns (if String.eqb text "" then "No analysis available." else text)
        | ReplyText None => Returns "No analysis available."
        | ReplyThrows => Throws "Failed to analyze the page. Please try again."
        end
    | None => Throws "Failed to analyze the page. Please try again."
    end.

Definition generateAiTitle (imageBlob : Blob) : Completion string :=
  if api_key_missing API_KEY then Throws "API Key is missing."
  else
    match blobToBase64 imageBlob with
    | Some base64Data =>
        match generateContent (image_request imageBlob base64Data titlePrompt) with
        | ReplyText text =>
            match JS.trim <$> text with
            | Some generatedTitle =>
                if String.eqb generatedTitle ""
                then (* "AI did not return a title." is thrown and caught *)
                  Throws "Failed to generate title with AI. Please try again."
                else Returns (strip_quotes generatedTitle)
            | None => Throws "Failed to generate title with AI. Please try again."
            end
        | ReplyThrows => Throws "Failed to generate title with AI. Please try again."
        end
    | None => Throws "Failed to generate title with AI. Please try again."
    end.

End Gemini.

(** Vocabulary for statements about these functions. *)
Fixpoint occurs (c : ascii) (s : string) : bool :=
  match s with
  | EmptyString => false
  | String d s' => Ascii.eqb c d || occurs c s'
  end.

Definition comma_free (s : string) : Prop := occurs ","%char s = false.

Fixpoint all_space (s : string) : bool :=
  match s with
  | EmptyString => true
  | String c s' => JS.is_space c && all_space s'
  end.

(** Sample identifiers for an upload: ["a-7f3"], ["b-7f3"], ... *)
Definition sample_uuid (n : nat) : string :=
  String (ascii_of_nat (97 + n)) "-7f3".

Definition sample_files : list Blob :=
  [Blob.mk "image/png" "cGFnZTE="; Blob.mk "image/jpeg" "cGFnZTI="].

(** A model whose every call throws. *)
Definition failing_model (i : nat) (request : Request) : Reply := ReplyThrows.

Definition sample_data_url_head : string := "data:image/png;base64".
Definition sample_payload : string := "iVBORw0KGgo=".

(** A model that wraps its title in quotes and ends with a line feed. *)
Definition quoting_model (request : Request) : Reply :=
  ReplyText (Some (" " ++ dquote ++ "Night Owls" ++ dquote ++ String "010"%char "")).

(** ** [sw.js]: the service worker

    A cache is a finite map from request URL to response, and the cache
    storage is the list of the named caches in the order they were created,
    the order in which [caches.match] looks through them.  Requests are
    compared by URL (no response carries a [Vary] header).  A handler is
    described by the state it leaves once the promises it started have
    settled. *)

Module SW.

Inductive ResponseType := basic | cors | default | error | opaque | opaqueredirect.

#[export] Instance ResponseType_eq_dec : EqDecision ResponseType.
Proof. solve_decision. Defined.

Record Response := mkResponse {
  status : Z;
  type : ResponseType;
  body : string
}.

Record Request := mkRequest {
  method : string;
  url : string
}.

Abbreviation Cache := (gmap string Response).
Abbreviation CacheStorage := (list (string * Cache)).

Definition CACHE_NAME : string := "noveily-cache-v10".

Definition urlsToCache : list string :=
  [ "/"; "index.html"; "index.tsx"; "App.tsx"; "types.ts"; "utils/db.ts";
    "services/geminiService.ts"; "components/Library.tsx"; "components/Reader.tsx";
    "components/Uploader.tsx"; "components/Editor.tsx"; "components/CoverEditor.tsx";
    "components/SplashScreen.tsx"; "components/Toast.tsx"; "components/Logo.tsx";
    "components/LanguageSelectionScreen.tsx"; "components/Onboarding.tsx";
    "contexts/LanguageContext.tsx"; "locales/en.json"; "locales/ru.json";
    "assets/icon.svg"; "manifest.json";
    "https://esm.sh/@google/genai@^1.41.0"; "https://esm.sh/uuid@^13.0.0";
    "https://esm.sh/react@^19.2.4"; "https://esm.sh/react@^19.2.4/";
    "https://esm.sh/lucide-react@^0.564.0"; "https://esm.sh/react-dom@^19.2.4/";
    "https://esm.sh/react-dom@^19.2.4/client" ].

Definition cacheWhitelist : list string := [CACHE_NAME].

(** [caches.keys()] *)
Definition caches_keys (caches : CacheStorage) : list string := fst <$> caches.

(** [caches.match(request)]: the entry of the first cache that has one. *)
Fixpoint caches_match (url : string) (caches : CacheStorage) : option Response :=
  match caches with
  | [] => None
  | (_, cache) :: rest =>
      match cache !! url with
      | Some response => Some response
      | None => caches_match url rest
      end
  end.

(** [caches.open(name)]: the cache is created, empty, when there is none
    of that name. *)
Definition caches_open (name : string) (caches : CacheStorage) : CacheStorage :=
  if bool_decide (name ∈ caches_keys caches) then caches
  else (caches ++ [(name, ∅)])%list.

(** [cache.put(request, response)] on the cache called [name]. *)
Fixpoint cache_put (name url : string) (response : Response) (caches : CacheStorage)
  : CacheStorage :=
  match caches with
  | [] => []
  | (n, cache) :: rest =>
      if decide (n = name) then (n, <[url := response]> cache) :: rest
      else (n, cache) :: cache_put name url response rest
  end.

(** [caches.delete(name)] *)
Definition caches_delete (name : string) (caches : CacheStorage) : CacheStorage :=
  filter (λ entry, entry.1 ≠ name) caches.

(** What the handler does with a fetch event: it leaves it to the browser,
    answers it, or the promise given to [respondWith] rejects. *)
Inductive Handled :=
| NotHandled
| Responds (response : Response)
| Fails.

Record FetchResult := mkFetchResult {
  handled : Handled;
  caches_after : CacheStorage;
  (** the URLs requested from the network *)
  fetched : list string
}.

(** [!response || response.status !== 200 ||
     (response.type !== 'basic' && response.type !== 'cors')] *)
Definition not_cacheable (response : Response) : bool :=
  negb (bool_decide (status response = 200))
  || (negb (bool_decide (type response = basic))
      && negb (bool_decide (type response = cors))).

Section Worker.

(** [fetch]: the response of the network, [None] when the promise rejects. *)
Variable fetch : string → option Response.
(** The absolute URL of an entry of [urlsToCache]. *)
Variable resolve : string → string.

(** The [fetch] listener. *)
Definition onfetch (request : Request) (caches : CacheStorage) : FetchResult :=
  if negb (String.eqb (method request) "GET") then mkFetchResult NotHandled caches []
  else
    match caches_match (url request) caches with
    | Some response => mkFetchResult (Responds response) caches []
    | None =>
        match fetch (url request) with
        | Some response =>
            if not_cacheable response
            then mkFetchResult (Responds response) caches [url request]
            else mkFetchResult (Responds response)
                   (cache_put CACHE_NAME (url request) response
                      (caches_open CACHE_NAME caches))
                   [url request]
        | None => mkFetchResult Fails caches [url request]
        end
    end.

(** The [activate] listener: the deletions made by [cacheNames.map]. *)
Definition onactivate (caches : CacheStorage) : CacheStorage :=
  foldl (λ remaining cacheName,
           if bool_decide (cacheName ∉ cacheWhitelist)
           then caches_delete cacheName remaining
           else remaining)
        caches (caches_keys caches).

(** [response.ok], and no partial content: what [cache.addAll] accepts. *)
Definition accepted (response : Response) : bool :=
  bool_decide (200 ≤ status response ≤ 299) && negb (bool_decide (status response = 206)).

(** [cache.addAll(urls)] on the cache called [name]: every URL is
    fetched, and the responses are stored only when all of them were
    accepted. *)
Definition addAll (name : string) (urls : list string) (caches : CacheStorage)
  : option CacheStorage :=
  responses ← mapM (λ u, response ← fetch (resolve u);
                         if accepted response then Some (resolve u, response) else None)
                   urls;
  Some (foldl (λ remaining entry, cache_put name entry.1 entry.2 remaining)
              caches responses).

(** The [install] listener: the cache storage it leaves, and whether the
    promise given to [waitUntil] is fulfilled. *)
Definition oninstall (caches : CacheStorage) : CacheStorage * bool :=
  let opened := caches_open CACHE_NAME caches in
  match addAll CACHE_NAME urlsToCache opened with
  | Some stored => (stored, true)
  | None => (opened, false)
  end.

End Worker.

(** [cached caches name url response]: the cache called [name] answers
    [url] with [response]. *)
Definition cached (caches : CacheStorage) (name url : string) (response : Response)
  : Prop :=
  ∃ cache, (name, cache) ∈ caches ∧ cache !! url = Some response.

End SW.

Definition sample_caches : list (string * gmap string SW.Response) :=
  [ ("noveily-cache-v9",
     {[ "https://noveily.app/index.html" := SW.mkResponse 200 SW.basic "<html>v9</html>" ]});
    ("noveily-cache-v10",
     {[ "https://noveily.app/App.tsx" := SW.mkResponse 200 SW.basic "export default App" ]}) ].

Definition sample_origin (u : string) : string := "https://noveily.app/" ++ u.

Definition sample_network (u : string) : option SW.Response :=
  Some (SW.mkResponse 200 SW.cors ("body of " ++ u)).

Definition offline (u : string) : option SW.Response := None.

(** ** [App.tsx]: what is on the screen

    The state of [AppContent], the two items it keeps in [localStorage] and
    the [step] of the onboarding screen.  An event is a callback of the
    component that is on the screen; the other components are not mounted
    and cannot raise one.  Toasts are shown over every screen and are not
    part of the state. *)

Module App.

Inductive ViewState := LIBRARY | READER | UPLOAD | EDIT | COVER_EDITOR.

Inductive Language := en | ru.

Definition language_code (lang : Language) : string :=
  match lang with en => "en" | ru => "ru" end.

(** The items 'noveily-lang' and 'noveily-onboarding-complete'. *)
Record LocalStorage := mkLocalStorage {
  noveily_lang : option string;
  noveily_onboarding_complete : option string
}.

(** An item that is present and not the empty string. *)
Definition truthy (item : option string) : bool :=
  match item with
  | Some value => negb (String.eqb value "")
  | None => false
  end.

Record State := mkState {
  view : ViewState;
  activeComic : option Comic;
  showLangSelection : bool;
  showOnboarding : bool;
  isInitialLoading : bool;
  step : nat;
  localStorage : LocalStorage
}.

(** The first render and the effect that reads [localStorage]. *)
Definition mount (storage : LocalStorage) : State :=
  let initial := mkState LIBRARY None false false true 0 storage in
  if negb (truthy (noveily_lang storage))
  then mkState LIBRARY None true false true 0 storage
  else if negb (truthy (noveily_onboarding_complete storage))
       then mkState LIBRARY None false true true 0 storage
       else initial.

Inductive Screen :=
| ShowsSplash
| ShowsLanguageSelection
| ShowsOnboarding (currentStep : nat)
| ShowsLibrary
| ShowsReader (comic : Comic)
| ShowsEditor (comic : Comic)
| ShowsCoverEditor (comic : Comic)
| ShowsUploader
| ShowsNothing.

(** The [return] statements of [AppContent]. *)
Definition render (s : State) : Screen :=
  if isInitialLoading s then ShowsSplash
  else if showLangSelection s then ShowsLanguageSelection
  else if showOnboarding s then ShowsOnboarding (step s)
  else
    match view s, activeComic s with
    | LIBRARY, _ => ShowsLibrary
    | READER, Some comic => ShowsReader comic
    | EDIT, Some comic => ShowsEditor comic
    | COVER_EDITOR, Some comic => ShowsCoverEditor comic
    | UPLOAD, _ => ShowsUploader
    | _, None => ShowsNothing
    end.

(** [onboardingSteps.length] *)
Definition onboardingSteps_length : nat := 4.

Definition set_view (s : State) (v : ViewState) (comic : option Comic) : State :=
  mkState v comic (showLangSelection s) (showOnboarding s) (isInitialLoading s)
          (step s) (localStorage s).

(** [setLanguage(lang)] of the language context. *)
Definition setLanguage (lang : Language) (s : State) : State :=
  mkState (view s) (activeComic s) (showLangSelection s) (showOnboarding s)
          (isInitialLoading s) (step s)
          (mkLocalStorage (Some (language_code lang))
                          (noveily_onboarding_complete (localStorage s))).

Definition handleLanguageSelected (s : State) : State :=
  mkState (view s) (activeComic s) false
          (if negb (truthy (noveily_onboarding_complete (localStorage s)))
           then true else showOnboarding s)
          (isInitialLoading s) (step s) (localStorage s).

Definition handleOnboardingComplete (s : State) : State :=
  mkState (view s) (activeComic s) (showLangSelection s) false
          (isInitialLoading s) (step s)
          (mkLocalStorage (noveily_lang (localStorage s)) (Some "true")).

(** [handleNext] of the onboarding screen. *)
Definition handleNext (s : State) : State :=
  if bool_decide (step s < onboardingSteps_length - 1)%nat
  then mkState (view s) (activeComic s) (showLangSelection s) (showOnboarding s)
               (isInitialLoading s) (step s + 1)%nat (localStorage s)
  else handleOnboardingComplete s.

Definition handleOpenReader (comic : Comic) (s : State) : State :=
  set_view s READER (Some comic).
Definition handleOpenUploader (s : State) : State :=
  set_view s UPLOAD (activeComic s).
Definition handleOpenEditor (comic : Comic) (s : State) : State :=
  set_view s EDIT (Some comic).
Definition handleOpenCoverEditor (comic : Comic) (s : State) : State :=
  set_view s COVER_EDITOR (Some comic).
Definition handleCloseView (s : State) : State :=
  set_view s LIBRARY None.
Definition handleUploadComplete (s : State) : State :=
  set_view s LIBRARY (activeComic s).

Inductive Event :=
| SplashFinished
| LanguageChosen (lang : Language)
| OnboardingNext
| OnboardingSkipped
| OpenReader (comic : Comic)
| OpenUploader
| OpenEditor (comic : Comic)
| OpenCoverEditor (comic : Comic)
| LanguageSwitched (lang : Language)
| Closed
| UploadCompleted.

(** The callback that an event runs; an event of a component that is not
    on the screen does not occur. *)
Definition dispatch (s : State) (ev : Event) : State :=
  match render s, ev with
  | ShowsSplash, SplashFinished =>
      mkState (view s) (activeComic s) (showLangSelection s) (showOnboarding s)
              false (step s) (localStorage s)
  | ShowsLanguageSelection, LanguageChosen lang =>
      handleLanguageSelected (setLanguage lang s)
  | ShowsOnboarding _, OnboardingNext => handleNext s
  | ShowsOnboarding _, OnboardingSkipped => handleOnboardingComplete s
  | ShowsLibrary, OpenReader comic => handleOpenReader comic s
  | ShowsLibrary, OpenUploader => handleOpenUploader s
  | ShowsLibrary, OpenEditor comic => handleOpenEditor comic s
  | ShowsLibrary, OpenCoverEditor comic => handleOpenCoverEditor comic s
  | ShowsLibrary, LanguageSwitched lang => setLanguage lang s
  | ShowsReader _, Closed => handleCloseView s
  | ShowsEditor _, Closed => handleCloseView s
  | ShowsCoverEditor _, Closed => handleCloseView s
  | ShowsUploader, Closed => handleCloseView s
  | ShowsUploader, UploadCompleted => handleUploadComplete s
  | _, _ => s
  end.

Definition run (storage : LocalStorage) (events : list Event) : State :=
  foldl dispatch (mount storage) events.

(** One of the four views behind the start-up screens. *)
Definition is_main (screen : Screen) : bool :=
  match screen with
  | ShowsLibrary | ShowsReader _ | ShowsEditor _ | ShowsCoverEditor _ | ShowsUploader => true
  | _ => false
  end.

(** What holds in every state the application reaches. *)
Definition invariant (s : State) : Prop :=
  (showLangSelection s = false → truthy (noveily_lang (localStorage s)) = true)
  ∧ (showLangSelection s = false → showOnboarding s = false →
     truthy (noveily_onboarding_complete (localStorage s)) = true)
  ∧ match view s with
    | READER | EDIT | COVER_EDITOR => is_Some (activeComic s)
    | LIBRARY | UPLOAD => True
    end
  ∧ (step s < onboardingSteps_length)%nat.

End App.

Definition first_run : App.LocalStorage := App.mkLocalStorage None None.

(** ** [components/Reader.tsx]: the reading position *)

(** [useState(comic.lastReadPage || 0)] *)
Definition initialPageIndex (comic : Comic) : Z :=
  match Comic.lastReadPage comic with
  | Some lastReadPage => lastReadPage
  | None => 0
  end.

(** [pages[currentPageIndex]] *)
Definition pageAt (pages : list ComicPage) (currentPageIndex : Z) : option ComicPage :=
  if decide (0 ≤ currentPageIndex) then pages !! Z.to_nat currentPageIndex else None.

(** The values [currentPageIndex] takes while the reader is mounted, given
    the indices the intersection observer reports: setting the state to
    the value it has does not render again. *)
Fixpoint renders (currentPageIndex : Z) (seen : list Z) : list Z :=
  match seen with
  | [] => [currentPageIndex]
  | index :: rest =>
      if decide (index = currentPageIndex) then renders currentPageIndex rest
      else currentPageIndex :: renders index rest
  end.

(** The cleanup of the effect that saves the progress runs once for every
    value of [currentPageIndex], the last time when the reader is closed;
    [f n] tells which requests of the [n]-th call fail. *)
Fixpoint saveProgress (f : nat → Faults) (n : nat) (comicId : string)
    (indices : list Z) (db : DB) : DB :=
  match indices with
  | [] => db
  | pageIndex :: rest =>
      saveProgress f (S n) comicId rest (updateComicProgress (f n) comicId pageIndex db).2
  end.

Definition readerSession (f : nat → Faults) (comic : Comic) (seen : list Z) (db : DB)
  : DB :=
  saveProgress f 0 (Comic.id comic) (renders (initialPageIndex comic) seen) db.

(** * Properties *)


(** ** Sorted lists *)

Lemma StronglySorted_weaken {A} (R1 R2 : relation A) l :
  (∀ a b, R1 a b → R2 a b) → StronglySorted R1 l → StronglySorted R2 l.
Proof.
  intros HR. induction 1 as [|x l Hl IH Hx]; constructor; [done|].
  eapply Forall_impl; [exact Hx|]. auto.
Qed.

Lemma StronglySorted_filter {A} (R : relation A)
    (P : A → Prop) `{!∀ x, Decision (P x)} l :
  StronglySorted R l → StronglySorted R (filter P l).
Proof.
  induction 1 as [|x l Hl IH Hx]; [constructor|].
  rewrite filter_cons. destruct (decide (P x)); [|done].
  constructor; [done|].
  apply Forall_forall. intros y [_ Hy]%list_elem_of_filter.
  by eapply Forall_forall in Hx.
Qed.

(** ** The stable sort *)

Section SortingFacts.
Context {A : Type} (le : A → A → bool).

Local Abbreviation R := (λ a b : A, le a b = true).

Lemma insert_sorted_Permutation x l : JS.insert_sorted le x l ≡ₚ x :: l.
Proof.
  induction l as [|y l IH]; simpl; [done|].
  destruct (le x y); [done|].
  rewrite IH. apply Permutation_swap.
Qed.

Lemma stable_sort_Permutation l : JS.stable_sort le l ≡ₚ l.
Proof.
  induction l as [|x l IH]; simpl; [done|].
  by rewrite insert_sorted_Permutation, IH.
Qed.

Lemma stable_sort_length l : length (JS.stable_sort le l) = length l.
Proof. by rewrite stable_sort_Permutation. Qed.

Lemma elem_of_stable_sort x l : x ∈ JS.stable_sort le l ↔ x ∈ l.
Proof. by rewrite stable_sort_Permutation. Qed.

(** An element that precedes the whole list is put in front. *)
Lemma insert_sorted_min x l :
  Forall (R x) l → JS.insert_sorted le x l = x :: l.
Proof.
  destruct l as [|y l]; simpl; [done|].
  intros [Hy _]%Forall_cons. by rewrite Hy.
Qed.

Hypothesis le_total : ∀ a b, le a b = true ∨ le b a = true.
Hypothesis le_trans : ∀ a b c, le a b = true → le b c = true → le a c = true.

Lemma insert_sorted_StronglySorted x l :
  StronglySorted R l → StronglySorted R (JS.insert_sorted le x l).
Proof.
  induction 1 as [|y l Hl IH Hy]; simpl.
  { repeat constructor. }
  destruct (le x y) eqn:Hxy.
  - constructor; [by constructor|].
    constructor; [done|].
    eapply Forall_impl; [exact Hy|]. intros z Hz. by eapply le_trans.
  - constructor; [done|].
    rewrite insert_sorted_Permutation. constructor; [|done].
    destruct (le_total x y); congruence.
Qed.

Lemma stable_sort_StronglySorted l : StronglySorted R (JS.stable_sort le l).
Proof.
  induction l as [|x l IH]; simpl; [constructor|].
  by apply insert_sorted_StronglySorted.
Qed.

(** Stability: on a sorted list, filtering commutes with insertion. *)
Lemma filter_insert_sorted (P : A → Prop) `{!∀ x, Decision (P x)} x l :
  StronglySorted R l →
  filter P (JS.insert_sorted le x l)
  = if decide (P x) then JS.insert_sorted le x (filter P l) else filter P l.
Proof.
  induction 1 as [|y l Hl IH Hy]; simpl.
  { rewrite filter_cons, filter_nil. by destruct (decide (P x)). }
  destruct (le x y) eqn:Hxy.
  - rewrite (filter_cons _ x). destruct (decide (P x)) as [Hx|Hx]; [|done].
    symmetry. apply insert_sorted_min.
    apply Forall_forall. intros z [_ Hz]%list_elem_of_filter.
    inv Hz; [done|]. eapply le_trans; [exact Hxy|].
    by eapply Forall_forall in Hy.
  - rewrite (filter_cons _ y), IH.
    destruct (decide (P y)) as [Hpy|Hpy].
    + rewrite filter_cons_True by done. simpl. rewrite Hxy.
      by destruct (decide (P x)).
    + by rewrite filter_cons_False by done.
Qed.

Lemma filter_stable_sort (P : A → Prop) `{!∀ x, Decision (P x)} l :
  filter P (JS.stable_sort le l) = JS.stable_sort le (filter P l).
Proof.
  induction l as [|x l IH]; simpl; [done|].
  rewrite filter_insert_sorted by apply stable_sort_StronglySorted.
  rewrite filter_cons, IH. by destruct (decide (P x)).
Qed.

(** A sorted arrangement in which ties are equalities is the one the
    sort produces. *)
Lemma stable_sort_unique l t :
  l ≡ₚ t → StronglySorted R t →
  (∀ x y, x ∈ t → y ∈ t → le x y = true → le y x = true → x = y) →
  JS.stable_sort le l = t.
Proof.
  intros Hp Ht Hasym.
  apply (StronglySorted_unique_strong R); [|apply stable_sort_StronglySorted|done|].
  - intros x y Hx Hy. apply Hasym; [|done]. by rewrite <-Hp, <-elem_of_stable_sort.
  - by rewrite stable_sort_Permutation.
Qed.

End SortingFacts.

(** [Array.prototype.sort] with the comparator [(a, b) => f(a) - f(b)]. *)
Section SortByField.
Context {A : Type} (f : A → Z).

Local Abbreviation cmp := (λ a b : A, f a - f b).

Lemma sort_Permutation (compareFn : A → A → Z) l : JS.sort compareFn l ≡ₚ l.
Proof. apply stable_sort_Permutation. Qed.

Lemma sort_ascending l :
  StronglySorted (λ a b, f a ≤ f b) (JS.sort cmp l).
Proof.
  eapply StronglySorted_weaken; last first.
  - apply stable_sort_StronglySorted.
    + intros a b. rewrite !bool_decide_eq_true. lia.
    + intros a b c. rewrite !bool_decide_eq_true. lia.
  - intros a b. simpl. rewrite bool_decide_eq_true. lia.
Qed.

Lemma sort_descending l :
  StronglySorted (λ a b, f b ≤ f a) (JS.sort (λ a b, f b - f a) l).
Proof.
  eapply StronglySorted_weaken; last first.
  - apply stable_sort_StronglySorted.
    + intros a b. rewrite !bool_decide_eq_true. lia.
    + intros a b c. rewrite !bool_decide_eq_true. lia.
  - intros a b. simpl. rewrite bool_decide_eq_true. lia.
Qed.

Lemma filter_sort (P : A → Prop) `{!∀ x, Decision (P x)} l :
  filter P (JS.sort cmp l) = JS.sort cmp (filter P l).
Proof.
  apply filter_stable_sort.
  - intros a b. rewrite !bool_decide_eq_true. lia.
  - intros a b c. rewrite !bool_decide_eq_true. lia.
Qed.

Lemma sort_unique l t :
  l ≡ₚ t → StronglySorted (λ a b, f a ≤ f b) t →
  (∀ x y, x ∈ t → y ∈ t → f x = f y → x = y) →
  JS.sort cmp l = t.
Proof.
  intros Hp Ht Hinj. apply stable_sort_unique; [| |done| |].
  - intros a b. rewrite !bool_decide_eq_true. lia.
  - intros a b c. rewrite !bool_decide_eq_true. lia.
  - eapply StronglySorted_weaken; [|exact Ht].
    intros a b. simpl. rewrite bool_decide_eq_true. lia.
  - intros x y Hx Hy. rewrite !bool_decide_eq_true. intros. apply Hinj; [done..|lia].
Qed.

End SortByField.

(** ** Object stores *)

Lemma filter_fmap_list {A B} (f : A → B) (P : B → Prop) `{!∀ x, Decision (P x)}
    (l : list A) :
  filter P (f <$> l) = f <$> filter (λ x, P (f x)) l.
Proof.
  induction l as [|x l IH]; [done|]. csimpl.
  rewrite !filter_cons, IH. by destruct (decide (P (f x))).
Qed.

Lemma filter_ext_in {A} (P Q : A → Prop)
    `{!∀ x, Decision (P x), !∀ x, Decision (Q x)} (l : list A) :
  (∀ x, x ∈ l → P x ↔ Q x) → filter P l = filter Q l.
Proof.
  induction l as [|x l IH]; intros Hext; [done|].
  rewrite !filter_cons, IH by (intros; apply Hext; by right).
  destruct (decide (P x)) as [HP|HP], (decide (Q x)) as [HQ|HQ]; try done.
  - exfalso. apply HQ, Hext; [left|done].
  - exfalso. apply HP, Hext; [left|done].
Qed.

Section StoreFacts.
Context {A : Type}.
Implicit Types (s : gmap string A) (k : string) (r : A) (e : string * A).

Local Abbreviation key_le := (λ a b : string * A, String.leb a.1 b.1).

Lemma key_le_total (a b : string * A) : key_le a b = true ∨ key_le b a = true.
Proof. apply String.leb_total. Qed.

Lemma key_le_trans (a b c : string * A) :
  key_le a b = true → key_le b c = true → key_le a c = true.
Proof.
  intros H1 H2. apply Is_true_true.
  apply (transitivity (R:=String.le) (y:=b.1)); by apply Is_true_true.
Qed.

Lemma entries_Permutation s : IDB.entries s ≡ₚ map_to_list s.
Proof. apply stable_sort_Permutation. Qed.

Lemma elem_of_entries s k r : (k, r) ∈ IDB.entries s ↔ s !! k = Some r.
Proof. by rewrite entries_Permutation, elem_of_map_to_list. Qed.

Lemma NoDup_entries s : NoDup (IDB.entries s).
Proof. rewrite entries_Permutation. apply NoDup_map_to_list. Qed.

Lemma entries_sorted s :
  StronglySorted (λ a b, String.leb a.1 b.1 = true) (IDB.entries s).
Proof.
  apply (stable_sort_StronglySorted key_le).
  - intros a b. apply key_le_total.
  - intros a b c. apply key_le_trans.
Qed.

(** Sorting any enumeration of the store by key gives its entries. *)
Lemma stable_sort_entries s (l : list (string * A)) :
  l ≡ₚ map_to_list s → JS.stable_sort key_le l = IDB.entries s.
Proof.
  intros Hl. apply stable_sort_unique.
  - intros a b. apply key_le_total.
  - intros a b c. apply key_le_trans.
  - by rewrite entries_Permutation.
  - apply entries_sorted.
  - intros [k1 r1] [k2 r2] H1%elem_of_entries H2%elem_of_entries Hle1 Hle2.
    simpl in *. assert (k1 = k2) as -> by by apply String.leb_antisym.
    congruence.
Qed.

Lemma map_to_list_delete_filter s k :
  map_to_list (base.delete k s) ≡ₚ filter (λ e, e.1 ≠ k) (map_to_list s).
Proof.
  apply NoDup_Permutation.
  - apply NoDup_map_to_list.
  - apply NoDup_filter, NoDup_map_to_list.
  - intros [k' r]. rewrite list_elem_of_filter, !elem_of_map_to_list. simpl.
    rewrite lookup_delete_Some. naive_solver.
Qed.

Lemma entries_delete s k :
  IDB.entries (IDB.delete k s) = filter (λ e, e.1 ≠ k) (IDB.entries s).
Proof.
  unfold IDB.entries at 2.
  rewrite filter_stable_sort;
    [|intros a b; apply key_le_total|intros a b c; apply key_le_trans].
  symmetry. apply stable_sort_entries. symmetry. apply map_to_list_delete_filter.
Qed.

Lemma getAll_Permutation s : IDB.getAll s ≡ₚ (map_to_list s).*2.
Proof. unfold IDB.getAll. by rewrite entries_Permutation. Qed.

Lemma elem_of_getAll s r : r ∈ IDB.getAll s ↔ ∃ k, s !! k = Some r.
Proof.
  unfold IDB.getAll. rewrite list_elem_of_fmap. split.
  - intros ([k r'] & -> & H%elem_of_entries). eauto.
  - intros [k H%elem_of_entries]. by exists (k, r).
Qed.

Section Index.
Context (field : A → string).

Lemma elem_of_index_entries c s k r :
  (k, r) ∈ IDB.index_entries field c s ↔ s !! k = Some r ∧ field r = c.
Proof.
  unfold IDB.index_entries. rewrite list_elem_of_filter, elem_of_entries.
  naive_solver.
Qed.

Lemma index_getAll_filter c s :
  IDB.index_getAll field c s = filter (λ r, field r = c) (IDB.getAll s).
Proof. unfold IDB.index_getAll, IDB.index_entries, IDB.getAll. by rewrite filter_fmap_list. Qed.

Lemma elem_of_index_getAll c s r :
  r ∈ IDB.index_getAll field c s ↔ field r = c ∧ ∃ k, s !! k = Some r.
Proof. by rewrite index_getAll_filter, list_elem_of_filter, elem_of_getAll. Qed.

(** The index range enumerates the matching part of the store. *)
Lemma index_getAll_Permutation c s :
  IDB.index_getAll field c s
  ≡ₚ (map_to_list (filter (λ e, field e.2 = c) s)).*2.
Proof.
  unfold IDB.index_getAll. apply fmap_Permutation.
  apply NoDup_Permutation.
  - apply NoDup_filter, NoDup_entries.
  - apply NoDup_map_to_list.
  - intros [k r]. rewrite elem_of_index_entries, elem_of_map_to_list.
    rewrite map_lookup_filter_Some. naive_solver.
Qed.

Lemma foldl_delete_lookup (l : list (string * A)) s k :
  foldl (λ acc e, IDB.delete e.1 acc) s l !! k
  = if decide (k ∈ l.*1) then None else s !! k.
Proof.
  revert s. induction l as [|[k' r] l IH]; intros s; simpl; [done|].
  rewrite IH. unfold IDB.delete.
  destruct (decide (k ∈ l.*1)) as [Hin|Hin].
  - rewrite decide_True; [done|]. by right.
  - destruct (decide (k = k')) as [->|Hne].
    + rewrite lookup_delete_eq, decide_True; [done|]. by left.
    + rewrite lookup_delete_ne by done. rewrite decide_False; [done|].
      intros Hc. inv Hc; done.
Qed.

Lemma cursor_delete_all_lookup c s k :
  IDB.cursor_delete_all field c s !! k
  = match s !! k with
    | Some r => if decide (field r = c) then None else Some r
    | None => None
    end.
Proof.
  unfold IDB.cursor_delete_all. rewrite foldl_delete_lookup.
  destruct (s !! k) as [r|] eqn:Hk.
  - destruct (decide (field r = c)) as [Hf|Hf].
    + rewrite decide_True; [done|].
      apply list_elem_of_fmap. exists (k, r). split; [done|].
      by apply elem_of_index_entries.
    + rewrite decide_False; [done|].
      intros ([k' r'] & -> & [H1 H2]%elem_of_index_entries)%list_elem_of_fmap.
      simpl in *. congruence.
  - rewrite decide_False; [done|].
    intros ([k' r'] & -> & [H1 H2]%elem_of_index_entries)%list_elem_of_fmap.
    simpl in *. congruence.
Qed.

(** In a store keyed by [key], deleting a primary key removes from an index
    range the records with that [key]. *)
Lemma index_getAll_delete (key : A → string) c s k :
  keyed_by_id key s →
  IDB.index_getAll field c (IDB.delete k s)
  = filter (λ r, key r ≠ k) (IDB.index_getAll field c s).
Proof.
  intros Hkey. unfold IDB.index_getAll, IDB.index_entries.
  rewrite entries_delete, filter_fmap_list.
  rewrite list_filter_filter, (list_filter_filter (λ e, key e.2 ≠ k)).
  f_equal. apply filter_ext_in. intros [k' r] Hin%elem_of_entries. simpl.
  apply Hkey in Hin. simpl in Hin. naive_solver.
Qed.

End Index.
End StoreFacts.

(** ** The schema and the transactions *)

(** C9: the upgrade creates exactly the stores [comics] and [pages], both
    keyed by [id], and exactly one index, the non-unique [comicId] index of
    [pages]; every operation opens its transaction on, and takes its object
    stores from, these two stores only. *)
Theorem schema_two_stores_one_index :
  openDB_schema
  = [IDB.mkStore "comics" "id" [];
     IDB.mkStore "pages" "id" [IDB.mkIndex "comicId" "comicId" false]]
  ∧ length (concat (IDB.indexes <$> openDB_schema)) = 1%nat
  ∧ ∀ op : Operation,
      objectStores_of op ⊆ (transaction_of op).1
      ∧ (transaction_of op).1 ⊆ IDB.store_name <$> openDB_schema.
Proof.
  split; [reflexivity|]. split; [reflexivity|].
  intros op. destruct op; simpl; split; set_solver.
Qed.

(** Re-running the upgrade handler on the upgraded schema changes nothing. *)
Lemma onupgradeneeded_idempotent :
  onupgradeneeded openDB_schema = openDB_schema.
Proof. reflexivity. Qed.

(** ** Reading *)

(** C10: [getAllComics] returns every record of the [comics] store, newest
    first. *)
Theorem getAllComics_all_newest_first (db : DB) :
  getAllComics db ≡ₚ (map_to_list (comics db)).*2
  ∧ StronglySorted (λ a b, Comic.createdAt b ≤ Comic.createdAt a) (getAllComics db).
Proof.
  split.
  - unfold getAllComics. by rewrite sort_Permutation, getAll_Permutation.
  - apply sort_descending.
Qed.

Lemma elem_of_getAllComics (db : DB) (c : Comic) :
  c ∈ getAllComics db ↔ ∃ k, comics db !! k = Some c.
Proof.
  unfold getAllComics. by rewrite sort_Permutation, elem_of_getAll.
Qed.

Lemma sortedPages_Permutation comicId (pageStore : gmap string PageRecord) :
  sortedPages comicId pageStore
  ≡ₚ IDB.index_getAll PageRecord.comicId comicId pageStore.
Proof. apply sort_Permutation. Qed.

Lemma sortedPages_ascending comicId (pageStore : gmap string PageRecord) :
  StronglySorted (λ a b, PageRecord.order a ≤ PageRecord.order b)
                 (sortedPages comicId pageStore).
Proof. apply (sort_ascending PageRecord.order). Qed.

(** C6: [getComicPages] returns exactly the pages of the comic, in ascending
    [order], each reduced to [id], [blob] and [order]. *)
Theorem getComicPages_exact_sorted (comicId : string) (db : DB) :
  getComicPages comicId db
  ≡ₚ toComicPage
       <$> (map_to_list (filter (λ e, PageRecord.comicId e.2 = comicId) (pages db))).*2
  ∧ StronglySorted (λ a b, ComicPage.order a ≤ ComicPage.order b)
                   (getComicPages comicId db)
  ∧ ∀ q, q ∈ getComicPages comicId db ↔
         ∃ k p, pages db !! k = Some p ∧ PageRecord.comicId p = comicId
                ∧ q = ComicPage.mk (PageRecord.id p) (PageRecord.blob p) (PageRecord.order p).
Proof.
  unfold getComicPages. split; [|split].
  - by rewrite sortedPages_Permutation, index_getAll_Permutation.
  - apply (StronglySorted_fmap _ (λ a b, PageRecord.order a ≤ PageRecord.order b)).
    + by intros a b.
    + apply sortedPages_ascending.
  - intros q. rewrite list_elem_of_fmap. setoid_rewrite sortedPages_Permutation.
    setoid_rewrite elem_of_index_getAll. unfold toComicPage. naive_solver.
Qed.

(** ** Read-modify-write operations *)

(** The three operations have the same shape; their cases are split the
    same way. *)
Ltac update_cases f comicId db :=
  unfold updateComicProgress, updateComicCover, updateComicTitle, IDB.get;
  destruct (get_fails f) eqn:?;
  destruct (comics db !! comicId) eqn:?;
  destruct (put_fails f) eqn:?;
  simpl; try congruence.

Lemma updateComicProgress_rejected f comicId pageIndex db reason db' :
  updateComicProgress f comicId pageIndex db = (Rejected reason, db') → db' = db.
Proof. update_cases f comicId db. Qed.

Lemma updateComicCover_rejected f comicId coverBlob db reason db' :
  updateComicCover f comicId coverBlob db = (Rejected reason, db') → db' = db.
Proof. update_cases f comicId db. Qed.

Lemma updateComicTitle_rejected f comicId newTitle db reason db' :
  updateComicTitle f comicId newTitle db = (Rejected reason, db') → db' = db.
Proof. update_cases f comicId db. Qed.

(** When the record exists and both requests succeed, the operations write
    the field they are named after, and nothing else. *)
Lemma updateComicProgress_found comicId pageIndex db comic :
  comics db !! comicId = Some comic →
  updateComicProgress no_faults comicId pageIndex db
  = (Resolved,
     mkDB (<[Comic.id comic := Comic.set_lastReadPage comic (Some pageIndex)]> (comics db))
          (pages db)).
Proof. unfold updateComicProgress, IDB.get. simpl. by intros ->. Qed.

Lemma updateComicCover_found comicId coverBlob db comic :
  comics db !! comicId = Some comic →
  updateComicCover no_faults comicId coverBlob db
  = (Resolved,
     mkDB (<[Comic.id comic := Comic.set_coverImageBlob comic (Some coverBlob)]> (comics db))
          (pages db)).
Proof. unfold updateComicCover, IDB.get. simpl. by intros ->. Qed.

Lemma updateComicTitle_found comicId newTitle db comic :
  comics db !! comicId = Some comic →
  updateComicTitle no_faults comicId newTitle db
  = (Resolved,
     mkDB (<[Comic.id comic := Comic.set_title comic newTitle]> (comics db))
          (pages db)).
Proof. unfold updateComicTitle, IDB.get. simpl. by intros ->. Qed.

(** Their transactions span [comics] only: the pages are never touched. *)
Lemma update_pages_unchanged f comicId db :
  (∀ pageIndex, pages (updateComicProgress f comicId pageIndex db).2 = pages db)
  ∧ (∀ coverBlob, pages (updateComicCover f comicId coverBlob db).2 = pages db)
  ∧ (∀ newTitle, pages (updateComicTitle f comicId newTitle db).2 = pages db).
Proof. repeat split; intros; update_cases f comicId db. Qed.

(** C7: for a [comicId] without a record, [updateComicProgress] resolves
    while [updateComicCover] and [updateComicTitle] reject with a
    "Comic not found" error, and none of them changes the database; whatever
    the arguments, a rejection of any of the three leaves the database as it
    was. *)
Theorem update_of_missing_comic (f : Faults) (comicId : string) (db : DB) :
  get_fails f = false →
  comics db !! comicId = None →
  (∀ pageIndex, updateComicProgress f comicId pageIndex db = (Resolved, db))
  ∧ (∀ coverBlob,
       updateComicCover f comicId coverBlob db
       = (Rejected (JsError "Comic not found"), db))
  ∧ (∀ newTitle,
       updateComicTitle f comicId newTitle db
       = (Rejected (JsError "Comic not found for title update"), db))
  ∧ is_comic_not_found (JsError "Comic not found") = true
  ∧ is_comic_not_found (JsError "Comic not found for title update") = true
  ∧ (∀ f' id' db0 reason db',
       (∀ pageIndex, updateComicProgress f' id' pageIndex db0 = (Rejected reason, db') → db' = db0)
       ∧ (∀ coverBlob, updateComicCover f' id' coverBlob db0 = (Rejected reason, db') → db' = db0)
       ∧ (∀ newTitle, updateComicTitle f' id' newTitle db0 = (Rejected reason, db') → db' = db0)).
Proof.
  intros Hget Hnone. split; [|split; [|split; [|split; [|split]]]].
  - intros pageIndex. unfold updateComicProgress, IDB.get. by rewrite Hget, Hnone.
  - intros coverBlob. unfold updateComicCover, IDB.get. by rewrite Hget, Hnone.
  - intros newTitle. unfold updateComicTitle, IDB.get. by rewrite Hget, Hnone.
  - reflexivity.
  - reflexivity.
  - intros f' id' db0 reason db'. split; [|split]; intros x.
    + apply updateComicProgress_rejected.
    + apply updateComicCover_rejected.
    + apply updateComicTitle_rejected.
Qed.

Lemma update_of_missing_comic_witness :
  get_fails no_faults = false
  ∧ comics sample_db !! "c9" = None
  ∧ updateComicProgress no_faults "c9" 4 sample_db = (Resolved, sample_db)
  ∧ updateComicCover no_faults "c9" sample_blob sample_db
    = (Rejected (JsError "Comic not found"), sample_db).
Proof.
  assert (Hget : get_fails no_faults = false) by reflexivity.
  assert (Hnone : comics sample_db !! "c9" = None) by (vm_compute; reflexivity).
  destruct (update_of_missing_comic no_faults "c9" sample_db Hget Hnone)
    as (Hprogress & Hcover & _).
  split; [exact Hget|]. split; [exact Hnone|].
  split; [apply Hprogress|apply Hcover].
Defined.

(** ** Cascading deletion of a comic *)

(** C4: [deleteComic] removes the comic filed under [comicId] and every page
    whose [comicId] field equals it; every other comic and every page of
    another comic stays as it was, and nothing is added. *)
Theorem deleteComic_cascade (comicId : string) (db : DB) :
  well_keyed db →
  let db' := deleteComic comicId db in
  (∀ k c, comics db' !! k = Some c → Comic.id c ≠ comicId)
  ∧ (∀ k p, pages db' !! k = Some p → PageRecord.comicId p ≠ comicId)
  ∧ (∀ k c, comics db !! k = Some c → Comic.id c ≠ comicId → comics db' !! k = Some c)
  ∧ (∀ k p, pages db !! k = Some p → PageRecord.comicId p ≠ comicId
            → pages db' !! k = Some p)
  ∧ (∀ k c, comics db' !! k = Some c → comics db !! k = Some c)
  ∧ (∀ k p, pages db' !! k = Some p → pages db !! k = Some p).
Proof.
  intros [Hc Hp] db'. subst db'. unfold deleteComic, IDB.delete. simpl.
  repeat split.
  - intros k c [Hne Hk]%lookup_delete_Some. apply Hc in Hk. simpl in Hk. congruence.
  - intros k p. rewrite cursor_delete_all_lookup.
    destruct (pages db !! k) as [p'|]; [|done].
    destruct (decide (PageRecord.comicId p' = comicId)); naive_solver.
  - intros k c Hk Hne. apply lookup_delete_Some. split; [|done].
    apply Hc in Hk. simpl in Hk. congruence.
  - intros k p Hk Hne. rewrite cursor_delete_all_lookup, Hk.
    by rewrite decide_False.
  - by intros k c [_ Hk]%lookup_delete_Some.
  - intros k p. rewrite cursor_delete_all_lookup.
    destruct (pages db !! k) as [p'|]; [|done].
    destruct (decide (PageRecord.comicId p' = comicId)); naive_solver.
Qed.

Lemma sample_db_well_keyed : well_keyed sample_db.
Proof. apply (bool_decide_eq_true_1 _). vm_compute. reflexivity. Qed.

Lemma deleteComic_cascade_witness :
  well_keyed sample_db
  ∧ ∀ k p, pages (deleteComic "c1" sample_db) !! k = Some p
           → PageRecord.comicId p ≠ "c1".
Proof.
  assert (Hwk : well_keyed sample_db).
  { apply (bool_decide_eq_true_1 _). vm_compute. reflexivity. }
  split; [exact Hwk|].
  exact (proj1 (proj2 (deleteComic_cascade "c1" sample_db Hwk))).
Defined.

(** ** Deleting a page *)

Lemma StronglySorted_lookup {A} (R : relation A) (l : list A) :
  (∀ i j x y, (i < j)%nat → l !! i = Some x → l !! j = Some y → R x y) →
  StronglySorted R l.
Proof.
  induction l as [|a l IH]; intros H; constructor.
  - apply IH. intros i j x y Hij Hi Hj. apply (H (S i) (S j)); [lia|done..].
  - apply Forall_lookup. intros j y Hj. apply (H 0%nat (S j)); [lia|done..].
Qed.

Lemma set_order_same (p : PageRecord) :
  PageRecord.set_order p (PageRecord.order p) = p.
Proof. by destruct p. Qed.

Section Keyed.
Context {A : Type} (key : A → string).
Implicit Types (s : gmap string A).

Lemma keyed_by_id_empty : keyed_by_id key (∅ : gmap string A).
Proof. apply map_Forall_empty. Qed.

Lemma keyed_by_id_put r s : keyed_by_id key s → keyed_by_id key (IDB.put key r s).
Proof. intros Hs. by apply map_Forall_insert_2. Qed.

Lemma keyed_by_id_delete k s : keyed_by_id key s → keyed_by_id key (IDB.delete k s).
Proof. intros Hs. by apply map_Forall_delete. Qed.

(** The records of a keyed store have pairwise distinct keys. *)
Lemma NoDup_key_getAll s : keyed_by_id key s → NoDup (key <$> IDB.getAll s).
Proof.
  intros Hs. unfold IDB.getAll. rewrite <-list_fmap_compose.
  rewrite (list_fmap_ext _ fst (IDB.entries s) ).
  - rewrite entries_Permutation. apply NoDup_fst_map_to_list.
  - intros i [k r] Hi. simpl.
    apply list_elem_of_lookup_2, elem_of_entries in Hi. by apply Hs in Hi.
Qed.

Lemma NoDup_key_index_getAll (field : A → string) c s :
  keyed_by_id key s → NoDup (key <$> IDB.index_getAll field c s).
Proof.
  intros Hs. rewrite index_getAll_filter.
  eapply sublist_NoDup; [by apply NoDup_key_getAll|].
  apply fmap_sublist, sublist_filter.
Qed.

Lemma keyed_lookup_elem (field : A → string) c s r :
  keyed_by_id key s → r ∈ IDB.index_getAll field c s → s !! key r = Some r.
Proof.
  intros Hs (_ & k & Hk)%elem_of_index_getAll.
  pose proof (Hs k r Hk) as Heq. simpl in Heq. by rewrite Heq.
Qed.

End Keyed.

Section Renumber.
Implicit Types (l : list PageRecord) (s : gmap string PageRecord).

Lemma renumberPages_keyed l index s :
  keyed_by_id PageRecord.id s →
  keyed_by_id PageRecord.id (renumberPages l index s).
Proof.
  revert index s. induction l as [|p l IH]; intros index s Hs; simpl; [done|].
  apply IH. destruct (decide (PageRecord.order p ≠ index)); [|done].
  by apply (keyed_by_id_put PageRecord.id).
Qed.

(** Keys outside the list are not written. *)
Lemma renumberPages_lookup_other l index s k :
  k ∉ PageRecord.id <$> l → renumberPages l index s !! k = s !! k.
Proof.
  revert index s. induction l as [|p l IH]; intros index s Hk; simpl; [done|].
  apply not_elem_of_cons in Hk as [Hne Hk]. rewrite IH by done.
  destruct (decide (PageRecord.order p ≠ index)); [|done].
  unfold IDB.put. by rewrite lookup_insert_ne.
Qed.

(** The [j]-th page of the list ends up stored with [order = index + j]. *)
Lemma renumberPages_lookup l index s j p :
  NoDup (PageRecord.id <$> l) →
  l !! j = Some p → s !! PageRecord.id p = Some p →
  renumberPages l index s !! PageRecord.id p
  = Some (PageRecord.set_order p (index + Z.of_nat j)).
Proof.
  revert index s j. induction l as [|q l IH]; intros index s j Hnd Hj Hp; [done|].
  apply NoDup_cons in Hnd as [Hq Hnd]. simpl.
  destruct j as [|j]; simplify_eq/=.
  - rewrite renumberPages_lookup_other by done.
    rewrite Z.add_0_r.
    destruct (decide (PageRecord.order p ≠ index)) as [Hne|Heq].
    + unfold IDB.put. simpl. by rewrite lookup_insert_eq.
    + apply dec_stable in Heq. by rewrite Hp, <-Heq, set_order_same.
  - assert (Hne : PageRecord.id q ≠ PageRecord.id p).
    { intros Heq. apply Hq. rewrite Heq.
      by apply list_elem_of_fmap_2, list_elem_of_lookup_2 with j. }
    rewrite (IH (index + 1) _ j); [do 2 f_equal; lia|done..|].
    destruct (decide (PageRecord.order q ≠ index)); [|done].
    unfold IDB.put. simpl. by rewrite lookup_insert_ne.
Qed.

Lemma resequenced_lookup l j :
  resequenced l !! j = (λ p, PageRecord.set_order p (Z.of_nat j)) <$> l !! j.
Proof. apply list_lookup_imap. Qed.

Lemma resequenced_length l : length (resequenced l) = length l.
Proof. apply length_imap. Qed.

Lemma resequenced_id l : PageRecord.id <$> resequenced l = PageRecord.id <$> l.
Proof.
  unfold resequenced. rewrite fmap_imap. simpl.
  rewrite <-(imap_const PageRecord.id). by apply imap_ext.
Qed.

Lemma resequenced_order l :
  PageRecord.order <$> resequenced l = Z.of_nat <$> seq 0 (length l).
Proof.
  unfold resequenced. rewrite fmap_imap. simpl.
  apply list_eq. intros i.
  rewrite list_lookup_imap, list_lookup_fmap. simpl.
  destruct (l !! i) as [p|] eqn:Hi; simpl.
  - apply lookup_lt_Some in Hi. by rewrite lookup_seq_lt.
  - apply lookup_ge_None in Hi. by rewrite lookup_seq_ge.
Qed.

Lemma resequenced_ascending l :
  StronglySorted (λ a b, PageRecord.order a ≤ PageRecord.order b) (resequenced l).
Proof.
  apply StronglySorted_lookup. intros i j x y Hij.
  rewrite !resequenced_lookup.
  intros (p & _ & ->)%fmap_Some (q & _ & ->)%fmap_Some. simpl. lia.
Qed.

Lemma resequenced_order_inj l x y :
  x ∈ resequenced l → y ∈ resequenced l →
  PageRecord.order x = PageRecord.order y → x = y.
Proof.
  intros [i Hi]%list_elem_of_lookup_1 [j Hj]%list_elem_of_lookup_1.
  rewrite resequenced_lookup in Hi, Hj.
  apply fmap_Some in Hi as (p & Hp & ->). apply fmap_Some in Hj as (q & Hq & ->).
  simpl. intros Hij%Nat2Z.inj. subst j. congruence.
Qed.

Lemma NoDup_resequenced l : NoDup (PageRecord.id <$> l) → NoDup (resequenced l).
Proof. intros Hnd. eapply NoDup_fmap_1. by rewrite resequenced_id. Qed.

(** After renumbering the sorted pages of a comic in a keyed store, the
    comic's index range holds exactly the renumbered pages. *)
Lemma index_getAll_renumberPages comicId s :
  keyed_by_id PageRecord.id s →
  IDB.index_getAll PageRecord.comicId comicId
    (renumberPages (sortedPages comicId s) 0 s)
  ≡ₚ resequenced (sortedPages comicId s).
Proof.
  intros Hs.
  set (S := sortedPages comicId s).
  assert (HS : ∀ p, p ∈ S ↔ p ∈ IDB.index_getAll PageRecord.comicId comicId s).
  { intros p. unfold S. by rewrite sortedPages_Permutation. }
  assert (Hnd : NoDup (PageRecord.id <$> S)).
  { unfold S. rewrite sortedPages_Permutation.
    by apply (NoDup_key_index_getAll PageRecord.id). }
  assert (Hs' : keyed_by_id PageRecord.id (renumberPages S 0 s))
    by by apply renumberPages_keyed.
  apply NoDup_Permutation.
  - eapply NoDup_fmap_1.
    by apply (NoDup_key_index_getAll PageRecord.id).
  - by apply NoDup_resequenced.
  - intros r. rewrite elem_of_index_getAll. split.
    + intros (Hc & k & Hk).
      destruct (decide (k ∈ PageRecord.id <$> S)) as [Hin|Hout].
      * apply list_elem_of_fmap in Hin as (p & -> & Hp).
        pose proof Hp as [j Hj]%list_elem_of_lookup_1.
        rewrite (renumberPages_lookup S 0 s j p) in Hk; [|done..|].
        -- simplify_eq. apply list_elem_of_lookup_2 with j.
           by rewrite resequenced_lookup, Hj.
        -- by apply (keyed_lookup_elem _ PageRecord.comicId comicId), HS.
      * rewrite renumberPages_lookup_other in Hk by done.
        exfalso. apply Hout.
        pose proof (Hs k r Hk) as Hid. simpl in Hid. subst k.
        apply list_elem_of_fmap_2, HS, elem_of_index_getAll. eauto.
    + intros [j Hj]%list_elem_of_lookup_1.
      rewrite resequenced_lookup in Hj.
      apply fmap_Some in Hj as (p & Hj & ->).
      assert (Hp : p ∈ S) by by apply list_elem_of_lookup_2 with j.
      apply HS in Hp. pose proof Hp as [Hc _]%elem_of_index_getAll.
      split; [done|]. exists (PageRecord.id p).
      rewrite (renumberPages_lookup S 0 s j p); [done..|].
      by apply (keyed_lookup_elem _ PageRecord.comicId comicId).
Qed.

Lemma sortedPages_renumberPages comicId s :
  keyed_by_id PageRecord.id s →
  sortedPages comicId (renumberPages (sortedPages comicId s) 0 s)
  = resequenced (sortedPages comicId s).
Proof.
  intros Hs. unfold sortedPages at 1. apply sort_unique.
  - by apply index_getAll_renumberPages.
  - apply resequenced_ascending.
  - apply resequenced_order_inj.
Qed.

(** Deleting a page removes it from the sorted pages of its comic and
    leaves the others in their order. *)
Lemma sortedPages_delete comicId pageId s :
  keyed_by_id PageRecord.id s →
  sortedPages comicId (IDB.delete pageId s)
  = filter (λ p, PageRecord.id p ≠ pageId) (sortedPages comicId s).
Proof.
  intros Hs. unfold sortedPages.
  rewrite (index_getAll_delete _ PageRecord.id) by done.
  symmetry. apply (filter_sort PageRecord.order).
Qed.

End Renumber.

Section DeletePage.
Context (pageId comicId : string) (db : DB).

Local Abbreviation pageStore := (IDB.delete pageId (pages db)).

Lemma deleteComicPage_last :
  IDB.index_getAll PageRecord.comicId comicId pageStore = [] →
  deleteComicPage pageId comicId db
  = mkDB (IDB.delete comicId (comics db)) pageStore.
Proof. unfold deleteComicPage. intros ->. by rewrite decide_True. Qed.

Lemma deleteComicPage_some_left :
  IDB.index_getAll PageRecord.comicId comicId pageStore ≠ [] →
  deleteComicPage pageId comicId db
  = mkDB (match IDB.get comicId (comics db) with
          | Some comic =>
              IDB.put Comic.id
                (recountComic comic
                   (Z.of_nat (length (sortedPages comicId pageStore))))
                (comics db)
          | None => comics db
          end)
         (renumberPages (sortedPages comicId pageStore) 0 pageStore).
Proof.
  unfold deleteComicPage. intros Hne.
  rewrite decide_False; [done|]. by intros ?%nil_length_inv.
Qed.

Hypothesis Hwk : well_keyed db.

Lemma pageStore_keyed : keyed_by_id PageRecord.id pageStore.
Proof. apply keyed_by_id_delete, Hwk. Qed.

(** The comic's pages after the call, in reading order. *)
Lemma deleteComicPage_sortedPages :
  sortedPages comicId (pages (deleteComicPage pageId comicId db))
  = resequenced (filter (λ p, PageRecord.id p ≠ pageId)
                        (sortedPages comicId (pages db))).
Proof.
  rewrite <-sortedPages_delete by apply Hwk.
  destruct (IDB.index_getAll PageRecord.comicId comicId pageStore) eqn:Hrem.
  - rewrite deleteComicPage_last by done. simpl.
    unfold sortedPages. by rewrite Hrem.
  - rewrite deleteComicPage_some_left by by rewrite Hrem. simpl.
    apply sortedPages_renumberPages, pageStore_keyed.
Qed.

Lemma deleteComicPage_count :
  length (IDB.index_getAll PageRecord.comicId comicId
            (pages (deleteComicPage pageId comicId db)))
  = length (sortedPages comicId pageStore).
Proof.
  rewrite <-sortedPages_Permutation, deleteComicPage_sortedPages.
  by rewrite resequenced_length, <-sortedPages_delete by apply Hwk.
Qed.

Lemma deleteComicPage_none_left :
  IDB.index_getAll PageRecord.comicId comicId
    (pages (deleteComicPage pageId comicId db)) = [] →
  IDB.index_getAll PageRecord.comicId comicId pageStore = [].
Proof.
  intros Hnil%(f_equal length). rewrite deleteComicPage_count in Hnil.
  apply nil_length_inv. by rewrite <-sortedPages_Permutation.
Qed.

End DeletePage.



(** What [getComicPages] shows before and after. *)
Corollary deleteComicPage_getComicPages (pageId comicId : string) (db : DB) :
  well_keyed db →
  getComicPages comicId (deleteComicPage pageId comicId db)
  = imap (λ i q, ComicPage.mk (ComicPage.id q) (ComicPage.blob q) (Z.of_nat i))
         (filter (λ q, ComicPage.id q ≠ pageId) (getComicPages comicId db)).
Proof.
  intros Hwk. unfold getComicPages.
  rewrite deleteComicPage_sortedPages by done.
  rewrite filter_fmap_list, imap_fmap. unfold resequenced. by rewrite fmap_imap.
Qed.

(** C2: when no page of the comic is left after [deleteComicPage], the
    comic record is gone as well, and only that record. *)
Theorem deleteComicPage_last_page (pageId comicId : string) (db : DB) :
  well_keyed db →
  let db' := deleteComicPage pageId comicId db in
  IDB.index_getAll PageRecord.comicId comicId (pages db') = [] →
  comics db' !! comicId = None
  ∧ (∀ k c, comics db' !! k = Some c → Comic.id c ≠ comicId)
  ∧ (∀ k, k ≠ comicId → comics db' !! k = comics db !! k).
Proof.
  intros Hwk db' Hnil. subst db'.
  apply deleteComicPage_none_left in Hnil; [|done].
  rewrite deleteComicPage_last by done. unfold IDB.delete. simpl.
  split; [apply lookup_delete_eq|]. split.
  - intros k c [Hne Hk]%lookup_delete_Some.
    apply (proj1 Hwk) in Hk. simpl in Hk. congruence.
  - intros k Hne. by rewrite lookup_delete_ne.
Qed.

Lemma deleteComicPage_last_page_witness :
  well_keyed sample_db
  ∧ IDB.index_getAll PageRecord.comicId "c3"
      (pages (deleteComicPage "r0" "c3" sample_db)) = []
  ∧ comics (deleteComicPage "r0" "c3" sample_db) !! "c3" = None.
Proof.
  assert (Hwk : well_keyed sample_db).
  { apply (bool_decide_eq_true_1 _). vm_compute. reflexivity. }
  assert (Hnil : IDB.index_getAll PageRecord.comicId "c3"
                   (pages (deleteComicPage "r0" "c3" sample_db)) = []).
  { vm_compute. reflexivity. }
  split; [exact Hwk|]. split; [exact Hnil|].
  exact (proj1 (deleteComicPage_last_page "r0" "c3" sample_db Hwk Hnil)).
Defined.

Lemma recountComic_totalPages comic count :
  Comic.totalPages (recountComic comic count) = count.
Proof.
  unfold recountComic. simpl. destruct (Comic.lastReadPage comic); [|done].
  by destruct (decide _).
Qed.

Lemma recountComic_lastReadPage comic count :
  Comic.lastReadPage (recountComic comic count)
  = match Comic.lastReadPage comic with
    | Some l => if decide (count ≤ l) then Some (Z.max 0 (count - 1)) else Some l
    | None => None
    end.
Proof.
  unfold recountComic. simpl.
  destruct (Comic.lastReadPage comic) as [l|] eqn:Hl; [|exact Hl].
  destruct (decide (l >= count)), (decide (count ≤ l)); simpl; try done; lia.
Qed.

Lemma recountComic_rest comic count :
  Comic.id (recountComic comic count) = Comic.id comic
  ∧ Comic.title (recountComic comic count) = Comic.title comic
  ∧ Comic.coverImageBlob (recountComic comic count) = Comic.coverImageBlob comic
  ∧ Comic.createdAt (recountComic comic count) = Comic.createdAt comic.
Proof.
  unfold recountComic. simpl. destruct (Comic.lastReadPage comic); [|done].
  by destruct (decide _).
Qed.

(** C3: a comic that is still there after [deleteComicPage] has
    [totalPages] equal to the number of its remaining pages; a reading
    position that had reached or passed that number is moved to the last
    page, a valid index; an earlier position and every other field are
    kept. *)
Theorem deleteComicPage_recounts (pageId comicId : string) (db : DB) (comic' : Comic) :
  well_keyed db →
  let db' := deleteComicPage pageId comicId db in
  let n := Z.of_nat (length (IDB.index_getAll PageRecord.comicId comicId (pages db'))) in
  comics db' !! comicId = Some comic' →
  Comic.totalPages comic' = n
  ∧ ∃ comic, comics db !! comicId = Some comic
      ∧ (∀ l, Comic.lastReadPage comic = Some l → n ≤ l →
              Comic.lastReadPage comic' = Some (n - 1)
              ∧ 0 ≤ n - 1 < Comic.totalPages comic')
      ∧ (∀ l, Comic.lastReadPage comic = Some l → l < n →
              Comic.lastReadPage comic' = Some l)
      ∧ (Comic.lastReadPage comic = None → Comic.lastReadPage comic' = None)
      ∧ Comic.id comic' = Comic.id comic
      ∧ Comic.title comic' = Comic.title comic
      ∧ Comic.coverImageBlob comic' = Comic.coverImageBlob comic
      ∧ Comic.createdAt comic' = Comic.createdAt comic.
Proof.
  intros Hwk db' n. subst db' n. rewrite deleteComicPage_count by done.
  destruct (IDB.index_getAll PageRecord.comicId comicId
              (IDB.delete pageId (pages db))) as [|p0 rest] eqn:Hrem.
  { rewrite deleteComicPage_last by done. unfold IDB.delete. simpl.
    by rewrite lookup_delete_eq. }
  rewrite deleteComicPage_some_left by by rewrite Hrem. simpl.
  assert (Hpos : 0 < Z.of_nat (length (sortedPages comicId (IDB.delete pageId (pages db))))).
  { rewrite sortedPages_Permutation, Hrem. simpl. lia. }
  set (n := Z.of_nat _) in *. unfold IDB.get.
  destruct (comics db !! comicId) as [comic|] eqn:Hc; [|by rewrite Hc].
  assert (Hid : Comic.id comic = comicId) by apply (proj1 Hwk _ _ Hc).
  unfold IDB.put. rewrite (proj1 (recountComic_rest comic n)), Hid, lookup_insert_eq.
  intros [= <-]. split; [apply recountComic_totalPages|].
  exists comic. split; [done|].
  rewrite recountComic_totalPages, recountComic_lastReadPage.
  destruct (recountComic_rest comic n) as (? & ? & ? & ?).
  repeat split; try done.
  - destruct (Comic.lastReadPage comic) as [l'|]; [|done].
    simplify_eq. rewrite decide_True by done. f_equal. lia.
  - lia.
  - lia.
  - intros l Hl Hlt. rewrite Hl. rewrite decide_False by lia. done.
  - by intros ->.
Qed.

Lemma deleteComicPage_recounts_witness :
  well_keyed sample_db
  ∧ comics (deleteComicPage "p1" "c1" sample_db) !! "c1"
    = Some (Comic.mk "c1" "Alpha Flight" (Some sample_blob) 1000 2 (Some 1))
  ∧ Comic.totalPages (Comic.mk "c1" "Alpha Flight" (Some sample_blob) 1000 2 (Some 1))
    = Z.of_nat (length (IDB.index_getAll PageRecord.comicId "c1"
                          (pages (deleteComicPage "p1" "c1" sample_db)))).
Proof.
  assert (Hwk : well_keyed sample_db).
  { apply (bool_decide_eq_true_1 _). vm_compute. reflexivity. }
  assert (Hc : comics (deleteComicPage "p1" "c1" sample_db) !! "c1"
               = Some (Comic.mk "c1" "Alpha Flight" (Some sample_blob) 1000 2 (Some 1))).
  { vm_compute. reflexivity. }
  split; [exact Hwk|]. split; [exact Hc|].
  exact (proj1 (deleteComicPage_recounts "p1" "c1" sample_db _ Hwk Hc)).
Defined.

(** Apart from the deleted page, the pages of the other comics and the
    other comic records are left alone. *)
Lemma deleteComicPage_frame (pageId comicId : string) (db : DB) :
  well_keyed db →
  let db' := deleteComicPage pageId comicId db in
  (∀ k p, pages db !! k = Some p → PageRecord.comicId p ≠ comicId → k ≠ pageId →
          pages db' !! k = Some p)
  ∧ pages db' !! pageId = None
  ∧ (∀ k, k ≠ comicId → comics db' !! k = comics db !! k).
Proof.
  intros Hwk db'. subst db'.
  pose proof (pageStore_keyed pageId db Hwk) as Hkeyed.
  destruct (IDB.index_getAll PageRecord.comicId comicId
              (IDB.delete pageId (pages db))) as [|p0 rest] eqn:Hrem.
  - rewrite deleteComicPage_last by done. unfold IDB.delete. simpl.
    split; [|split].
    + intros k p Hk _ Hne. by rewrite lookup_delete_ne.
    + apply lookup_delete_eq.
    + intros k Hne. by rewrite lookup_delete_ne.
  - rewrite deleteComicPage_some_left by by rewrite Hrem. simpl.
    assert (Hother : ∀ k, (∀ q, IDB.delete pageId (pages db) !! k = Some q →
                                PageRecord.comicId q ≠ comicId) →
              k ∉ PageRecord.id <$> sortedPages comicId (IDB.delete pageId (pages db))).
    { intros k Hk (q & -> & Hq)%list_elem_of_fmap.
      rewrite sortedPages_Permutation in Hq.
      pose proof Hq as [Hc _]%elem_of_index_getAll.
      apply (keyed_lookup_elem PageRecord.id) in Hq; [|done].
      by apply Hk in Hq. }
    split; [|split].
    + intros k p Hk Hc Hne. rewrite renumberPages_lookup_other.
      * unfold IDB.delete. by rewrite lookup_delete_ne.
      * apply Hother. intros q. unfold IDB.delete.
        rewrite lookup_delete_ne by done. congruence.
    + rewrite renumberPages_lookup_other.
      * apply lookup_delete_eq.
      * apply Hother. intros q. unfold IDB.delete. by rewrite lookup_delete_eq.
    + intros k Hne. unfold IDB.get.
      destruct (comics db !! comicId) as [comic|] eqn:Hc; [|done].
      unfold IDB.put. rewrite (proj1 (recountComic_rest _ _)).
      rewrite (proj1 Hwk _ _ Hc). by rewrite lookup_insert_ne.
Qed.

(** ** The sample library, evaluated *)

Example getAllComics_sample :
  Comic.id <$> getAllComics sample_db = ["c3"; "c2"; "c1"].
Proof. vm_compute. reflexivity. Qed.

Example getComicPages_sample :
  (λ q, (ComicPage.id q, ComicPage.order q)) <$> getComicPages "c2" sample_db
  = [("q1", 0); ("q0", 1)].
Proof. vm_compute. reflexivity. Qed.

Example deleteComicPage_sample :
  (λ q, (ComicPage.id q, ComicPage.order q))
    <$> getComicPages "c1" (deleteComicPage "p0" "c1" sample_db)
  = [("p1", 0); ("p2", 1)]
  ∧ comics (deleteComicPage "p0" "c1" sample_db) !! "c1"
    = Some (Comic.mk "c1" "Alpha Flight" (Some sample_blob) 1000 2 (Some 1)).
Proof. split; vm_compute; reflexivity. Qed.

Example deleteComic_sample :
  Comic.id <$> getAllComics (deleteComic "c2" sample_db) = ["c3"; "c1"]
  ∧ getComicPages "c2" (deleteComic "c2" sample_db) = [].
Proof. split; vm_compute; reflexivity. Qed.

(** ** Every operation keeps the records filed under their [id] *)

Lemma well_keyed_empty : well_keyed (mkDB ∅ ∅).
Proof. split; apply map_Forall_empty. Qed.

Lemma saveComic_well_keyed comic pgs db :
  well_keyed db → well_keyed (saveComic comic pgs db).
Proof.
  intros [Hc Hp]. split; simpl.
  - by apply (keyed_by_id_put Comic.id).
  - generalize dependent (pages db). induction pgs as [|p pgs IH]; intros s Hs; [done|].
    simpl. apply IH. by apply (keyed_by_id_put PageRecord.id).
Qed.

Lemma update_well_keyed f comicId db :
  well_keyed db →
  (∀ pageIndex, well_keyed (updateComicProgress f comicId pageIndex db).2)
  ∧ (∀ coverBlob, well_keyed (updateComicCover f comicId coverBlob db).2)
  ∧ (∀ newTitle, well_keyed (updateComicTitle f comicId newTitle db).2).
Proof.
  intros [Hc Hp].
  repeat split; intros; update_cases f comicId db;
    try done; by apply (keyed_by_id_put Comic.id).
Qed.


Lemma deleteComicPage_well_keyed pageId comicId db :
  well_keyed db → well_keyed (deleteComicPage pageId comicId db).
Proof.
  intros [Hc Hp]. unfold deleteComicPage. case_decide.
  - split; simpl; by apply keyed_by_id_delete.
  - split; simpl.
    + destruct (IDB.get comicId (comics db)); [|done].
      by apply (keyed_by_id_put Comic.id).
    + by apply renumberPages_keyed, keyed_by_id_delete.
Qed.

(** ** Text matching *)

Lemma append_cons (c : ascii) (a b : string) : String c a ++ b = String c (a ++ b).
Proof. reflexivity. Qed.

Lemma append_nil_l (b : string) : "" ++ b = b.
Proof. reflexivity. Qed.




(** ** Selections from a list *)




Lemma selects_from_sublist {A} (P : nat → A → Prop) (n : nat) (l l' : list A) :
  selects_from P n l l' → l' `sublist_of` l.
Proof.
  induction 1; [done|by apply sublist_skip|by apply sublist_cons].
Qed.



(** ** The cover search *)

Lemma omap_imap_sublist {A} (f : nat → A → option A) (l : list A) :
  (∀ i x y, f i x = Some y → y = x) → omap id (imap f l) `sublist_of` l.
Proof.
  revert f. induction l as [|x l IH]; intros f Hf; [done|].
  rewrite imap_cons. simpl. unfold id at 1.
  destruct (f 0%nat x) as [y|] eqn:Hy.
  - apply Hf in Hy as ->. apply sublist_skip, IH. intros i. apply Hf.
  - apply sublist_cons, IH. intros i. apply Hf.
Qed.

Lemma omap_snd_imap {A B} (f : nat → A → B * option A) (l : list A) :
  omap snd (imap f l) = omap id (imap (λ i x, (f i x).2) l).
Proof.
  revert f. induction l as [|x l IH]; intros f; [done|].
  rewrite !imap_cons. simpl. unfold id at 1. by rewrite IH.
Qed.

Lemma answered_yes_spec (r : Reply) :
  answered_yes r = true
  ↔ ∃ answer, r = ReplyText (Some answer) ∧ JS.toUpperCase (JS.trim answer) = "YES".
Proof.
  destruct r as [[t|]|]; simpl; [|naive_solver..].
  rewrite String.eqb_eq. naive_solver.
Qed.


Section SearchFacts.
Context (toLowerCase : string → string).
Context (API_KEY : option string).
Context (blobToBase64 : Blob → option string).
Context (generateContent : nat → Request → Reply).






Lemma aiMatch_result query i comic r :
  (aiMatch blobToBase64 generateContent query i comic).2 = Some r
  ↔ r = comic ∧ model_says_yes blobToBase64 generateContent query i comic.
Proof.
  unfold aiMatch, model_says_yes.
  destruct (Comic.coverImageBlob comic) as [blob|]; simpl.
  2:{ split; [done|]. by intros (_ & blob & d & answer & ? & _). }
  destruct (blobToBase64 blob) as [base64Data|] eqn:Henc; simpl.
  2:{ split; [done|]. intros (_ & blob' & d & answer & ? & ? & _). congruence. }
  destruct (answered_yes _) eqn:Hyes.
  - apply answered_yes_spec in Hyes as (answer & Hreply & Hyes).
    split; [|by intros [-> _]]. intros [= <-]. split; [done|].
    by exists blob, base64Data, answer.
  - split; [done|]. intros (_ & blob' & d' & answer & ? & ? & Hreply & Hyes').
    simplify_eq. rewrite Hreply in Hyes. simpl in Hyes.
    apply String.eqb_neq in Hyes. done.
Qed.



End SearchFacts.


(** ** The callbacks under the event loop *)

Section EventLoop.
Context (toLowerCase : string → string).
Context (blobToBase64 : Blob → option string).
Context (generateContent : nat → Request → Reply).
Context (query : string).

Local Abbreviation run' := (run blobToBase64 generateContent query).
Local Abbreviation deliver' := (deliver blobToBase64 generateContent query).
Local Abbreviation encoded := (task_encoded blobToBase64 query).
Local Abbreviation final :=
  (λ i comic, Settled (aiMatch blobToBase64 generateContent query i comic).2).

Lemma run_app schedule1 schedule2 tasks :
  run' (schedule1 ++ schedule2)%list tasks = run' schedule1 tasks ≫= run' schedule2.
Proof.
  revert tasks. induction schedule1 as [|ev schedule1 IH]; intros tasks; [done|].
  simpl. destruct (deliver' ev tasks); [apply IH|done].
Qed.

(** Encoding the covers of [l2], the callbacks of [l1] being past it. *)
Lemma run_encode (l1 l2 : list Comic) :
  run' (omap id (imap (λ i comic, match Comic.coverImageBlob comic with
                                 | Some _ => Some (BlobEncoded (length l1 + i))
                                 | None => None
                                 end) l2))
       ((encoded <$> l1) ++ (task_start <$> l2))%list
  = Some (encoded <$> (l1 ++ l2)%list).
Proof.
  revert l1. induction l2 as [|c l2 IH]; intros l1.
  { simpl. by rewrite !app_nil_r. }
  rewrite imap_cons.
  assert (Hshift :
    imap ((λ i comic, match Comic.coverImageBlob comic with
                      | Some _ => Some (BlobEncoded (length l1 + i))
                      | None => None
                      end) ∘ S) l2
    = imap (λ i comic, match Comic.coverImageBlob comic with
                       | Some _ => Some (BlobEncoded (length (l1 ++ [c])%list + i))
                       | None => None
                       end) l2).
  { apply imap_ext. intros i x _. simpl. rewrite length_app. simpl.
    destruct (Comic.coverImageBlob x); [|done]. do 2 f_equal. lia. }
  rewrite Hshift. clear Hshift.
  assert (Hnext :
    ((encoded <$> l1) ++ encoded c :: (task_start <$> l2))%list
    = ((encoded <$> (l1 ++ [c])%list) ++ (task_start <$> l2))%list).
  { rewrite fmap_app. simpl. by rewrite <-app_assoc. }
  specialize (IH (l1 ++ [c])%list). rewrite <-app_assoc in IH. simpl in IH.
  rewrite fmap_cons. csimpl. unfold id at 1.
  destruct (Comic.coverImageBlob c) as [blob|] eqn:Hcover.
  - assert (Hstep :
      deliver' (BlobEncoded (length l1 + 0))
        ((encoded <$> l1) ++ task_start c :: (task_start <$> l2))%list
      = Some ((encoded <$> l1) ++ encoded c :: (task_start <$> l2))%list).
    { simpl. rewrite Nat.add_0_r.
      rewrite lookup_app_r by by rewrite length_fmap.
      rewrite length_fmap, Nat.sub_diag. simpl.
      unfold task_start. rewrite Hcover.
      rewrite insert_app_r_alt by by rewrite length_fmap.
      rewrite length_fmap, Nat.sub_diag. simpl.
      unfold task_encoded. by rewrite Hcover. }
    change (run' (?ev :: ?rest) ?tasks)
      with (match deliver' ev tasks with
            | Some tasks' => run' rest tasks'
            | None => None
            end).
    by rewrite Hstep, Hnext.
  - assert (task_start c = encoded c) as ->.
    { unfold task_start, task_encoded. by rewrite Hcover. }
    by rewrite Hnext.
Qed.

Lemma run_encode_all comics :
  run' (encode_all toLowerCase comics query) (spawn toLowerCase comics query)
  = Some (encoded <$> comicsToSearchAi toLowerCase comics query).
Proof. apply (run_encode []). Qed.

Lemma awaiting_reply_encoded (comic : Comic) :
  awaiting_reply (encoded comic) = sends_request blobToBase64 comic.
Proof.
  unfold task_encoded, sends_request.
  destruct (Comic.coverImageBlob comic) as [blob|]; [|done].
  by destruct (blobToBase64 blob).
Qed.

Lemma in_flight_encoded (l : list Comic) :
  in_flight (encoded <$> l)
  = length (filter (λ comic, sends_request blobToBase64 comic = true) l).
Proof.
  unfold in_flight. induction l as [|c l IH]; [done|].
  rewrite fmap_cons, !filter_cons, awaiting_reply_encoded.
  destruct (decide (sends_request blobToBase64 c = true)); simpl; by rewrite IH.
Qed.

Lemma encode_all_no_reply comics ev :
  ev ∈ encode_all toLowerCase comics query → ∃ i, ev = BlobEncoded i.
Proof.
  unfold encode_all.
  intros (x & (i & c & -> & _)%elem_of_lookup_imap & Hx)%list_elem_of_omap.
  destruct (Comic.coverImageBlob c); simplify_eq/=. eauto.
Qed.

(** C8, as the code has it: the callbacks do not wait for one another.  For
    every library there is a run, made of cover encodings only, after which
    the requests of all searched comics with an encodable cover are in
    flight together, no reply having arrived yet. *)
Theorem searchComicCovers_requests_overlap (comics : list Comic) :
  ∃ tasks,
    run' (encode_all toLowerCase comics query) (spawn toLowerCase comics query) = Some tasks
    ∧ (∀ ev, ev ∈ encode_all toLowerCase comics query → ∃ i, ev = BlobEncoded i)
    ∧ in_flight tasks
      = length (filter (λ comic, sends_request blobToBase64 comic = true)
                       (comicsToSearchAi toLowerCase comics query)).
Proof.
  exists (encoded <$> comicsToSearchAi toLowerCase comics query).
  split; [apply run_encode_all|]. split; [apply encode_all_no_reply|].
  apply in_flight_encoded.
Qed.

(** *** The result does not depend on the schedule *)

Local Abbreviation on_path' := (on_path blobToBase64 generateContent query).
Local Abbreviation all_on_path' := (all_on_path blobToBase64 generateContent query).

Lemma spawn_on_path (searched : list Comic) :
  all_on_path' searched (task_start <$> searched).
Proof.
  split; [apply length_fmap|].
  intros i c t Hc. rewrite list_lookup_fmap, Hc. intros [= <-].
  unfold task_start, on_path, aiMatch.
  by destruct (Comic.coverImageBlob c).
Qed.

Lemma deliver_on_path searched ev tasks tasks' :
  all_on_path' searched tasks → deliver' ev tasks = Some tasks' →
  all_on_path' searched tasks'.
Proof.
  intros [Hlen Hall] Hdel.
  assert (Hone : ∃ i t t', tasks !! i = Some t ∧ tasks' = <[i:=t']> tasks
                   ∧ ∀ c, on_path' i c t → on_path' i c t').
  { destruct ev as [i|i]; simpl in Hdel;
      destruct (tasks !! i) as [[c blob|c request|r]|] eqn:Hi; simplify_eq.
    - eexists i, _, _. split; [done|]. split; [done|].
      intros c' [-> Hcover]. unfold on_path, aiMatch. rewrite Hcover.
      destruct (blobToBase64 blob) as [d|] eqn:Henc; [|done].
      split; [done|]. by exists blob, d.
    - eexists i, _, _. split; [done|]. split; [done|].
      intros c' (-> & blob & d & Hcover & Henc & ->).
      unfold on_path, aiMatch. by rewrite Hcover, Henc. }
  destruct Hone as (i & t & t' & Hi & -> & Hstep).
  split; [by rewrite length_insert|].
  intros j c u Hc Hu. destruct (decide (i = j)) as [->|Hne].
  - rewrite list_lookup_insert_eq in Hu by by eapply lookup_lt_Some.
    simplify_eq. eauto.
  - rewrite list_lookup_insert_ne in Hu by done. eauto.
Qed.

Lemma run_on_path searched schedule tasks tasks' :
  all_on_path' searched tasks → run' schedule tasks = Some tasks' →
  all_on_path' searched tasks'.
Proof.
  revert tasks. induction schedule as [|ev schedule IH]; intros tasks Hall Hrun.
  { by simplify_eq/=. }
  simpl in Hrun. destruct (deliver' ev tasks) as [tasks1|] eqn:Hdel; [|done].
  eauto using deliver_on_path.
Qed.

Lemma settled_on_path searched tasks results :
  all_on_path' searched tasks → mapM settled_value tasks = Some results →
  results = imap (λ i comic, (aiMatch blobToBase64 generateContent query i comic).2)
                 searched.
Proof.
  intros [Hlen Hall] Hres%mapM_Some.
  apply list_eq. intros i. rewrite list_lookup_imap.
  destruct (searched !! i) as [c|] eqn:Hc; simpl.
  - destruct (lookup_lt_is_Some_2 tasks i) as [t Ht].
    { rewrite Hlen. by eapply lookup_lt_Some. }
    destruct (Forall2_lookup_l _ _ _ _ _ Hres Ht) as (r & Hr & Hsettled).
    rewrite Hr. f_equal. destruct t; simplify_eq/=.
    exact (Hall i c _ Hc Ht).
  - apply lookup_ge_None. rewrite <-(Forall2_length _ _ _ Hres), Hlen.
    by apply lookup_ge_None.
Qed.

(** Whatever the order in which encodings finish and replies arrive, once
    every callback has settled the value is the one [searchComicCovers]
    returns. *)
Lemma collect_any_schedule API_KEY comics schedule tasks result :
  api_key_missing API_KEY = false →
  run' schedule (spawn toLowerCase comics query) = Some tasks →
  collect toLowerCase comics query tasks = Some result →
  (searchComicCovers toLowerCase API_KEY blobToBase64 generateContent comics query).2
  = Returns result.
Proof.
  intros Hkey Hrun Hcollect. unfold searchComicCovers. rewrite Hkey. simpl.
  unfold collect in Hcollect.
  destruct (mapM settled_value tasks) as [results|] eqn:Hres; [|done].
  simplify_eq. do 2 f_equal.
  rewrite omap_snd_imap. f_equal. symmetry.
  eapply settled_on_path; [|done].
  eapply run_on_path; [|done]. apply spawn_on_path.
Qed.

Lemma sends_request_true comic :
  sends_request blobToBase64 comic = true →
  ∃ blob base64Data,
    Comic.coverImageBlob comic = Some blob ∧ blobToBase64 blob = Some base64Data.
Proof.
  unfold sends_request. destruct (Comic.coverImageBlob comic) as [blob|]; [|done].
  intros [d Hd]%bool_decide_eq_true. eauto.
Qed.

Lemma sends_request_false comic :
  sends_request blobToBase64 comic = false →
  encoded comic = Settled None
  ∧ ∀ i, (aiMatch blobToBase64 generateContent query i comic).2 = None.
Proof.
  unfold sends_request, task_encoded, aiMatch.
  destruct (Comic.coverImageBlob comic) as [blob|]; [|done].
  destruct (blobToBase64 blob); [|done].
  intros Hf%bool_decide_eq_false. destruct Hf. eauto.
Qed.

(** Delivering the replies of [l2], the callbacks of [l1] being settled. *)
Lemma run_reply (l1 l2 : list Comic) :
  run' (omap id (imap (λ i comic, if sends_request blobToBase64 comic
                                  then Some (ReplyArrived (length l1 + i))
                                  else None) l2))
       (imap final l1 ++ (encoded <$> l2))%list
  = Some (imap final (l1 ++ l2)%list).
Proof.
  revert l1. induction l2 as [|c l2 IH]; intros l1.
  { simpl. by rewrite !app_nil_r. }
  rewrite imap_cons.
  assert (Hshift :
    imap ((λ i comic, if sends_request blobToBase64 comic
                      then Some (ReplyArrived (length l1 + i)) else None) ∘ S) l2
    = imap (λ i comic, if sends_request blobToBase64 comic
                       then Some (ReplyArrived (length (l1 ++ [c])%list + i))
                       else None) l2).
  { apply imap_ext. intros i x _. simpl. rewrite length_app. simpl.
    destruct (sends_request blobToBase64 x); [|done]. do 2 f_equal. lia. }
  rewrite Hshift. clear Hshift.
  assert (Hnext :
    (imap final l1 ++ final (length l1) c :: (encoded <$> l2))%list
    = (imap final (l1 ++ [c])%list ++ (encoded <$> l2))%list).
  { rewrite imap_app. simpl. rewrite Nat.add_0_r. by rewrite <-app_assoc. }
  specialize (IH (l1 ++ [c])%list). rewrite <-app_assoc in IH. simpl in IH.
  rewrite fmap_cons. csimpl. unfold id at 1.
  destruct (sends_request blobToBase64 c) eqn:Hsend.
  - apply sends_request_true in Hsend as (blob & d & Hcover & Henc).
    assert (Hstep :
      deliver' (ReplyArrived (length l1 + 0))
        (imap final l1 ++ encoded c :: (encoded <$> l2))%list
      = Some (imap final l1 ++ final (length l1) c :: (encoded <$> l2))%list).
    { simpl. rewrite Nat.add_0_r.
      rewrite lookup_app_r by by rewrite length_imap.
      rewrite length_imap, Nat.sub_diag. simpl.
      unfold task_encoded at 1. rewrite Hcover, Henc.
      rewrite insert_app_r_alt by by rewrite length_imap.
      rewrite length_imap, Nat.sub_diag. simpl.
      unfold aiMatch. by rewrite Hcover, Henc. }
    change (run' (?ev :: ?rest) ?tasks)
      with (match deliver' ev tasks with
            | Some tasks' => run' rest tasks'
            | None => None
            end).
    by rewrite Hstep, Hnext.
  - apply sends_request_false in Hsend as [-> Hnone].
    assert (Settled None = final (length l1) c) as -> by by rewrite Hnone.
    by rewrite Hnext.
Qed.

(** And a schedule that settles every callback exists: the search returns. *)
Lemma collect_completes API_KEY comics :
  api_key_missing API_KEY = false →
  ∃ tasks result,
    run' (encode_all toLowerCase comics query ++ reply_all toLowerCase blobToBase64 comics query)%list
         (spawn toLowerCase comics query) = Some tasks
    ∧ collect toLowerCase comics query tasks = Some result
    ∧ (searchComicCovers toLowerCase API_KEY blobToBase64 generateContent comics query).2
      = Returns result.
Proof.
  intros Hkey.
  assert (Hrun :
    run' (encode_all toLowerCase comics query ++ reply_all toLowerCase blobToBase64 comics query)%list
         (spawn toLowerCase comics query)
    = Some (imap final (comicsToSearchAi toLowerCase comics query))).
  { rewrite run_app, run_encode_all. simpl. apply (run_reply []). }
  assert (Hall : mapM settled_value (imap final (comicsToSearchAi toLowerCase comics query))
                 = Some (imap (λ i comic,
                           (aiMatch blobToBase64 generateContent query i comic).2)
                           (comicsToSearchAi toLowerCase comics query))).
  { apply mapM_Some, Forall2_same_length_lookup. split.
    - by rewrite !length_imap.
    - intros i t r. rewrite !list_lookup_imap.
      destruct (comicsToSearchAi toLowerCase comics query !! i); by intros [= <-] [= <-]. }
  eexists _, _. split; [exact Hrun|].
  assert (Hcollect :
    collect toLowerCase comics query (imap final (comicsToSearchAi toLowerCase comics query))
    = Some (titleMatches toLowerCase comics query
            ++ omap id (imap (λ i comic,
                 (aiMatch blobToBase64 generateContent query i comic).2)
                 (comicsToSearchAi toLowerCase comics query)))%list).
  { unfold collect. by rewrite Hall. }
  split; [exact Hcollect|]. by eapply collect_any_schedule.
Qed.

End EventLoop.

(** C8 as stated fails: with two covers to check, both requests are in
    flight after the two encodings. *)
Lemma searchComicCovers_not_sequential :
  ¬ (∀ toLowerCase blobToBase64 generateContent comics query schedule tasks,
       run blobToBase64 generateContent query schedule
           (spawn toLowerCase comics query)
       = Some tasks →
       (in_flight tasks ≤ 1)%nat).
Proof.
  intros Hseq.
  specialize (Hseq sample_toLowerCase sample_encode sample_model sample_library "zorro"
                [BlobEncoded 0; BlobEncoded 1]).
  specialize (Hseq _ eq_refl). vm_compute in Hseq. lia.
Qed.

Example searchComicCovers_sample_title :
  searchComicCovers sample_toLowerCase sample_key sample_encode sample_model sample_library "FLIGHT"
  = ([(sample_beta, request_for "FLIGHT" (Blob.mk "" "AAAA") "AAAA")],
     Returns [sample_alpha; sample_beta]).
Proof. vm_compute. reflexivity. Qed.

Example searchComicCovers_sample_no_key :
  searchComicCovers sample_toLowerCase None sample_encode sample_model sample_library "FLIGHT"
  = ([], Throws "API Key is missing.").
Proof. reflexivity. Qed.

Example run_sample_out_of_order :
  run sample_encode sample_model "zorro"
      [BlobEncoded 1; BlobEncoded 0; ReplyArrived 1; ReplyArrived 0]
      (spawn sample_toLowerCase sample_library "zorro")
  ≫= collect sample_toLowerCase sample_library "zorro"
  = Some [sample_beta].
Proof. vm_compute. reflexivity. Qed.

(** * Further properties of the persistence layer *)

(** ** Index ranges depend on the matching records only *)

Section IndexExt.
Context {A : Type} (field : A → string).
Implicit Types (s : gmap string A).

Lemma index_entries_sorted c s :
  StronglySorted (λ a b, String.leb a.1 b.1 = true) (IDB.index_entries field c s).
Proof. apply StronglySorted_filter, entries_sorted. Qed.

Lemma index_entries_ext c s1 s2 :
  (∀ k r, field r = c → s1 !! k = Some r ↔ s2 !! k = Some r) →
  IDB.index_entries field c s1 = IDB.index_entries field c s2.
Proof.
  intros Hext.
  assert (Hmem : ∀ e, e ∈ IDB.index_entries field c s1
                      ↔ e ∈ IDB.index_entries field c s2).
  { intros [k r]. rewrite !elem_of_index_entries.
    split; intros [Hk Hc]; (split; [by apply (Hext k r Hc)|done]). }
  apply (StronglySorted_unique_strong (λ a b, String.leb a.1 b.1 = true)).
  - intros [k1 r1] [k2 r2] H1%Hmem H2 Hle1 Hle2. simpl in *.
    assert (k1 = k2) as -> by by apply String.leb_antisym.
    apply elem_of_index_entries in H1 as [H1 _].
    apply elem_of_index_entries in H2 as [H2 _]. congruence.
  - apply index_entries_sorted.
  - apply index_entries_sorted.
  - apply NoDup_Permutation; [apply NoDup_filter, NoDup_entries..|done].
Qed.

Lemma index_getAll_ext c s1 s2 :
  (∀ k r, field r = c → s1 !! k = Some r ↔ s2 !! k = Some r) →
  IDB.index_getAll field c s1 = IDB.index_getAll field c s2.
Proof. intros Hext. unfold IDB.index_getAll. by rewrite (index_entries_ext c s1 s2). Qed.

(** The entries of an index range are the given records, in key order of
    the store, as soon as they enumerate the matching part of the store. *)
Lemma index_getAll_Permutation_of c s (l : list (string * A)) :
  NoDup l →
  (∀ k r, (k, r) ∈ l ↔ s !! k = Some r ∧ field r = c) →
  IDB.index_getAll field c s ≡ₚ l.*2.
Proof.
  intros Hnd Hl. unfold IDB.index_getAll. apply fmap_Permutation.
  apply NoDup_Permutation; [apply NoDup_filter, NoDup_entries|done|].
  intros [k r]. by rewrite elem_of_index_entries, Hl.
Qed.

End IndexExt.

Lemma sortedPages_ext comicId (s1 s2 : gmap string PageRecord) :
  (∀ k p, PageRecord.comicId p = comicId → s1 !! k = Some p ↔ s2 !! k = Some p) →
  sortedPages comicId s1 = sortedPages comicId s2.
Proof.
  intros Hext. unfold sortedPages.
  by rewrite (index_getAll_ext PageRecord.comicId comicId s1 s2).
Qed.

Lemma elem_of_sortedPages comicId (s : gmap string PageRecord) p :
  p ∈ sortedPages comicId s
  ↔ PageRecord.comicId p = comicId ∧ ∃ k, s !! k = Some p.
Proof. by rewrite sortedPages_Permutation, elem_of_index_getAll. Qed.

(** ** Storing a list of pages *)

Lemma foldl_put_lookup (pgs : list PageRecord) (s : gmap string PageRecord) k :
  ((k ∉ (PageRecord.id <$> pgs)) ∧
   (foldl (λ pageStore page, IDB.put PageRecord.id page pageStore) s pgs !! k = s !! k))
  ∨ (∃ p, p ∈ pgs ∧ PageRecord.id p = k ∧
          foldl (λ pageStore page, IDB.put PageRecord.id page pageStore) s pgs !! k
          = Some p).
Proof.
  revert s. induction pgs as [|q pgs IH]; intros s; simpl.
  { left. split; [apply not_elem_of_nil|done]. }
  destruct (IH (IDB.put PageRecord.id q s)) as [[Hout Hk]|(p & Hp & Hid & Hk)].
  - destruct (decide (PageRecord.id q = k)) as [Heq|Hne].
    + right. exists q. split; [by left|]. split; [done|].
      rewrite Hk. unfold IDB.put. by rewrite Heq, lookup_insert_eq.
    + left. split.
      * intros [?|?]%elem_of_cons; [congruence|done].
      * rewrite Hk. unfold IDB.put. by rewrite lookup_insert_ne.
  - right. exists p. split; [by right|done].
Qed.

(** With pairwise distinct ids, each page is found under its id. *)
Lemma foldl_put_lookup_elem (pgs : list PageRecord) (s : gmap string PageRecord) p :
  NoDup (PageRecord.id <$> pgs) → p ∈ pgs →
  foldl (λ pageStore page, IDB.put PageRecord.id page pageStore) s pgs
    !! PageRecord.id p = Some p.
Proof.
  intros Hnd Hp.
  destruct (foldl_put_lookup pgs s (PageRecord.id p)) as [[Hout _]|(q & Hq & Hid & Hk)].
  - exfalso. apply Hout. by apply list_elem_of_fmap_2.
  - rewrite Hk. f_equal.
    apply list_elem_of_lookup_1 in Hp as [i Hi].
    apply list_elem_of_lookup_1 in Hq as [j Hj].
    assert (i = j) as ->; [|congruence].
    eapply NoDup_lookup; [exact Hnd|..]; rewrite list_lookup_fmap.
    + by rewrite Hi.
    + rewrite Hj. simpl. by rewrite Hid.
Qed.

(** ** Saving and deleting a comic *)

(** X1: deleting a comic that was just saved under new identifiers gives
    back the database as it was. *)
Theorem deleteComic_saveComic (comic : Comic) (pgs : list PageRecord) (db : DB) :
  comics db !! Comic.id comic = None →
  (∀ k page, pages db !! k = Some page → PageRecord.comicId page ≠ Comic.id comic) →
  (∀ page, page ∈ pgs →
           PageRecord.comicId page = Comic.id comic
           ∧ pages db !! PageRecord.id page = None) →
  deleteComic (Comic.id comic) (saveComic comic pgs db) = db.
Proof.
  intros Hnew Hothers Hpgs. destruct db as [cs ps]. simpl in *.
  unfold deleteComic, saveComic. simpl. f_equal.
  - unfold IDB.delete, IDB.put. rewrite delete_insert_eq. by apply delete_id.
  - apply map_eq. intros k. rewrite cursor_delete_all_lookup.
    destruct (foldl_put_lookup pgs ps k) as [[Hout ->]|(p & Hp & Hid & ->)].
    + destruct (ps !! k) as [r|] eqn:Hk; [|done].
      rewrite decide_False; [done|]. by eapply Hothers.
    + destruct (Hpgs p Hp) as [Hc Hfresh]. rewrite decide_True by done.
      by rewrite <-Hid.
Qed.

Lemma deleteComic_saveComic_witness :
  deleteComic "c4"
    (saveComic (Comic.mk "c4" "Delta" None 4000 1 (Some 0))
               [sample_page "s0" "c4" 0] sample_db)
  = sample_db.
Proof.
  apply (deleteComic_saveComic (Comic.mk "c4" "Delta" None 4000 1 (Some 0))
           [sample_page "s0" "c4" 0] sample_db).
  - vm_compute. reflexivity.
  - apply (bool_decide_eq_true_1 (map_Forall _ _)). vm_compute. reflexivity.
  - intros page ->%list_elem_of_singleton. split; vm_compute; reflexivity.
Defined.

(** ** Uploading a comic *)

Section Upload.
Context (uuid : nat → string) (files : list Blob) (db : DB).
Hypothesis Hfresh : fresh_ids uuid (length files) db.

Local Abbreviation pgs := (uploadedPages uuid files).
Local Abbreviation stored :=
  (foldl (λ pageStore page, IDB.put PageRecord.id page pageStore) (pages db) pgs).

Lemma uploadedPages_lookup i :
  pgs !! i
  = (λ file, PageRecord.mk (uuid (S i)) (uuid 0%nat) file (Z.of_nat i)) <$> files !! i.
Proof. apply list_lookup_imap. Qed.

Lemma elem_of_uploadedPages p :
  p ∈ pgs ↔ ∃ i file, files !! i = Some file
                       ∧ p = PageRecord.mk (uuid (S i)) (uuid 0%nat) file (Z.of_nat i).
Proof.
  rewrite list_elem_of_lookup. setoid_rewrite uploadedPages_lookup.
  setoid_rewrite fmap_Some. naive_solver.
Qed.

Lemma uploadedPages_NoDup : NoDup (PageRecord.id <$> pgs).
Proof.
  destruct Hfresh as (_ & _ & _ & Hinj).
  apply NoDup_alt. intros i j k. rewrite !list_lookup_fmap, !uploadedPages_lookup.
  destruct (files !! i) as [fi|] eqn:Hi; [|done].
  destruct (files !! j) as [fj|] eqn:Hj; [|done]. simpl.
  intros [= <-] [= Heq]. apply Hinj; [by eapply lookup_lt_Some..|done].
Qed.

Lemma uploadedPages_ascending :
  StronglySorted (λ a b, PageRecord.order a ≤ PageRecord.order b) pgs.
Proof.
  apply StronglySorted_lookup. intros i j x y Hij.
  rewrite !uploadedPages_lookup.
  intros (fi & _ & ->)%fmap_Some (fj & _ & ->)%fmap_Some. simpl. lia.
Qed.

Lemma uploadedPages_order :
  PageRecord.order <$> pgs = Z.of_nat <$> seq 0 (length files).
Proof.
  apply list_eq. intros i.
  rewrite !list_lookup_fmap, uploadedPages_lookup.
  destruct (files !! i) as [f|] eqn:Hi; simpl.
  - apply lookup_lt_Some in Hi. by rewrite lookup_seq_lt.
  - apply lookup_ge_None in Hi. by rewrite lookup_seq_ge.
Qed.

(** A stored page of the new comic is an uploaded one; the others were
    there before. *)
Lemma stored_lookup k r :
  stored !! k = Some r ↔
  (r ∈ pgs ∧ PageRecord.id r = k)
  ∨ (PageRecord.comicId r ≠ uuid 0%nat ∧ pages db !! k = Some r).
Proof.
  destruct Hfresh as (_ & Hothers & Hnew & _). split.
  - intros Hk.
    destruct (foldl_put_lookup pgs (pages db) k) as [[Hout Heq]|(p & Hp & Hid & Heq)].
    + right. rewrite Heq in Hk. split; [by eapply Hothers|done].
    + left. rewrite Heq in Hk. by simplify_eq.
  - intros [[Hr <-]|[Hc Hk]].
    + apply foldl_put_lookup_elem; [apply uploadedPages_NoDup|done].
    + destruct (foldl_put_lookup pgs (pages db) k) as [[Hout Heq]|(p & Hp & Hid & Heq)].
      * by rewrite Heq.
      * exfalso. apply elem_of_uploadedPages in Hp as (i & file & Hi & ->).
        simpl in Hid. subst k. rewrite Hnew in Hk; [done|].
        by eapply lookup_lt_Some.
Qed.

Lemma sortedPages_stored : sortedPages (uuid 0%nat) stored = pgs.
Proof.
  unfold sortedPages. apply sort_unique.
  - rewrite (index_getAll_Permutation_of PageRecord.comicId (uuid 0%nat) stored
               ((λ p, (PageRecord.id p, p)) <$> pgs)).
    + rewrite <-list_fmap_compose. by rewrite list_fmap_id.
    + apply (NoDup_fmap_1 fst). rewrite <-list_fmap_compose.
      exact uploadedPages_NoDup.
    + intros k r. rewrite list_elem_of_fmap, stored_lookup. split.
      * intros (p & [= -> ->] & Hp). split; [by left|].
        by apply elem_of_uploadedPages in Hp as (i & file & _ & ->).
      * intros [[[Hr <-]|[Hc _]] Hcid]; [|done]. by exists r.
  - apply uploadedPages_ascending.
  - intros x y (i & fi & Hi & ->)%elem_of_uploadedPages
                 (j & fj & Hj & ->)%elem_of_uploadedPages. simpl.
    intros Hij%Nat2Z.inj. subst j. congruence.
Qed.

Lemma sortedPages_stored_other comicId :
  comicId ≠ uuid 0%nat →
  sortedPages comicId stored = sortedPages comicId (pages db).
Proof.
  intros Hne. apply sortedPages_ext. intros k p Hc. rewrite stored_lookup.
  split; [|intros; right; split; [congruence|done]].
  intros [[Hp _]|[_ Hk]]; [|done].
  apply elem_of_uploadedPages in Hp as (i & file & _ & ->). simpl in Hc. congruence.
Qed.

End Upload.

(** X2: what is uploaded is what is read back.  With a title that is not
    blank, at least one file and new identifiers, [getComicPages] returns the
    files in the order they were listed, numbered from 0, and the comic is
    stored with [totalPages] equal to their number, reading position 0 and
    the chosen cover, or the first file when none was chosen; the other
    comics are not touched. *)
Theorem handleSubmit_roundtrip
    (uuid : nat → string) (now : Z) (title : string) (coverFile : option Blob)
    (firstFile : Blob) (moreFiles : list Blob) (db : DB) :
  JS.trim title ≠ "" →
  fresh_ids uuid (length (firstFile :: moreFiles)) db →
  let files := firstFile :: moreFiles in
  let db' := handleSubmit uuid now title coverFile files db in
  getComicPages (uuid 0%nat) db'
  = imap (λ i file, ComicPage.mk (uuid (S i)) file (Z.of_nat i)) files
  ∧ comics db' !! uuid 0%nat
    = Some (Comic.mk (uuid 0%nat) title (Some (default firstFile coverFile)) now
                     (Z.of_nat (length files)) (Some 0))
  ∧ (∀ k, k ≠ uuid 0%nat → comics db' !! k = comics db !! k)
  ∧ (∀ comicId, comicId ≠ uuid 0%nat →
                getComicPages comicId db' = getComicPages comicId db).
Proof.
  intros Htitle Hfresh files db'. subst db'. unfold handleSubmit.
  apply String.eqb_neq in Htitle. rewrite Htitle. subst files.
  unfold getComicPages.
  change (pages (saveComic ?c ?p ?d))
    with (foldl (λ pageStore page, IDB.put PageRecord.id page pageStore) (pages d) p).
  change (comics (saveComic ?c ?p ?d)) with (IDB.put Comic.id c (comics d)).
  split; [|split; [|split]].
  - rewrite (sortedPages_stored uuid (firstFile :: moreFiles) db Hfresh).
    unfold uploadedPages. by rewrite fmap_imap.
  - unfold IDB.put, uploadedComic. simpl. rewrite lookup_insert_eq.
    by destruct coverFile.
  - intros k Hne. unfold IDB.put, uploadedComic. simpl. by rewrite lookup_insert_ne.
  - intros comicId Hne.
    by rewrite (sortedPages_stored_other uuid (firstFile :: moreFiles) db Hfresh).
Qed.

Lemma sample_fresh_ids : fresh_ids sample_uuid (length sample_files) sample_db.
Proof.
  split; [vm_compute; reflexivity|]. split; [|split].
  - apply (bool_decide_eq_true_1 (map_Forall _ _)). vm_compute. reflexivity.
  - intros [|[|i]] Hi; [vm_compute; reflexivity..|simpl in Hi; lia].
  - intros [|[|i]] [|[|j]] Hi Hj; simpl in Hi, Hj; try lia; try done.
Qed.

Lemma handleSubmit_roundtrip_witness :
  JS.trim "Omega" ≠ ""
  ∧ fresh_ids sample_uuid (length sample_files) sample_db
  ∧ (λ q, (ComicPage.id q, ComicPage.order q))
      <$> getComicPages "a-7f3" (handleSubmit sample_uuid 5000 "Omega" None sample_files sample_db)
    = [("b-7f3", 0); ("c-7f3", 1)].
Proof.
  assert (Htitle : JS.trim "Omega" ≠ "") by (vm_compute; discriminate).
  pose proof sample_fresh_ids as Hfresh.
  split; [exact Htitle|]. split; [exact Hfresh|].
  destruct (handleSubmit_roundtrip sample_uuid 5000 "Omega" None
              (Blob.mk "image/png" "cGFnZTE=") [Blob.mk "image/jpeg" "cGFnZTI="]
              sample_db Htitle Hfresh) as [Hpages _].
  change (sample_uuid 0) with "a-7f3" in Hpages.
  change (Blob.mk "image/png" "cGFnZTE=" :: [Blob.mk "image/jpeg" "cGFnZTI="])
    with sample_files in Hpages.
  rewrite Hpages. reflexivity.
Defined.

(** ** What a page deletion does to the other comics *)

Lemma renumberPages_other_comic comicId (s : gmap string PageRecord) k r :
  keyed_by_id PageRecord.id s →
  PageRecord.comicId r ≠ comicId →
  renumberPages (sortedPages comicId s) 0 s !! k = Some r ↔ s !! k = Some r.
Proof.
  intros Hs Hr.
  assert (Hnd : NoDup (PageRecord.id <$> sortedPages comicId s)).
  { rewrite sortedPages_Permutation. by apply (NoDup_key_index_getAll PageRecord.id). }
  destruct (decide (k ∈ PageRecord.id <$> sortedPages comicId s)) as [Hin|Hout].
  - apply list_elem_of_fmap in Hin as (p & -> & Hp).
    pose proof Hp as [j Hj]%list_elem_of_lookup_1.
    pose proof Hp as [Hc [k Hk]]%elem_of_sortedPages.
    pose proof (Hs k p Hk) as Hid. simpl in Hid. subst k.
    rewrite (renumberPages_lookup _ 0 s j p) by done. rewrite Hk.
    split; intros [= <-]; simpl in *; congruence.
  - by rewrite renumberPages_lookup_other.
Qed.

Section DeletePageOthers.
Context (pageId comicId : string) (db : DB).
Hypothesis Hwk : well_keyed db.

(** The pages of another comic: only the deleted page can go. *)
Lemma deleteComicPage_pages_other k r :
  PageRecord.comicId r ≠ comicId →
  pages (deleteComicPage pageId comicId db) !! k = Some r
  ↔ k ≠ pageId ∧ pages db !! k = Some r.
Proof.
  intros Hr.
  destruct (IDB.index_getAll PageRecord.comicId comicId
              (IDB.delete pageId (pages db))) as [|p0 rest] eqn:Hrem.
  - rewrite deleteComicPage_last by done. simpl. unfold IDB.delete.
    rewrite lookup_delete_Some. naive_solver.
  - rewrite deleteComicPage_some_left by by rewrite Hrem. simpl.
    rewrite renumberPages_other_comic; [|by apply pageStore_keyed|done].
    unfold IDB.delete. rewrite lookup_delete_Some. naive_solver.
Qed.

Lemma deleteComicPage_sortedPages_other other :
  other ≠ comicId →
  sortedPages other (pages (deleteComicPage pageId comicId db))
  = filter (λ p, PageRecord.id p ≠ pageId) (sortedPages other (pages db)).
Proof.
  intros Hne. rewrite <-sortedPages_delete by apply Hwk.
  apply sortedPages_ext. intros k p Hc.
  rewrite deleteComicPage_pages_other by congruence.
  unfold IDB.delete. rewrite lookup_delete_Some. naive_solver.
Qed.

Lemma deleteComicPage_comics_other k :
  k ≠ comicId →
  comics (deleteComicPage pageId comicId db) !! k = comics db !! k.
Proof. intros Hne. by apply (deleteComicPage_frame pageId comicId db Hwk). Qed.

End DeletePageOthers.

(** X3: [deleteComicPage] acts on the comic it is given.  Any other comic
    keeps its record as it is, and its pages keep their [order]: if the
    deleted page was one of its pages, the page is gone, the others are not
    renumbered and [totalPages] is not recounted. *)
Theorem deleteComicPage_other_comic (pageId comicId other : string) (db : DB) :
  well_keyed db → other ≠ comicId →
  let db' := deleteComicPage pageId comicId db in
  comics db' !! other = comics db !! other
  ∧ sortedPages other (pages db')
    = filter (λ p, PageRecord.id p ≠ pageId) (sortedPages other (pages db))
  ∧ getComicPages other db'
    = filter (λ q, ComicPage.id q ≠ pageId) (getComicPages other db).
Proof.
  intros Hwk Hne db'. subst db'. split; [|split].
  - by apply deleteComicPage_comics_other.
  - by apply deleteComicPage_sortedPages_other.
  - unfold getComicPages. rewrite deleteComicPage_sortedPages_other by done.
    by rewrite filter_fmap_list.
Qed.

Lemma deleteComicPage_other_comic_witness :
  well_keyed sample_db ∧ "c2" ≠ "c1"
  ∧ (λ q, (ComicPage.id q, ComicPage.order q))
      <$> getComicPages "c2" (deleteComicPage "q1" "c1" sample_db)
    = [("q0", 1)]
  ∧ comics (deleteComicPage "q1" "c1" sample_db) !! "c2" = Some sample_beta.
Proof.
  assert (Hwk : well_keyed sample_db).
  { apply (bool_decide_eq_true_1 _). vm_compute. reflexivity. }
  assert (Hne : "c2" ≠ "c1") by discriminate.
  destruct (deleteComicPage_other_comic "q1" "c1" "c2" sample_db Hwk Hne)
    as (Hcomic & _ & Hpages).
  split; [exact Hwk|]. split; [exact Hne|]. split.
  - rewrite Hpages. vm_compute. reflexivity.
  - rewrite Hcomic. vm_compute. reflexivity.
Defined.

(** ** Deleting a page twice *)

(** Pages that already carry their positions are not written. *)
Lemma renumberPages_dense (l : list PageRecord) index (s : gmap string PageRecord) :
  (∀ j p, l !! j = Some p → PageRecord.order p = index + Z.of_nat j) →
  renumberPages l index s = s.
Proof.
  revert index. induction l as [|p l IH]; intros index Hl; [done|]. simpl.
  rewrite decide_False.
  - apply IH. intros j q Hj. rewrite (Hl (S j) q Hj). lia.
  - intros Hne. apply Hne. rewrite (Hl 0%nat p eq_refl). lia.
Qed.

Lemma renumberPages_resequenced (l : list PageRecord) (s : gmap string PageRecord) :
  renumberPages (resequenced l) 0 s = s.
Proof.
  apply renumberPages_dense. intros j p. rewrite resequenced_lookup.
  intros (q & _ & ->)%fmap_Some. simpl. lia.
Qed.

Lemma recountComic_idemp comic count :
  recountComic (recountComic comic count) count = recountComic comic count.
Proof.
  destruct comic as [i t c a n [l|]]; unfold recountComic; simpl; [|done].
  destruct (decide (l >= count)) as [Hl|Hl]; simpl.
  - destruct (decide (Z.max 0 (count - 1) >= count)); simpl; [|done].
    do 2 f_equal.
  - by rewrite decide_False.
Qed.

(** X4: [deleteComicPage] is idempotent: a second call with the same
    arguments finds nothing to delete, nothing to renumber and nothing to
    recount. *)
Theorem deleteComicPage_idempotent (pageId comicId : string) (db : DB) :
  well_keyed db →
  deleteComicPage pageId comicId (deleteComicPage pageId comicId db)
  = deleteComicPage pageId comicId db.
Proof.
  intros Hwk.
  pose proof (deleteComicPage_sortedPages pageId comicId db Hwk) as Hsorted.
  pose proof (deleteComicPage_count pageId comicId db Hwk) as Hcount.
  pose proof (proj1 (proj2 (deleteComicPage_frame pageId comicId db Hwk))) as Hgone.
  simpl in Hgone.
  destruct (decide (IDB.index_getAll PageRecord.comicId comicId
                      (IDB.delete pageId (pages db)) = [])) as [Hrem|Hne].
  - rewrite (deleteComicPage_last pageId comicId db Hrem).
    rewrite deleteComicPage_last.
    + simpl. unfold IDB.delete. by rewrite !delete_delete_eq.
    + simpl. unfold IDB.delete. by rewrite delete_delete_eq.
  - set (db' := deleteComicPage pageId comicId db) in *.
    assert (Hpages : IDB.delete pageId (pages db') = pages db').
    { unfold IDB.delete. by apply delete_id. }
    assert (Hsame : sortedPages comicId (IDB.delete pageId (pages db'))
                    = resequenced (sortedPages comicId (IDB.delete pageId (pages db)))).
    { rewrite Hpages, Hsorted. by rewrite sortedPages_delete by apply Hwk. }
    rewrite (deleteComicPage_some_left pageId comicId db').
    2:{ rewrite Hpages. intros Hnil. apply Hne.
        apply nil_length_inv. rewrite <-sortedPages_Permutation, <-Hcount.
        by rewrite Hnil. }
    rewrite Hsame, renumberPages_resequenced, resequenced_length, Hpages.
    unfold db'. rewrite (deleteComicPage_some_left pageId comicId db Hne).
    simpl. f_equal. unfold IDB.get.
    destruct (comics db !! comicId) as [comic|] eqn:Hc; [|by rewrite Hc].
    unfold IDB.put.
    rewrite !(proj1 (recountComic_rest _ _)).
    rewrite (proj1 Hwk _ _ Hc), lookup_insert_eq.
    rewrite !(proj1 (recountComic_rest _ _)), (proj1 Hwk _ _ Hc).
    by rewrite recountComic_idemp, insert_insert_eq.
Qed.

Lemma deleteComicPage_idempotent_witness :
  well_keyed sample_db
  ∧ deleteComicPage "p1" "c1" (deleteComicPage "p1" "c1" sample_db)
    = deleteComicPage "p1" "c1" sample_db.
Proof.
  assert (Hwk : well_keyed sample_db).
  { apply (bool_decide_eq_true_1 _). vm_compute. reflexivity. }
  split; [exact Hwk|]. exact (deleteComicPage_idempotent "p1" "c1" sample_db Hwk).
Defined.

(** ** The consistency of the library is kept *)

Lemma comic_consistent_transfer (db db' : DB) (comic comic' : Comic) :
  Comic.id comic' = Comic.id comic →
  Comic.totalPages comic' = Comic.totalPages comic →
  (∀ l, Comic.lastReadPage comic' = Some l → 0 ≤ l < Comic.totalPages comic) →
  sortedPages (Comic.id comic) (pages db') = sortedPages (Comic.id comic) (pages db) →
  comic_consistent db comic → comic_consistent db' comic'.
Proof.
  unfold comic_consistent. intros -> -> Hl -> (? & ? & ? & _). done.
Qed.

Lemma library_consistent_empty : library_consistent (mkDB ∅ ∅).
Proof.
  split; [apply well_keyed_empty|]. split; intros k x; simpl; by rewrite lookup_empty.
Qed.

(** X5: an upload keeps the library consistent.  Whatever the form holds
    (a blank title and an empty file list store nothing), with identifiers
    that are new the new comic has as many pages as [totalPages] says,
    numbered 0..n-1, and a valid reading position, and nothing changes for
    the comics that were there. *)
Theorem handleSubmit_consistent
    (uuid : nat → string) (now : Z) (title : string) (coverFile : option Blob)
    (files : list Blob) (db : DB) :
  library_consistent db →
  fresh_ids uuid (length files) db →
  library_consistent (handleSubmit uuid now title coverFile files db).
Proof.
  intros (Hwk & Hcomics & Horphans) Hfresh. unfold handleSubmit.
  destruct (String.eqb (JS.trim title) ""); [done|].
  destruct files as [|firstFile moreFiles] eqn:Hfiles; [done|]. rewrite <-Hfiles in *.
  assert (Hlen : (0 < length files)%nat) by (rewrite Hfiles; simpl; lia).
  set (comic := uploadedComic uuid now title coverFile firstFile (length files)).
  split; [by apply saveComic_well_keyed|].
  change (pages (saveComic comic (uploadedPages uuid files) db))
    with (foldl (λ pageStore page, IDB.put PageRecord.id page pageStore)
                (pages db) (uploadedPages uuid files)).
  change (comics (saveComic comic (uploadedPages uuid files) db))
    with (<[uuid 0%nat := comic]> (comics db)).
  split.
  - intros k c. rewrite lookup_insert_Some. intros [[<- <-]|[Hne Hk]].
    + unfold comic_consistent. simpl.
      rewrite (sortedPages_stored uuid files db Hfresh).
      assert (Hpl : length (uploadedPages uuid files) = length files)
        by apply length_imap.
      rewrite Hpl. split; [|split; [done|split]].
      * intros Hnil%(f_equal length). rewrite Hpl in Hnil. simpl in Hnil. lia.
      * by apply uploadedPages_order.
      * intros l [= <-]. lia.
    + pose proof (proj1 Hwk k c Hk) as Hid. simpl in Hid.
      apply (comic_consistent_transfer db _ c c); try done.
      * intros l Hl. by apply (Hcomics k c Hk).
      * simpl. apply (sortedPages_stored_other uuid files db Hfresh). congruence.
      * by apply (Hcomics k).
  - intros k p [[Hp _]|[_ Hk]]%(stored_lookup uuid files db Hfresh).
    + apply (elem_of_uploadedPages uuid files) in Hp as (i & file & _ & ->). simpl.
      rewrite lookup_insert_eq. eauto.
    + apply lookup_insert_is_Some'. right. by eapply Horphans.
Qed.

Lemma sample_db_consistent : library_consistent sample_db.
Proof.
  split; [apply sample_db_well_keyed|]. split.
  - intros k comic Hk%elem_of_entries.
    assert (Hl : IDB.entries (comics sample_db)
                 = [("c1", sample_alpha); ("c2", sample_beta); ("c3", sample_gamma)])
      by (vm_compute; reflexivity).
    rewrite Hl in Hk.
    repeat (apply elem_of_cons in Hk as [[= -> ->]|Hk]);
      [..|by apply elem_of_nil in Hk];
      (split; [vm_compute; discriminate|];
       split; [vm_compute; reflexivity|];
       split; [vm_compute; reflexivity|];
       simpl; intros l [= <-]; lia).
  - apply (bool_decide_eq_true_1 (map_Forall _ _)). vm_compute. reflexivity.
Qed.

Lemma handleSubmit_consistent_witness :
  library_consistent sample_db
  ∧ fresh_ids sample_uuid (length sample_files) sample_db
  ∧ library_consistent (handleSubmit sample_uuid 5000 "Omega" None sample_files sample_db).
Proof.
  pose proof sample_db_consistent as Hdb.
  pose proof sample_fresh_ids as Hfresh.
  split; [exact Hdb|]. split; [exact Hfresh|].
  exact (handleSubmit_consistent sample_uuid 5000 "Omega" None sample_files
           sample_db Hdb Hfresh).
Defined.

Lemma filter_all {A} (P : A → Prop) `{!∀ x, Decision (P x)} (l : list A) :
  Forall P l → filter P l = l.
Proof.
  induction 1 as [|x l Hx Hl IH]; [done|].
  by rewrite filter_cons_True, IH.
Qed.

(** X6: deleting a page of a comic, as the editor does, keeps the library
    consistent: the comic is removed with its last page, and otherwise its
    pages are renumbered 0..n-1, [totalPages] is their number and the
    reading position is a valid index again. *)
Theorem deleteComicPage_consistent (pageId comicId : string) (db : DB) :
  library_consistent db →
  (∀ page, pages db !! pageId = Some page → PageRecord.comicId page = comicId) →
  library_consistent (deleteComicPage pageId comicId db).
Proof.
  intros (Hwk & Hcomics & Horphans) Hbelongs.
  set (db' := deleteComicPage pageId comicId db).
  assert (Hwk' : well_keyed db') by by apply deleteComicPage_well_keyed.
  assert (Hsorted := deleteComicPage_sortedPages pageId comicId db Hwk).
  fold db' in Hsorted.
  set (R := filter (λ p, PageRecord.id p ≠ pageId) (sortedPages comicId (pages db)))
    in Hsorted.
  assert (HR : sortedPages comicId (IDB.delete pageId (pages db)) = R)
    by by apply sortedPages_delete, Hwk.
  (* the comic named by [comicId], when pages are left *)
  assert (Hleft :
    IDB.index_getAll PageRecord.comicId comicId (IDB.delete pageId (pages db)) ≠ [] →
    R ≠ []
    ∧ ∃ comic, comics db !! comicId = Some comic
               ∧ comics db' !! comicId
                 = Some (recountComic comic (Z.of_nat (length R)))).
  { intros Hne.
    assert (HRne : R ≠ []).
    { intros HRnil. apply Hne, nil_length_inv.
      by rewrite <-sortedPages_Permutation, HR, HRnil. }
    split; [done|].
    destruct R as [|p0 R'] eqn:HReq; [done|].
    assert (Hp0 : p0 ∈ sortedPages comicId (IDB.delete pageId (pages db)))
      by (rewrite HR; left).
    apply elem_of_sortedPages in Hp0 as [Hc0 (k0 & Hk0)].
    unfold IDB.delete in Hk0. apply lookup_delete_Some in Hk0 as [_ Hk0].
    destruct (Horphans k0 p0 Hk0) as [comic Hcomic]. rewrite Hc0 in Hcomic.
    exists comic. split; [done|].
    unfold db'. rewrite (deleteComicPage_some_left pageId comicId db Hne). simpl.
    unfold IDB.get, IDB.put. rewrite Hcomic, HR.
    rewrite (proj1 (recountComic_rest _ _)), (proj1 Hwk _ _ Hcomic).
    by rewrite lookup_insert_eq. }
  split; [done|]. split.
  - intros k c Hk. pose proof (proj1 Hwk' k c Hk) as Hid. simpl in Hid.
    destruct (decide (k = comicId)) as [->|Hne].
    + destruct (decide (IDB.index_getAll PageRecord.comicId comicId
                          (IDB.delete pageId (pages db)) = [])) as [Hnil|Hsome].
      { unfold db' in Hk. rewrite (deleteComicPage_last _ _ _ Hnil) in Hk.
        simpl in Hk. unfold IDB.delete in Hk. by rewrite lookup_delete_eq in Hk. }
      destruct (Hleft Hsome) as (HRne & comic & Hcomic & Hcomic').
      rewrite Hcomic' in Hk. injection Hk as <-.
      unfold comic_consistent. rewrite Hid, Hsorted.
      rewrite resequenced_length, recountComic_totalPages.
      split; [|split; [done|split; [apply resequenced_order|]]].
      * intros Hnil%(f_equal length). rewrite resequenced_length in Hnil.
        by apply nil_length_inv in Hnil.
      * assert (0 < Z.of_nat (length R)).
        { destruct R; [done|simpl; lia]. }
        intros l. rewrite recountComic_lastReadPage.
        destruct (Comic.lastReadPage comic) as [l0|] eqn:Hl0; [|done].
        destruct (decide (Z.of_nat (length R) ≤ l0)); intros [= <-]; [lia|].
        destruct (Hcomics comicId comic Hcomic) as (_ & _ & _ & Hrange).
        specialize (Hrange l0 Hl0). lia.
    + assert (Hk0 : comics db !! k = Some c).
      { unfold db' in Hk. by rewrite deleteComicPage_comics_other in Hk. }
      apply (comic_consistent_transfer db _ c c); try done.
      * intros l Hl. by apply (Hcomics k c Hk0).
      * rewrite Hid. unfold db'.
        rewrite deleteComicPage_sortedPages_other by done.
        apply filter_all, Forall_forall.
        intros p [Hc (kp & Hkp)]%elem_of_sortedPages Heq.
        pose proof (proj2 Hwk kp p Hkp) as Hidp. simpl in Hidp.
        rewrite Hidp in Heq. subst kp. apply Hbelongs in Hkp. congruence.
      * by apply (Hcomics k).
  - intros k r Hk.
    destruct (decide (PageRecord.comicId r = comicId)) as [Hc|Hc].
    + rewrite Hc.
      destruct (decide (IDB.index_getAll PageRecord.comicId comicId
                          (IDB.delete pageId (pages db)) = [])) as [Hnil|Hsome].
      { exfalso. unfold db' in Hk. rewrite (deleteComicPage_last _ _ _ Hnil) in Hk.
        simpl in Hk.
        assert (Hin : r ∈ IDB.index_getAll PageRecord.comicId comicId
                            (IDB.delete pageId (pages db)))
          by (apply elem_of_index_getAll; eauto).
        rewrite Hnil in Hin. by apply elem_of_nil in Hin. }
      destruct (Hleft Hsome) as (_ & comic & _ & ->). eauto.
    + unfold db' in *. rewrite deleteComicPage_comics_other by done.
      apply deleteComicPage_pages_other in Hk as [_ Hk]; [|done..].
      by eapply Horphans.
Qed.

Lemma deleteComicPage_consistent_witness :
  library_consistent sample_db
  ∧ (∀ page, pages sample_db !! "p1" = Some page → PageRecord.comicId page = "c1")
  ∧ library_consistent (deleteComicPage "p1" "c1" sample_db).
Proof.
  pose proof sample_db_consistent as Hdb.
  assert (Hbelongs : ∀ page, pages sample_db !! "p1" = Some page
                              → PageRecord.comicId page = "c1").
  { intros page. vm_compute. by intros [= <-]. }
  split; [exact Hdb|]. split; [exact Hbelongs|].
  exact (deleteComicPage_consistent "p1" "c1" sample_db Hdb Hbelongs).
Defined.



(** Replacing a comic record by one with the same [id] and [totalPages]
    and a valid reading position. *)
Lemma put_comic_consistent (db : DB) (comicId : string) (comic comic' : Comic) :
  library_consistent db →
  comics db !! comicId = Some comic →
  Comic.id comic' = Comic.id comic →
  Comic.totalPages comic' = Comic.totalPages comic →
  (∀ l, Comic.lastReadPage comic' = Some l → 0 ≤ l < Comic.totalPages comic) →
  library_consistent (mkDB (IDB.put Comic.id comic' (comics db)) (pages db)).
Proof.
  intros (Hwk & Hcomics & Horphans) Hc Hid Htotal Hlast.
  split; [|split]; simpl.
  - split; [|apply Hwk]. simpl. apply (keyed_by_id_put Comic.id), Hwk.
  - intros k c. unfold IDB.put. rewrite lookup_insert_Some.
    intros [[<- <-]|[Hne Hk]].
    + apply (comic_consistent_transfer db _ comic comic'); try done.
      by apply (Hcomics comicId).
    + apply (comic_consistent_transfer db _ c c); try done.
      * intros l Hl. by apply (Hcomics k c Hk).
      * by apply (Hcomics k).
  - intros k p Hk. unfold IDB.put. apply lookup_insert_is_Some'. right.
    by eapply Horphans.
Qed.

(** X8: renaming a comic, changing its cover, and saving a reading
    position that is the index of one of its pages keep the library
    consistent, whether the requests succeed or fail. *)
Theorem update_consistent (f : Faults) (comicId : string) (db : DB) :
  library_consistent db →
  (∀ newTitle, library_consistent (updateComicTitle f comicId newTitle db).2)
  ∧ (∀ coverBlob, library_consistent (updateComicCover f comicId coverBlob db).2)
  ∧ (∀ pageIndex,
       (∀ comic, comics db !! comicId = Some comic →
                 0 ≤ pageIndex < Comic.totalPages comic) →
       library_consistent (updateComicProgress f comicId pageIndex db).2).
Proof.
  intros Hdb. split; [|split].
  - intros newTitle. unfold updateComicTitle, IDB.get.
    destruct (get_fails f); [done|].
    destruct (comics db !! comicId) as [comic|] eqn:Hc; [|done].
    destruct (put_fails f); [done|]. simpl.
    apply (put_comic_consistent db comicId comic); try done.
    intros l Hl. by apply (proj1 (proj2 Hdb) comicId comic Hc).
  - intros coverBlob. unfold updateComicCover, IDB.get.
    destruct (get_fails f); [done|].
    destruct (comics db !! comicId) as [comic|] eqn:Hc; [|done].
    destruct (put_fails f); [done|]. simpl.
    apply (put_comic_consistent db comicId comic); try done.
    intros l Hl. by apply (proj1 (proj2 Hdb) comicId comic Hc).
  - intros pageIndex Hvalid. unfold updateComicProgress, IDB.get.
    destruct (get_fails f); [done|].
    destruct (comics db !! comicId) as [comic|] eqn:Hc; [|done].
    destruct (put_fails f); [done|]. simpl.
    apply (put_comic_consistent db comicId comic); try done.
    simpl. intros l [= <-]. by apply Hvalid.
Qed.

Lemma update_consistent_witness :
  library_consistent sample_db
  ∧ library_consistent (updateComicTitle no_faults "c1" "Alpha" sample_db).2
  ∧ library_consistent (updateComicProgress no_faults "c1" 1 sample_db).2.
Proof.
  pose proof sample_db_consistent as Hdb.
  destruct (update_consistent no_faults "c1" sample_db Hdb) as (Htitle & _ & Hprogress).
  split; [exact Hdb|]. split; [apply Htitle|]. apply Hprogress.
  intros comic. vm_compute. intros [= <-]. done.
Defined.

(** ** The editor after a deletion *)

(** X9: the editor closes exactly when the comic is gone.  For a comic of
    the library, either no page is left, the comic record has been deleted
    and the editor closes, or the editor shows the remaining pages, numbered
    0..n-1, and the record is still there with [totalPages = n]. *)
Theorem handleDeletePage_view (comic stored : Comic) (pageId : string) (db : DB) :
  well_keyed db →
  comics db !! Comic.id comic = Some stored →
  let view := (handleDeletePage comic pageId db).1 in
  let db' := (handleDeletePage comic pageId db).2 in
  match view with
  | EditorClosed =>
      comics db' !! Comic.id comic = None
      ∧ getComicPages (Comic.id comic) db' = []
  | EditorShows shown =>
      shown = getComicPages (Comic.id comic) db'
      ∧ ComicPage.order <$> shown = Z.of_nat <$> seq 0 (length shown)
      ∧ ∃ comic', comics db' !! Comic.id comic = Some comic'
                  ∧ Comic.totalPages comic' = Z.of_nat (length shown)
  end.
Proof.
  intros Hwk Hstored view db'. subst view db'. unfold handleDeletePage. simpl.
  set (comicId := Comic.id comic) in *.
  assert (Hsorted := deleteComicPage_sortedPages pageId comicId db Hwk).
  unfold getComicPages. rewrite Hsorted.
  rewrite <-(sortedPages_delete comicId pageId (pages db)) by apply Hwk.
  set (R := sortedPages comicId (IDB.delete pageId (pages db))).
  assert (Hrem : IDB.index_getAll PageRecord.comicId comicId
                   (IDB.delete pageId (pages db)) = [] ↔ R = []).
  { unfold R. split; intros Hnil; apply nil_length_inv.
    - by rewrite sortedPages_Permutation, Hnil.
    - by rewrite <-sortedPages_Permutation, Hnil. }
  destruct (toComicPage <$> resequenced R) as [|q shown] eqn:Hshown.
  - split; [|done].
    rewrite deleteComicPage_last.
    + simpl. unfold IDB.delete. apply lookup_delete_eq.
    + apply Hrem, nil_length_inv.
      by rewrite <-(resequenced_length R), <-(length_fmap toComicPage), Hshown.
  - rewrite <-Hshown. split; [done|]. split.
    + rewrite <-list_fmap_compose, length_fmap, resequenced_length.
      change (ComicPage.order ∘ toComicPage) with PageRecord.order.
      apply resequenced_order.
    + rewrite deleteComicPage_some_left.
      2:{ intros HRnil%Hrem. by rewrite HRnil in Hshown. }
      simpl. unfold IDB.get, IDB.put. rewrite Hstored.
      rewrite (proj1 (recountComic_rest _ _)), (proj1 Hwk _ _ Hstored).
      rewrite lookup_insert_eq. eexists. split; [done|].
      by rewrite recountComic_totalPages, length_fmap, resequenced_length.
Qed.

Lemma handleDeletePage_view_witness :
  well_keyed sample_db
  ∧ comics sample_db !! Comic.id sample_gamma = Some sample_gamma
  ∧ (handleDeletePage sample_gamma "r0" sample_db).1 = EditorClosed
  ∧ comics (handleDeletePage sample_gamma "r0" sample_db).2 !! "c3" = None.
Proof.
  assert (Hwk : well_keyed sample_db).
  { apply (bool_decide_eq_true_1 _). vm_compute. reflexivity. }
  assert (Hstored : comics sample_db !! Comic.id sample_gamma = Some sample_gamma)
    by (vm_compute; reflexivity).
  assert (Hview : (handleDeletePage sample_gamma "r0" sample_db).1 = EditorClosed)
    by (vm_compute; reflexivity).
  pose proof (handleDeletePage_view sample_gamma sample_gamma "r0" sample_db
                Hwk Hstored) as Hthm.
  cbv zeta in Hthm. rewrite Hview in Hthm.
  split; [exact Hwk|]. split; [exact Hstored|]. split; [exact Hview|].
  exact (proj1 Hthm).
Defined.

(** ** Updating a record does not move it in the library *)

Section SortMap.
Context {A : Type} (le : A → A → bool) (h : A → A).
Hypothesis Hle : ∀ a b, le (h a) (h b) = le a b.

Lemma insert_sorted_fmap x l :
  JS.insert_sorted le (h x) (h <$> l) = h <$> JS.insert_sorted le x l.
Proof.
  induction l as [|y l IH]; [done|]. csimpl. rewrite Hle.
  destruct (le x y); [done|]. csimpl. by rewrite IH.
Qed.

Lemma stable_sort_fmap l :
  JS.stable_sort le (h <$> l) = h <$> JS.stable_sort le l.
Proof.
  induction l as [|x l IH]; [done|]. csimpl.
  by rewrite IH, insert_sorted_fmap.
Qed.

End SortMap.

Section PutExisting.
Context {A : Type} (key : A → string) (h : A → A).
Implicit Types (s : gmap string A).

(** Overwriting the record under [k] by [h] of it, [h] leaving the other
    records alone: the store is read as before, with [h] applied. *)
Lemma getAll_put_existing s k r :
  keyed_by_id key s → s !! k = Some r → key (h r) = k →
  (∀ r', key r' ≠ k → h r' = r') →
  IDB.getAll (IDB.put key (h r) s) = h <$> IDB.getAll s.
Proof.
  intros Hs Hk Hkey Hother. unfold IDB.getAll, IDB.put. rewrite Hkey.
  rewrite <-list_fmap_compose.
  assert (Hentries : IDB.entries (<[k:=h r]> s)
                     = (λ e, (e.1, h e.2)) <$> IDB.entries s).
  { apply (StronglySorted_unique_strong (λ a b, String.leb a.1 b.1 = true)).
    - intros [k1 r1] [k2 r2] H1%elem_of_entries H2 Hle1 Hle2. simpl in *.
      assert (k1 = k2) as -> by by apply String.leb_antisym.
      apply list_elem_of_fmap in H2 as ([k3 r3] & Heq & H3%elem_of_entries).
      simpl in Heq. injection Heq as -> ->. f_equal.
      apply lookup_insert_Some in H1 as [[<- <-]|[Hne H1]].
      + congruence.
      + assert (r3 = r1) as -> by congruence. symmetry. apply Hother.
        pose proof (Hs k3 r1 H1) as Hid. simpl in Hid. congruence.
    - apply entries_sorted.
    - apply (StronglySorted_fmap _ (λ a b, String.leb a.1 b.1 = true));
        [by intros [??] [??]|apply entries_sorted].
    - apply NoDup_Permutation.
      + apply NoDup_entries.
      + apply (NoDup_fmap_1 fst). rewrite <-list_fmap_compose.
        rewrite (list_fmap_ext _ fst (IDB.entries s)) by by intros ? [??].
        rewrite entries_Permutation. apply NoDup_fst_map_to_list.
      + intros [k1 r1]. rewrite elem_of_entries, list_elem_of_fmap.
        rewrite lookup_insert_Some. split.
        * intros [[<- <-]|[Hne H1]].
          -- exists (k, r). split; [done|]. by apply elem_of_entries.
          -- exists (k1, r1). split; [|by apply elem_of_entries].
             simpl. f_equal. symmetry. apply Hother.
             pose proof (Hs k1 r1 H1) as Hid. simpl in Hid. congruence.
        * intros ([k2 r2] & [= -> ->] & H2%elem_of_entries). simpl.
          destruct (decide (k = k2)) as [<-|Hne].
          -- left. split; [done|]. congruence.
          -- right. split; [done|]. rewrite Hother; [done|].
             pose proof (Hs k2 r2 H2) as Hid. simpl in Hid. congruence. }
  rewrite Hentries, <-list_fmap_compose. done.
Qed.

End PutExisting.

Lemma getAllComics_put_existing (h : Comic → Comic) (db : DB) comicId comic :
  well_keyed db → comics db !! comicId = Some comic →
  (∀ c, Comic.id (h c) = Comic.id c ∧ Comic.createdAt (h c) = Comic.createdAt c) →
  (∀ c, Comic.id c ≠ comicId → h c = c) →
  getAllComics (mkDB (IDB.put Comic.id (h comic) (comics db)) (pages db))
  = h <$> getAllComics db.
Proof.
  intros Hwk Hc Hh Hother. unfold getAllComics. simpl.
  pose proof (proj1 Hwk comicId comic Hc) as Hid. simpl in Hid.
  rewrite (getAll_put_existing Comic.id h (comics db) comicId comic);
    [|apply Hwk|done|by rewrite (proj1 (Hh comic))|done].
  apply stable_sort_fmap. intros a b.
  by rewrite (proj2 (Hh a)), (proj2 (Hh b)).
Qed.

(** X10: renaming a comic, changing its cover or saving its reading
    position changes that one record in the list [getAllComics] returns and
    leaves every comic at its place in the list. *)
Theorem update_keeps_library_order (comicId : string) (comic : Comic) (db : DB) :
  well_keyed db →
  comics db !! comicId = Some comic →
  (∀ newTitle,
     getAllComics (updateComicTitle no_faults comicId newTitle db).2
     = (λ c, if decide (Comic.id c = comicId)
             then Comic.set_title c newTitle else c) <$> getAllComics db)
  ∧ (∀ coverBlob,
       getAllComics (updateComicCover no_faults comicId coverBlob db).2
       = (λ c, if decide (Comic.id c = comicId)
               then Comic.set_coverImageBlob c (Some coverBlob) else c)
           <$> getAllComics db)
  ∧ (∀ pageIndex,
       getAllComics (updateComicProgress no_faults comicId pageIndex db).2
       = (λ c, if decide (Comic.id c = comicId)
               then Comic.set_lastReadPage c (Some pageIndex) else c)
           <$> getAllComics db).
Proof.
  intros Hwk Hc.
  pose proof (proj1 Hwk comicId comic Hc) as Hid. simpl in Hid.
  split; [|split]; intros x.
  - rewrite (updateComicTitle_found comicId x db comic Hc). simpl.
    rewrite <-(getAllComics_put_existing _ db comicId comic Hwk Hc).
    + by rewrite decide_True.
    + intros c. by destruct (decide _).
    + intros c Hne. by rewrite decide_False.
  - rewrite (updateComicCover_found comicId x db comic Hc). simpl.
    rewrite <-(getAllComics_put_existing _ db comicId comic Hwk Hc).
    + by rewrite decide_True.
    + intros c. by destruct (decide _).
    + intros c Hne. by rewrite decide_False.
  - rewrite (updateComicProgress_found comicId x db comic Hc). simpl.
    rewrite <-(getAllComics_put_existing _ db comicId comic Hwk Hc).
    + by rewrite decide_True.
    + intros c. by destruct (decide _).
    + intros c Hne. by rewrite decide_False.
Qed.

Lemma update_keeps_library_order_witness :
  well_keyed sample_db
  ∧ comics sample_db !! "c2" = Some sample_beta
  ∧ Comic.title <$> getAllComics (updateComicTitle no_faults "c2" "Zorro" sample_db).2
    = ["Gamma"; "Zorro"; "Alpha Flight"].
Proof.
  assert (Hwk : well_keyed sample_db).
  { apply (bool_decide_eq_true_1 _). vm_compute. reflexivity. }
  assert (Hc : comics sample_db !! "c2" = Some sample_beta) by (vm_compute; reflexivity).
  destruct (update_keeps_library_order "c2" sample_beta sample_db Hwk Hc)
    as (Htitle & _).
  split; [exact Hwk|]. split; [exact Hc|].
  rewrite Htitle. vm_compute. reflexivity.
Defined.

(** * Further properties of the cover search *)

Lemma includes_empty (s : string) : JS.includes s "" = true.
Proof. by destruct s. Qed.

Lemma NoDup_sublist_fmap {A B} (f : A → B) (l1 l2 : list A) :
  l1 `sublist_of` l2 → NoDup (f <$> l2) → NoDup (f <$> l1).
Proof. intros Hsub Hnd. eapply sublist_NoDup; [exact Hnd|]. by apply fmap_sublist. Qed.

Lemma filter_none {A} (P : A → Prop) `{!∀ x, Decision (P x)} (l : list A) :
  Forall (λ x, ¬ P x) l → filter P l = [].
Proof.
  induction 1 as [|x l Hx Hl IH]; [done|].
  by rewrite filter_cons_False.
Qed.

Lemma omap_imap_none {A B} (g : nat → A → option B) (l : list A) :
  (∀ i x, g i x = None) → omap id (imap g l) = [].
Proof.
  revert g. induction l as [|x l IH]; intros g Hg; [done|].
  rewrite imap_cons. simpl. unfold id at 1. rewrite Hg. apply IH.
  intros i. apply Hg.
Qed.

Section SearchMore.
Context (toLowerCase : string → string).
Context (API_KEY : option string).
Context (blobToBase64 : Blob → option string).
Context (generateContent : nat → Request → Reply).

Lemma searchComicCovers_returns comics query :
  api_key_missing API_KEY = false →
  (searchComicCovers toLowerCase API_KEY blobToBase64 generateContent comics query).2
  = Returns (titleMatches toLowerCase comics query
             ++ omap id (imap (λ i comic,
                  (aiMatch blobToBase64 generateContent query i comic).2)
                  (comicsToSearchAi toLowerCase comics query)))%list.
Proof.
  intros Hkey. unfold searchComicCovers. rewrite Hkey. simpl.
  by rewrite omap_snd_imap.
Qed.

Lemma aiMatches_sublist comics query :
  omap id (imap (λ i comic, (aiMatch blobToBase64 generateContent query i comic).2)
                (comicsToSearchAi toLowerCase comics query))
  `sublist_of` comicsToSearchAi toLowerCase comics query.
Proof.
  apply omap_imap_sublist. intros i x y Hy.
  by apply aiMatch_result in Hy as [-> _].
Qed.

(** A search returns comics of the list it was given, each at most once
    when their ids are distinct. *)
Lemma searchComicCovers_distinct (comics : list Comic) (query : string) :
  api_key_missing API_KEY = false →
  NoDup (Comic.id <$> comics) →
  ∃ result,
    (searchComicCovers toLowerCase API_KEY blobToBase64 generateContent comics query).2
    = Returns result
    ∧ NoDup (Comic.id <$> result)
    ∧ ∀ c, c ∈ result → c ∈ comics.
Proof.
  intros Hkey Hnd. eexists. split; [by apply searchComicCovers_returns|].
  pose proof (aiMatches_sublist comics query) as Hai.
  set (aiMatches := omap id _) in *.
  assert (HL : comicsToSearchAi toLowerCase comics query `sublist_of` comics)
    by apply sublist_filter.
  assert (HT : titleMatches toLowerCase comics query `sublist_of` comics)
    by apply sublist_filter.
  split.
  - rewrite fmap_app. apply NoDup_app. split; [|split].
    + by eapply NoDup_sublist_fmap.
    + intros i (ct & -> & Hct)%list_elem_of_fmap (ca & Heq & Hca)%list_elem_of_fmap.
      eapply elem_of_sublist in Hca; [|exact Hai].
      unfold comicsToSearchAi in Hca.
      apply list_elem_of_filter in Hca as [Hout _]. apply Hout.
      unfold titleMatchIds. apply elem_of_list_to_set. rewrite <-Heq.
      by apply list_elem_of_fmap_2.
    + eapply NoDup_sublist_fmap; [|exact Hnd]. by etrans.
  - intros c [Hc|Hc]%elem_of_app.
    + by eapply elem_of_sublist.
    + eapply elem_of_sublist; [exact Hc|]. by etrans.
Qed.

(** X12: an empty query matches every title: the whole list comes back,
    in its order, and the model is not consulted.  (The empty string is
    its own lower case.) *)
Theorem searchComicCovers_empty_query (comics : list Comic) :
  toLowerCase "" = "" →
  api_key_missing API_KEY = false →
  searchComicCovers toLowerCase API_KEY blobToBase64 generateContent comics ""
  = ([], Returns comics).
Proof.
  intros Hempty Hkey. unfold searchComicCovers. rewrite Hkey.
  assert (HT : titleMatches toLowerCase comics "" = comics).
  { unfold titleMatches, titleMatch. apply filter_all, Forall_forall.
    intros c _. cbv zeta. rewrite Hempty. apply includes_empty. }
  assert (HL : comicsToSearchAi toLowerCase comics "" = []).
  { unfold comicsToSearchAi, titleMatchIds. rewrite HT.
    apply filter_none, Forall_forall. intros c Hc Hout. apply Hout.
    by apply elem_of_list_to_set, list_elem_of_fmap_2. }
  rewrite HL, HT. simpl. by rewrite app_nil_r.
Qed.

(** X13: a model that fails does not fail the search.  When every call
    throws, or is answered by anything but YES, or no cover can be encoded,
    the search returns the title matches. *)
Theorem searchComicCovers_model_failing (comics : list Comic) (query : string) :
  api_key_missing API_KEY = false →
  (∀ i request, answered_yes (generateContent i request) = false) →
  (searchComicCovers toLowerCase API_KEY blobToBase64 generateContent comics query).2
  = Returns (titleMatches toLowerCase comics query).
Proof.
  intros Hkey Hno. rewrite searchComicCovers_returns by done.
  assert (Hnone : ∀ l : list Comic,
            omap id (imap (λ i comic,
              (aiMatch blobToBase64 generateContent query i comic).2) l) = []).
  { intros l.
    assert (Hall : ∀ i c, (aiMatch blobToBase64 generateContent query i c).2 = None).
    { intros i c. unfold aiMatch. destruct (Comic.coverImageBlob c) as [blob|]; [|done].
      destruct (blobToBase64 blob); [|done]. simpl. by rewrite Hno. }
    by apply omap_imap_none. }
  by rewrite Hnone, app_nil_r.
Qed.

(** X11: a search of the stored library lists every comic at most once:
    no comic is shown both as a title match and as a cover match, and every
    comic shown is a stored one.  A query that is blank after trimming is
    not run. *)
Theorem handleAiSearch_no_duplicates (searchQuery : string) (db : DB) :
  well_keyed db →
  api_key_missing API_KEY = false →
  (JS.trim searchQuery = "" →
     handleAiSearch toLowerCase API_KEY blobToBase64 generateContent searchQuery db = None)
  ∧ (JS.trim searchQuery ≠ "" →
     ∃ results,
       handleAiSearch toLowerCase API_KEY blobToBase64 generateContent searchQuery db
       = Some (Returns results)
       ∧ NoDup (Comic.id <$> results)
       ∧ ∀ c, c ∈ results → ∃ k, comics db !! k = Some c).
Proof.
  intros Hwk Hkey. unfold handleAiSearch. split.
  - intros ->. done.
  - intros Hq%String.eqb_neq. rewrite Hq.
    destruct (searchComicCovers_distinct (getAllComics db) searchQuery Hkey)
      as (results & Hres & Hnd & Hin).
    { unfold getAllComics. rewrite sort_Permutation.
      apply (NoDup_key_getAll Comic.id), Hwk. }
    exists results. rewrite Hres. split; [done|]. split; [done|].
    intros c Hc%Hin. by apply elem_of_getAllComics.
Qed.

End SearchMore.

Lemma handleAiSearch_no_duplicates_witness :
  well_keyed sample_db
  ∧ api_key_missing sample_key = false
  ∧ ∃ results,
      handleAiSearch sample_toLowerCase sample_key sample_encode sample_model "bat" sample_db
      = Some (Returns results)
      ∧ NoDup (Comic.id <$> results).
Proof.
  assert (Hwk : well_keyed sample_db).
  { apply (bool_decide_eq_true_1 _). vm_compute. reflexivity. }
  assert (Hkey : api_key_missing sample_key = false) by reflexivity.
  assert (Hq : JS.trim "bat" ≠ "") by (vm_compute; discriminate).
  destruct (handleAiSearch_no_duplicates sample_toLowerCase sample_key sample_encode sample_model
              "bat" sample_db Hwk Hkey) as [_ Hrun].
  destruct (Hrun Hq) as (results & Hres & Hnd & _).
  split; [exact Hwk|]. split; [exact Hkey|]. by exists results.
Defined.

Lemma searchComicCovers_empty_query_witness :
  sample_toLowerCase "" = ""
  ∧ api_key_missing sample_key = false
  ∧ searchComicCovers sample_toLowerCase sample_key sample_encode sample_model
      sample_library ""
    = ([], Returns sample_library).
Proof.
  assert (Hempty : sample_toLowerCase "" = "") by reflexivity.
  assert (Hkey : api_key_missing sample_key = false) by reflexivity.
  split; [exact Hempty|]. split; [exact Hkey|].
  exact (searchComicCovers_empty_query sample_toLowerCase sample_key sample_encode
           sample_model sample_library Hempty Hkey).
Defined.

Lemma searchComicCovers_model_failing_witness :
  api_key_missing sample_key = false
  ∧ (∀ i request, answered_yes (failing_model i request) = false)
  ∧ (searchComicCovers sample_toLowerCase sample_key sample_encode failing_model
       sample_library "bat").2
    = Returns (titleMatches sample_toLowerCase sample_library "bat").
Proof.
  assert (Hkey : api_key_missing sample_key = false) by reflexivity.
  assert (Hno : ∀ (i : nat) (request : Request),
            answered_yes (failing_model i request) = false)
    by (intros; reflexivity).
  split; [exact Hkey|]. split; [exact Hno|].
  exact (searchComicCovers_model_failing sample_toLowerCase sample_key sample_encode
           failing_model sample_library "bat" Hkey Hno).
Defined.

Section EventLoopMore.
Context (toLowerCase : string → string).
Context (API_KEY : option string).
Context (blobToBase64 : Blob → option string).
Context (generateContent : nat → Request → Reply).
Context (query : string).

(** X14: the result does not depend on the order in which the covers are
    encoded and the replies arrive: every run that settles all callbacks
    ends with the value [searchComicCovers] returns, and such a run
    exists. *)
Theorem searchComicCovers_schedule_independent (comics : list Comic) :
  api_key_missing API_KEY = false →
  (∀ schedule tasks result,
     run blobToBase64 generateContent query schedule (spawn toLowerCase comics query) = Some tasks →
     collect toLowerCase comics query tasks = Some result →
     (searchComicCovers toLowerCase API_KEY blobToBase64 generateContent comics query).2
     = Returns result)
  ∧ ∃ schedule tasks result,
      run blobToBase64 generateContent query schedule (spawn toLowerCase comics query) = Some tasks
      ∧ collect toLowerCase comics query tasks = Some result.
Proof.
  intros Hkey. split.
  - intros schedule tasks result. by apply collect_any_schedule.
  - destruct (collect_completes toLowerCase blobToBase64 generateContent query API_KEY
                comics Hkey)
      as (tasks & result & Hrun & Hcollect & _).
    eauto.
Qed.

Lemma in_flight_on_path (searched : list Comic) (tasks : list Task) :
  all_on_path blobToBase64 generateContent query searched tasks →
  (in_flight tasks
   ≤ length (filter (λ comic, sends_request blobToBase64 comic = true) searched))%nat.
Proof.
  intros [Hlen Hall].
  assert (HF : Forall2 (λ t comic, awaiting_reply t = true
                                   → sends_request blobToBase64 comic = true)
                       tasks searched).
  { apply Forall2_same_length_lookup_2; [done|].
    intros i t c Ht Hc Hawait. specialize (Hall i c t Hc Ht).
    destruct t as [| c' request |]; try done.
    destruct Hall as (_ & blob & d & Hcover & Henc & _).
    unfold sends_request. rewrite Hcover, Henc. by apply bool_decide_eq_true. }
  clear Hlen Hall. unfold in_flight.
  induction HF as [|t c tasks searched Htc HF IH]; [done|].
  rewrite !filter_cons.
  destruct (decide (awaiting_reply t = true)) as [Ht|Ht].
  - rewrite decide_True by auto. simpl. lia.
  - destruct (decide (sends_request blobToBase64 c = true)); simpl; lia.
Qed.

(** X15: at no point of any run are there more requests in flight than
    searched comics with a cover that can be encoded: one request per comic
    at most, and no other bound. *)
Theorem searchComicCovers_in_flight_bound
    (comics : list Comic) (schedule : list Event) (tasks : list Task) :
  run blobToBase64 generateContent query schedule (spawn toLowerCase comics query) = Some tasks →
  (in_flight tasks
   ≤ length (filter (λ comic, sends_request blobToBase64 comic = true)
                    (comicsToSearchAi toLowerCase comics query)))%nat.
Proof.
  intros Hrun. apply in_flight_on_path.
  eapply run_on_path; [|exact Hrun]. apply spawn_on_path.
Qed.

End EventLoopMore.

Lemma searchComicCovers_schedule_independent_witness :
  api_key_missing sample_key = false
  ∧ ∃ schedule tasks result,
      run sample_encode sample_model "zorro" schedule (spawn sample_toLowerCase sample_library "zorro")
      = Some tasks
      ∧ collect sample_toLowerCase sample_library "zorro" tasks = Some result.
Proof.
  assert (Hkey : api_key_missing sample_key = false) by reflexivity.
  split; [exact Hkey|].
  exact (proj2 (searchComicCovers_schedule_independent sample_toLowerCase sample_key
                  sample_encode
                  sample_model "zorro" sample_library Hkey)).
Defined.

Lemma searchComicCovers_in_flight_bound_witness :
  run sample_encode sample_model "zorro" [BlobEncoded 1; BlobEncoded 0; ReplyArrived 1]
      (spawn sample_toLowerCase sample_library "zorro")
  = Some [AwaitReply sample_alpha (request_for "zorro" sample_blob "iVBORw0KGgo=");
          Settled (Some sample_beta); Settled None]
  ∧ (in_flight [AwaitReply sample_alpha (request_for "zorro" sample_blob "iVBORw0KGgo=");
                Settled (Some sample_beta); Settled None] ≤ 2)%nat.
Proof.
  assert (Hrun :
    run sample_encode sample_model "zorro" [BlobEncoded 1; BlobEncoded 0; ReplyArrived 1]
        (spawn sample_toLowerCase sample_library "zorro")
    = Some [AwaitReply sample_alpha (request_for "zorro" sample_blob "iVBORw0KGgo=");
            Settled (Some sample_beta); Settled None])
    by (vm_compute; reflexivity).
  split; [exact Hrun|].
  exact (searchComicCovers_in_flight_bound sample_toLowerCase sample_encode sample_model
           "zorro"
           sample_library _ _ Hrun).
Defined.

(** ** The other calls of the hosted model *)

Lemma split_comma_nonempty (s : string) : split_comma s ≠ [].
Proof.
  destruct s as [|c s]; [done|]. cbn [split_comma].
  destruct (Ascii.eqb c ","); [done|]. by destruct (split_comma s).
Qed.

Lemma split_comma_free (s : string) : comma_free s → split_comma s = [s].
Proof.
  unfold comma_free. induction s as [|c s IH]; [done|]. cbn [occurs split_comma].
  rewrite (Ascii.eqb_sym "," c).
  destruct (Ascii.eqb c ","); [done|]. cbn [orb]. intros H. by rewrite (IH H).
Qed.

Lemma split_comma_app (a b : string) :
  comma_free a → split_comma (a ++ "," ++ b) = a :: split_comma b.
Proof.
  unfold comma_free. induction a as [|c a IH].
  - intros _. by rewrite append_nil_l, append_cons, append_nil_l.
  - cbn [occurs]. rewrite (Ascii.eqb_sym "," c). rewrite append_cons.
    cbn [split_comma].
    destruct (Ascii.eqb c ","); [done|]. cbn [orb]. intros H. by rewrite (IH H).
Qed.

(** X16: [blobToBase64] resolves with the payload of the data URL: the text
    between the first comma and the second one, or the end; a result
    without a comma resolves with [undefined]. *)
Theorem blobToBase64_payload (head payload : string) :
  comma_free head → comma_free payload →
  blobToBase64_onloadend (ResultString (head ++ "," ++ payload)) = Some (Some payload)
  ∧ (∀ rest, blobToBase64_onloadend
               (ResultString (head ++ "," ++ payload ++ "," ++ rest))
             = Some (Some payload))
  ∧ blobToBase64_onloadend (ResultString head) = Some None.
Proof.
  intros Hhead Hpayload. unfold blobToBase64_onloadend. split; [|split].
  - by rewrite split_comma_app, split_comma_free.
  - intros rest. by rewrite split_comma_app, split_comma_app.
  - by rewrite split_comma_free.
Qed.

Lemma blobToBase64_payload_witness :
  comma_free sample_data_url_head ∧ comma_free sample_payload
  ∧ blobToBase64_onloadend (ResultString "data:image/png;base64,iVBORw0KGgo=")
    = Some (Some "iVBORw0KGgo=").
Proof.
  assert (Hhead : comma_free sample_data_url_head) by reflexivity.
  assert (Hpayload : comma_free sample_payload) by reflexivity.
  split; [exact Hhead|]. split; [exact Hpayload|].
  exact (proj1 (blobToBase64_payload sample_data_url_head sample_payload Hhead Hpayload)).
Defined.

Lemma trimStart_spaces (pad s : string) :
  all_space pad = true → JS.trimStart (pad ++ s) = JS.trimStart s.
Proof.
  induction pad as [|c pad IH]; [by rewrite append_nil_l|].
  cbn [all_space]. intros [Hc Hpad]%andb_true_iff. rewrite append_cons.
  cbn [JS.trimStart]. by rewrite Hc, IH.
Qed.

Lemma trimStart_rev_app (pad acc : string) :
  all_space pad = true →
  JS.trimStart (String.rev_app pad acc) = JS.trimStart acc.
Proof.
  revert acc. induction pad as [|c pad IH]; [done|].
  cbn [all_space String.rev_app]. intros acc [Hc Hpad]%andb_true_iff.
  rewrite IH by done. cbn [JS.trimStart]. by rewrite Hc.
Qed.

Lemma rev_app_app (s t acc : string) :
  String.rev_app (s ++ t) acc = String.rev_app t (String.rev_app s acc).
Proof.
  revert acc. induction s as [|c s IH]; intros acc; [by rewrite append_nil_l|].
  rewrite append_cons. cbn [String.rev_app]. by rewrite IH.
Qed.

Lemma rev_app_rev_app (s acc t : string) :
  String.rev_app (String.rev_app s acc) t = String.rev_app acc (s ++ t).
Proof.
  revert acc t. induction s as [|c s IH]; intros acc t; [by rewrite append_nil_l|].
  cbn [String.rev_app]. rewrite IH. cbn [String.rev_app]. by rewrite append_cons.
Qed.

(** Trimming removes the white space around a text that starts and ends
    with other characters. *)
Lemma trim_padded (pad1 pad2 body : string) (c d : ascii) :
  all_space pad1 = true → all_space pad2 = true →
  JS.is_space c = false → JS.is_space d = false →
  JS.trim (pad1 ++ String c (body ++ String d pad2)) = String c (body ++ String d "").
Proof.
  intros Hpad1 Hpad2 Hc Hd. unfold JS.trim.
  rewrite trimStart_spaces by done. cbn [JS.trimStart]. rewrite Hc.
  unfold JS.trimEnd, String.rev. cbn [String.rev_app].
  rewrite rev_app_app. cbn [String.rev_app].
  rewrite trimStart_rev_app by done. cbn [JS.trimStart]. rewrite Hd.
  cbn [String.rev_app]. by rewrite rev_app_rev_app.
Qed.

Lemma strip_trailing_quote_snoc (s : string) :
  strip_trailing_quote (s ++ dquote) = s.
Proof.
  induction s as [|c s IH]; [done|].
  rewrite append_cons. simpl. rewrite IH.
  destruct (s ++ dquote) eqn:Hs; [|done].
  destruct s; [by rewrite append_nil_l in Hs|by rewrite append_cons in Hs].
Qed.

Section GeminiFacts.
Context (API_KEY : option string).
Context (blobToBase64 : Blob → option string).
Context (generateContent : Request → Reply).

(** X17: [getAiPageAnalysis] never returns an empty text, and fails with
    one of two messages: the missing key comes first, and every other
    failure is reported as a failed analysis. *)
Theorem getAiPageAnalysis_outcomes (imageBlob : Blob) (prompt : string) :
  match getAiPageAnalysis API_KEY blobToBase64 generateContent imageBlob prompt with
  | Returns text => text ≠ "" ∧ api_key_missing API_KEY = false
  | Throws message =>
      if api_key_missing API_KEY
      then message = "API Key is missing."
      else message = "Failed to analyze the page. Please try again."
  end.
Proof.
  unfold getAiPageAnalysis. destruct (api_key_missing API_KEY); [done|].
  destruct (blobToBase64 imageBlob) as [base64Data|]; [|done].
  destruct (generateContent _) as [[text|]|]; try done.
  destruct (String.eqb text "") eqn:Htext; [done|].
  split; [|done]. by apply String.eqb_neq.
Qed.

(** X18: a title that the model wraps in double quotes, with white space
    around them, is returned without the quotes and the white space; this
    holds for every title, the empty one included. *)
Theorem generateAiTitle_unquotes
    (imageBlob : Blob) (base64Data pad1 title pad2 : string) :
  api_key_missing API_KEY = false →
  blobToBase64 imageBlob = Some base64Data →
  generateContent (image_request imageBlob base64Data titlePrompt)
  = ReplyText (Some (pad1 ++ dquote ++ title ++ dquote ++ pad2)) →
  all_space pad1 = true → all_space pad2 = true →
  generateAiTitle API_KEY blobToBase64 generateContent imageBlob = Returns title.
Proof.
  intros Hkey Hblob Hreply Hpad1 Hpad2. unfold generateAiTitle.
  rewrite Hkey, Hblob, Hreply. simpl fmap.
  change (pad1 ++ dquote ++ title ++ dquote ++ pad2)
    with (pad1 ++ String "034" (title ++ String "034" pad2)).
  rewrite trim_padded by done. simpl String.eqb. unfold strip_quotes. simpl.
  change (String "034" "") with dquote.
  by rewrite strip_trailing_quote_snoc.
Qed.

(** X19: [generateAiTitle] fails with one of two messages.  The error
    "AI did not return a title." raised for a blank reply is caught by the
    function itself and never reaches the caller. *)
Theorem generateAiTitle_outcomes (imageBlob : Blob) :
  match generateAiTitle API_KEY blobToBase64 generateContent imageBlob with
  | Returns title => api_key_missing API_KEY = false
  | Throws message =>
      message ≠ "AI did not return a title."
      ∧ if api_key_missing API_KEY
        then message = "API Key is missing."
        else message = "Failed to generate title with AI. Please try again."
  end.
Proof.
  unfold generateAiTitle. destruct (api_key_missing API_KEY); [done|].
  destruct (blobToBase64 imageBlob) as [base64Data|]; [|done].
  destruct (generateContent _) as [[text|]|]; try done.
  simpl. by destruct (String.eqb (JS.trim text) "").
Qed.

End GeminiFacts.

Lemma generateAiTitle_unquotes_witness :
  generateAiTitle sample_key sample_encode quoting_model sample_blob
  = Returns "Night Owls".
Proof.
  apply (generateAiTitle_unquotes sample_key sample_encode quoting_model sample_blob
           (Blob.data sample_blob) " " "Night Owls" (String "010" ""));
    reflexivity.
Defined.

(** ** The service worker *)

Section ServiceWorker.
Import SW.

Lemma caches_match_None (u : string) (caches : CacheStorage) :
  caches_match u caches = None ↔ ∀ n c, (n, c) ∈ caches → c !! u = None.
Proof.
  induction caches as [|[n c] caches IH]; simpl.
  - split; [|done]. intros _ n c H. by apply elem_of_nil in H.
  - destruct (c !! u) as [r|] eqn:Hc.
    + split; [done|]. intros H. specialize (H n c (list_elem_of_here _ _)). congruence.
    + rewrite IH. split.
      * intros H n' c' [[= -> ->]|Hin]%elem_of_cons; [done|by eapply H].
      * intros H n' c' Hin. eapply H. by right.
Qed.

Lemma caches_match_Some (u : string) (caches : CacheStorage) (r : Response) :
  caches_match u caches = Some r → ∃ n, cached caches n u r.
Proof.
  induction caches as [|[n c] caches IH]; simpl; [done|].
  destruct (c !! u) as [r'|] eqn:Hc.
  - intros [= ->]. exists n, c. split; [left|done].
  - intros (n' & c' & Hin & Hc')%IH. exists n', c'. split; [by right|done].
Qed.

Lemma caches_match_app (u : string) (caches more : CacheStorage) :
  caches_match u (caches ++ more)%list
  = match caches_match u caches with
    | Some r => Some r
    | None => caches_match u more
    end.
Proof.
  induction caches as [|[n c] caches IH]; simpl; [done|].
  by destruct (c !! u).
Qed.

Lemma caches_match_open (u name : string) (caches : CacheStorage) :
  caches_match u (caches_open name caches) = caches_match u caches.
Proof.
  unfold caches_open. case_bool_decide; [done|].
  rewrite caches_match_app. cbn [caches_match].
  by destruct (caches_match u caches).
Qed.

Lemma caches_open_keys (name : string) (caches : CacheStorage) :
  name ∈ caches_keys (caches_open name caches).
Proof.
  unfold caches_open. case_bool_decide; [done|].
  unfold caches_keys. rewrite fmap_app. apply elem_of_app. right. simpl. left.
Qed.

Lemma cache_put_keys (name u : string) (r : Response) (caches : CacheStorage) :
  caches_keys (cache_put name u r caches) = caches_keys caches.
Proof.
  induction caches as [|[n c] caches IH]; simpl; [done|].
  destruct (decide (n = name)); simpl; [done|]. by rewrite IH.
Qed.

Lemma caches_match_put (name u : string) (r : Response) (caches : CacheStorage) :
  name ∈ caches_keys caches → caches_match u caches = None →
  caches_match u (cache_put name u r caches) = Some r.
Proof.
  induction caches as [|[n c] caches IH]; simpl.
  - intros H. by apply elem_of_nil in H.
  - intros Hin Hmiss. destruct (c !! u) eqn:Hc; [done|].
    destruct (decide (n = name)) as [->|Hn]; simpl.
    + by rewrite lookup_insert_eq.
    + rewrite Hc. apply IH; [|done].
      apply elem_of_cons in Hin as [Heq|Hin]; [congruence|done].
Qed.

Lemma caches_match_put_is_Some
    (name u u' : string) (r : Response) (caches : CacheStorage) :
  is_Some (caches_match u' caches) →
  is_Some (caches_match u' (cache_put name u r caches)).
Proof.
  induction caches as [|[n c] caches IH]; simpl; [done|].
  destruct (decide (n = name)) as [->|Hn]; simpl.
  - destruct (decide (u' = u)) as [->|Hu].
    + by rewrite lookup_insert_eq.
    + by rewrite lookup_insert_ne.
  - destruct (c !! u'); [done|]. apply IH.
Qed.

Lemma caches_match_put_same
    (name u : string) (r : Response) (caches : CacheStorage) :
  name ∈ caches_keys caches →
  is_Some (caches_match u (cache_put name u r caches)).
Proof.
  induction caches as [|[n c] caches IH]; simpl.
  - intros H. by apply elem_of_nil in H.
  - intros Hin. destruct (decide (n = name)) as [->|Hn]; simpl.
    + by rewrite lookup_insert_eq.
    + destruct (c !! u); [done|]. apply IH.
      apply elem_of_cons in Hin as [Heq|Hin]; [congruence|done].
Qed.

Lemma cached_put_keeps
    (name u : string) (r : Response) (caches : CacheStorage)
    (n u' : string) (r' : Response) :
  caches_match u caches = None →
  cached caches n u' r' → cached (cache_put name u r caches) n u' r'.
Proof.
  intros Hmiss (c & Hin & Hc).
  induction caches as [|[n0 c0] caches IH]; [by apply elem_of_nil in Hin|].
  simpl in Hmiss. destruct (c0 !! u) eqn:Hc0; [done|]. simpl.
  destruct (decide (n0 = name)) as [->|Hn].
  - apply elem_of_cons in Hin as [[= -> ->]|Hin].
    + exists (<[u := r]> c0). split; [left|].
      rewrite lookup_insert_ne; [done|]. intros ->. congruence.
    + exists c. split; [by right|done].
  - apply elem_of_cons in Hin as [[= -> ->]|Hin].
    + exists c0. split; [left|done].
    + destruct (IH Hmiss Hin) as (c' & Hin' & Hc'). exists c'. split; [by right|done].
Qed.

Lemma cached_put_new
    (name u : string) (r : Response) (caches : CacheStorage)
    (n u' : string) (r' : Response) :
  cached (cache_put name u r caches) n u' r' →
  cached caches n u' r' ∨ (n = name ∧ u' = u ∧ r' = r).
Proof.
  intros (c & Hin & Hc).
  induction caches as [|[n0 c0] caches IH]; [by apply elem_of_nil in Hin|].
  simpl in Hin. destruct (decide (n0 = name)) as [->|Hn].
  - apply elem_of_cons in Hin as [[= -> ->]|Hin].
    + destruct (decide (u' = u)) as [->|Hu].
      * rewrite lookup_insert_eq in Hc. injection Hc as <-. by right.
      * rewrite lookup_insert_ne in Hc by done. left. exists c0. split; [left|done].
    + left. exists c. split; [by right|done].
  - apply elem_of_cons in Hin as [[= -> ->]|Hin].
    + left. exists c0. split; [left|done].
    + destruct (IH Hin) as [(c' & Hin' & Hc')|?]; [|by right].
      left. exists c'. split; [by right|done].
Qed.

Lemma cached_open (name : string) (caches : CacheStorage)
    (n u : string) (r : Response) :
  cached (caches_open name caches) n u r ↔ cached caches n u r.
Proof.
  unfold caches_open. case_bool_decide; [done|]. unfold cached. split.
  - intros (c & [Hin|Hin]%elem_of_app & Hc); [by exists c|].
    apply list_elem_of_singleton in Hin. injection Hin as -> ->.
    by rewrite lookup_empty in Hc.
  - intros (c & Hin & Hc). exists c. split; [|done]. apply elem_of_app. by left.
Qed.

Lemma not_cacheable_false (r : Response) :
  not_cacheable r = false ↔ status r = 200 ∧ (type r = basic ∨ type r = cors).
Proof.
  unfold not_cacheable. repeat case_bool_decide; simpl; naive_solver.
Qed.

Section WorkerFacts.
Context (fetch : string → option Response).

(** X20: a GET that was answered with a response of status 200 and type
    basic or cors is answered with that response from then on, whatever the
    network does, without asking the network and without changing the
    caches. *)
Theorem onfetch_replay (request : Request) (caches : CacheStorage) (r : Response) :
  method request = "GET" →
  handled (onfetch fetch request caches) = Responds r →
  not_cacheable r = false →
  ∀ fetch',
    onfetch fetch' request (caches_after (onfetch fetch request caches))
    = mkFetchResult (Responds r) (caches_after (onfetch fetch request caches)) [].
Proof.
  intros Hget Hresp Hok fetch'. unfold onfetch in *. rewrite Hget in *. simpl in *.
  destruct (caches_match (url request) caches) as [hit|] eqn:Hmatch; simpl in *.
  - injection Hresp as ->. by rewrite Hmatch.
  - destruct (fetch (url request)) as [response|]; [|done].
    destruct (not_cacheable response) eqn:Hnc; simpl in *; injection Hresp as ->;
      [congruence|].
    rewrite caches_match_put; [done|apply caches_open_keys|].
    by rewrite caches_match_open.
Qed.

(** X21: the fetch listener only adds to the caches.  Every entry stays as
    it is, and an entry that is new is the network's response to this GET
    request, of status 200 and type basic or cors, stored in [CACHE_NAME];
    a request with another method is left to the browser. *)
Theorem onfetch_cache_growth (request : Request) (caches : CacheStorage) :
  let after := caches_after (onfetch fetch request caches) in
  (∀ n u r, cached caches n u r → cached after n u r)
  ∧ (∀ n u r, cached after n u r →
       cached caches n u r
       ∨ (n = CACHE_NAME ∧ method request = "GET" ∧ u = url request
          ∧ fetch u = Some r ∧ caches_match u caches = None
          ∧ status r = 200 ∧ (type r = basic ∨ type r = cors)))
  ∧ (method request ≠ "GET" →
       onfetch fetch request caches = mkFetchResult NotHandled caches []).
Proof.
  unfold onfetch.
  destruct (String.eqb (method request) "GET") eqn:Hget; simpl.
  2: { split; [done|]. split; [by left|done]. }
  apply String.eqb_eq in Hget.
  destruct (caches_match (url request) caches) as [hit|] eqn:Hmatch; simpl.
  { split; [done|]. split; [by left|]. by intros []. }
  destruct (fetch (url request)) as [response|] eqn:Hfetch; simpl.
  2: { split; [done|]. split; [by left|]. by intros []. }
  destruct (not_cacheable response) eqn:Hnc; simpl.
  { split; [done|]. split; [by left|]. by intros []. }
  apply not_cacheable_false in Hnc as [Hstatus Htype].
  split; [|split].
  - intros n u r Hc. apply cached_put_keeps; [by rewrite caches_match_open|].
    by apply cached_open.
  - intros n u r [Hc|(-> & -> & ->)]%cached_put_new.
    + left. by apply cached_open in Hc.
    + right. done.
  - by intros [].
Qed.

End WorkerFacts.

Lemma foldl_delete_filter (names : list string) (caches : CacheStorage) :
  foldl (λ remaining cacheName,
           if bool_decide (cacheName ∉ cacheWhitelist)
           then caches_delete cacheName remaining
           else remaining)
        caches names
  = filter (λ entry, entry.1 = CACHE_NAME ∨ entry.1 ∉ names) caches.
Proof.
  revert caches. induction names as [|name names IH]; intros caches; simpl.
  - symmetry. apply filter_all, Forall_forall. intros entry _. right. apply not_elem_of_nil.
  - rewrite IH. unfold cacheWhitelist, caches_delete. case_bool_decide as Hname.
    + rewrite list_elem_of_singleton in Hname.
      rewrite list_filter_filter. apply list_filter_iff. intros entry.
      rewrite not_elem_of_cons. intuition congruence.
    + apply list_elem_of_singleton in Hname as ->.
      apply list_filter_iff. intros entry. rewrite not_elem_of_cons.
      destruct (decide (entry.1 = CACHE_NAME)); intuition.
Qed.

(** X22: activation leaves the caches called [CACHE_NAME], with their
    entries and in their order, and no other cache. *)
Theorem onactivate_keeps_current (caches : CacheStorage) :
  onactivate caches = filter (λ entry, entry.1 = CACHE_NAME) caches.
Proof.
  unfold onactivate. rewrite foldl_delete_filter.
  apply filter_ext_in. intros entry Hin. split; [|by left].
  intros [?|Hout]; [done|]. exfalso. apply Hout.
  unfold caches_keys. by apply list_elem_of_fmap_2.
Qed.

Section InstallFacts.
Context (fetch : string → option Response) (resolve : string → string).

Lemma foldl_put_keys (name : string) (responses : list (string * Response))
    (caches : CacheStorage) :
  caches_keys (foldl (λ remaining entry, cache_put name entry.1 entry.2 remaining)
                     caches responses)
  = caches_keys caches.
Proof.
  revert caches. induction responses as [|[u r] responses IH]; intros caches; [done|].
  simpl. by rewrite IH, cache_put_keys.
Qed.

Lemma foldl_put_match_keeps (name u : string) (responses : list (string * Response))
    (caches : CacheStorage) :
  is_Some (caches_match u caches) →
  is_Some (caches_match u
             (foldl (λ remaining entry, cache_put name entry.1 entry.2 remaining)
                    caches responses)).
Proof.
  revert caches. induction responses as [|[u' r] responses IH]; intros caches; [done|].
  simpl. intros H. by apply IH, caches_match_put_is_Some.
Qed.

Lemma foldl_put_match (name u : string) (r : Response)
    (responses : list (string * Response)) (caches : CacheStorage) :
  name ∈ caches_keys caches → (u, r) ∈ responses →
  is_Some (caches_match u
             (foldl (λ remaining entry, cache_put name entry.1 entry.2 remaining)
                    caches responses)).
Proof.
  revert caches. induction responses as [|[u' r'] responses IH]; intros caches Hname Hin.
  - by apply elem_of_nil in Hin.
  - simpl. apply elem_of_cons in Hin as [[= <- <-]|Hin].
    + by apply foldl_put_match_keeps, caches_match_put_same.
    + apply IH; [by rewrite cache_put_keys|done].
Qed.

Lemma foldl_put_cached (name : string) (responses : list (string * Response))
    (caches : CacheStorage) (n u : string) (r : Response) :
  cached (foldl (λ remaining entry, cache_put name entry.1 entry.2 remaining)
                caches responses) n u r →
  cached caches n u r ∨ (n = name ∧ (u, r) ∈ responses).
Proof.
  revert caches. induction responses as [|[u' r'] responses IH]; intros caches; [by left|].
  simpl. intros [[Hc|(-> & -> & ->)]%cached_put_new|[-> Hin]]%IH.
  - by left.
  - right. split; [done|left].
  - right. split; [done|by right].
Qed.

Lemma cached_put_same (name u : string) (r : Response) (caches : CacheStorage) :
  name ∈ caches_keys caches → cached (cache_put name u r caches) name u r.
Proof.
  induction caches as [|[n c] caches IH]; simpl.
  - intros H. by apply elem_of_nil in H.
  - intros Hin. destruct (decide (n = name)) as [->|Hn].
    + exists (<[u := r]> c). split; [left|]. by rewrite lookup_insert_eq.
    + apply elem_of_cons in Hin as [Heq|Hin]; [congruence|].
      destruct (IH Hin) as (c' & Hc' & Hr). exists c'. split; [by right|done].
Qed.

Lemma cached_put_other (name u : string) (r : Response) (caches : CacheStorage)
    (n u' : string) (r' : Response) :
  u' ≠ u → cached caches n u' r' → cached (cache_put name u r caches) n u' r'.
Proof.
  intros Hu (c & Hin & Hc).
  induction caches as [|[n0 c0] caches IH]; [by apply elem_of_nil in Hin|].
  simpl. destruct (decide (n0 = name)) as [->|Hn].
  - apply elem_of_cons in Hin as [[= -> ->]|Hin].
    + exists (<[u := r]> c0). split; [left|]. by rewrite lookup_insert_ne.
    + exists c. split; [by right|done].
  - apply elem_of_cons in Hin as [[= -> ->]|Hin].
    + exists c0. split; [left|done].
    + destruct (IH Hin) as (c' & Hin' & Hc'). exists c'. split; [by right|done].
Qed.

(** Responses stored one after the other are all there at the end when
    a URL has one response. *)
Lemma foldl_put_cached_all (name : string) (responses : list (string * Response))
    (caches : CacheStorage) :
  name ∈ caches_keys caches →
  (∀ u r r', (u, r) ∈ responses → (u, r') ∈ responses → r = r') →
  ∀ u r, (u, r) ∈ responses →
    cached (foldl (λ remaining entry, cache_put name entry.1 entry.2 remaining)
                  caches responses) name u r.
Proof.
  intros Hname. induction responses as [|[u0 r0] responses IH] using rev_ind.
  { intros _ u r Hin. by apply elem_of_nil in Hin. }
  intros Hfun u r Hin. rewrite foldl_app. simpl.
  destruct (decide (u = u0)) as [->|Hu].
  - assert (r = r0) as ->.
    { apply (Hfun u0); [done|]. apply elem_of_app. right. left. }
    apply cached_put_same. by rewrite foldl_put_keys.
  - apply cached_put_other; [done|]. apply IH.
    + intros u1 r1 r1' H1 H1'. apply (Hfun u1); apply elem_of_app; by left.
    + apply elem_of_app in Hin as [Hin|Hin]; [done|].
      apply list_elem_of_singleton in Hin. congruence.
Qed.

(** X23: installation is all or nothing.  It succeeds exactly when every
    URL of [urlsToCache] is fetched with an accepted response; when one of
    them is not, it fails and no response has been stored.  When it
    succeeds the response of the network to each of these URLs is in
    [CACHE_NAME], and each of them is answered from the caches afterwards,
    whatever the network does.  In both cases an entry that is new is the
    network's accepted response to one of these URLs, stored in
    [CACHE_NAME]. *)
Theorem oninstall_all_or_nothing (caches : CacheStorage) :
  let after := (oninstall fetch resolve caches).1 in
  let installed := (oninstall fetch resolve caches).2 in
  (installed = true
   ↔ ∀ u, u ∈ urlsToCache → ∃ r, fetch (resolve u) = Some r ∧ accepted r = true)
  ∧ (if installed
     then ∀ u, u ∈ urlsToCache →
            (∃ r, fetch (resolve u) = Some r ∧ cached after CACHE_NAME (resolve u) r)
            ∧ ∀ fetch', ∃ r, onfetch fetch' (mkRequest "GET" (resolve u)) after
                             = mkFetchResult (Responds r) after []
     else ∀ n u r, cached after n u r ↔ cached caches n u r)
  ∧ (∀ n u r, cached after n u r →
       cached caches n u r
       ∨ (n = CACHE_NAME ∧ fetch u = Some r ∧ accepted r = true
          ∧ ∃ listed, listed ∈ urlsToCache ∧ u = resolve listed)).
Proof.
  unfold oninstall, addAll.
  set (f := λ u, response ← fetch (resolve u);
                 if accepted response then Some (resolve u, response) else None).
  assert (Hf : ∀ u, is_Some (f u)
                    ↔ ∃ r, fetch (resolve u) = Some r ∧ accepted r = true).
  { intros u. unfold f. destruct (fetch (resolve u)) as [response|]; simpl.
    - destruct (accepted response) eqn:Hacc.
      + split; [by exists response|by eexists].
      + split; [by intros [? [=]]|]. intros (r & [= <-] & ?). congruence.
    - split; [by intros [? [=]]|]. by intros (r & [=] & _). }
  assert (Hflag : is_Some (mapM f urlsToCache)
                  ↔ ∀ u, u ∈ urlsToCache
                         → ∃ r, fetch (resolve u) = Some r ∧ accepted r = true).
  { rewrite mapM_is_Some, Forall_forall. by setoid_rewrite <-Hf. }
  change (mapM (λ u, response ← fetch (resolve u);
                     if accepted response then Some (resolve u, response) else None)
               urlsToCache) with (mapM f urlsToCache).
  destruct (mapM f urlsToCache) as [responses|] eqn:Hall; simpl.
  - apply mapM_Some in Hall.
    assert (Hentries : ∀ u r, (u, r) ∈ responses →
              fetch u = Some r ∧ accepted r = true
              ∧ ∃ listed, listed ∈ urlsToCache ∧ u = resolve listed).
    { intros u r Hin. apply list_elem_of_lookup in Hin as [i Hi].
      destruct (Forall2_lookup_r _ _ _ _ _ Hall Hi) as (listed & Hl & Hfl).
      unfold f in Hfl.
      destruct (fetch (resolve listed)) as [response|] eqn:Hfetch; [|done].
      simpl in Hfl. destruct (accepted response) eqn:Hacc; [|done].
      injection Hfl as <- <-. repeat split; try done.
      exists listed. split; [by eapply list_elem_of_lookup_2|done]. }
    split; [split; [intros _; by apply Hflag|done]|]. split.
    + intros u Hu.
      apply list_elem_of_lookup in Hu as [i Hi].
      destruct (Forall2_lookup_l _ _ _ _ _ Hall Hi) as ([u' r] & Hr & Hfu).
      unfold f in Hfu.
      destruct (fetch (resolve u)) as [response|] eqn:Hfetch; [|done]. simpl in Hfu.
      destruct (accepted response); [|done]. injection Hfu as <- <-.
      assert (Hin : (resolve u, response) ∈ responses)
        by by eapply list_elem_of_lookup_2.
      split.
      * exists response. split; [done|].
        apply foldl_put_cached_all; [apply caches_open_keys| |done].
        intros u1 r1 r1' [H1 _]%Hentries [H1' _]%Hentries. congruence.
      * intros fetch'.
        destruct (foldl_put_match CACHE_NAME (resolve u) response responses
                    (caches_open CACHE_NAME caches)) as [hit Hhit];
          [apply caches_open_keys|done|].
        exists hit. unfold onfetch. simpl. by rewrite Hhit.
    + intros n u r [Hc|[-> Hin]]%foldl_put_cached.
      * left. by apply cached_open in Hc.
      * right. split; [done|]. by apply Hentries.
  - split.
    { split; [done|]. intros Hokay. apply Hflag in Hokay as [? [=]]. }
    split.
    + intros n u r. apply cached_open.
    + intros n u r Hc. left. by apply cached_open in Hc.
Qed.

End InstallFacts.

End ServiceWorker.

Lemma onfetch_replay_witness :
  SW.onfetch offline (SW.mkRequest "GET" "https://noveily.app/locales/ru.json")
    (SW.caches_after
       (SW.onfetch sample_network
          (SW.mkRequest "GET" "https://noveily.app/locales/ru.json") sample_caches))
  = SW.mkFetchResult
      (SW.Responds (SW.mkResponse 200 SW.cors "body of https://noveily.app/locales/ru.json"))
      (SW.caches_after
         (SW.onfetch sample_network
            (SW.mkRequest "GET" "https://noveily.app/locales/ru.json") sample_caches))
      [].
Proof.
  apply (onfetch_replay sample_network
           (SW.mkRequest "GET" "https://noveily.app/locales/ru.json") sample_caches
           (SW.mkResponse 200 SW.cors "body of https://noveily.app/locales/ru.json"));
    reflexivity.
Defined.

Example oninstall_offline :
  SW.oninstall offline sample_origin sample_caches = (sample_caches, false).
Proof. vm_compute. reflexivity. Qed.

Example oninstall_online :
  (SW.oninstall sample_network sample_origin sample_caches).2 = true.
Proof. vm_compute. reflexivity. Qed.

(** ** The screens of the application *)

Section Screens.
Import App.

Lemma truthy_language_code (lang : Language) : truthy (Some (language_code lang)) = true.
Proof. by destruct lang. Qed.

Lemma invariant_mount (storage : LocalStorage) : invariant (mount storage).
Proof.
  unfold mount, invariant, onboardingSteps_length.
  destruct (truthy (noveily_lang storage)) eqn:Hlang; simpl.
  - destruct (truthy (noveily_onboarding_complete storage)) eqn:Honb; simpl;
      repeat split; (done || lia).
  - repeat split; (done || lia).
Qed.

Lemma invariant_dispatch (s : State) (ev : Event) :
  invariant s → invariant (dispatch s ev).
Proof.
  destruct s as [v c sl so il st [l o]].
  unfold invariant, dispatch, render. simpl.
  intros (Hlang & Honb & Hview & Hstep).
  destruct il, sl, so, v, c, ev; simpl;
    unfold handleNext, handleOnboardingComplete, handleLanguageSelected, setLanguage,
      handleOpenReader, handleOpenUploader, handleOpenEditor, handleOpenCoverEditor,
      handleCloseView, handleUploadComplete, set_view, onboardingSteps_length in *;
    simpl;
    try case_bool_decide; simpl;
    try (destruct (truthy o) eqn:Ho); simpl;
    rewrite ?truthy_language_code;
    repeat split; intros; try done; try lia; auto; by destruct lang.
Qed.

Lemma invariant_run (storage : LocalStorage) (events : list Event) :
  invariant (run storage events).
Proof.
  unfold run. generalize (invariant_mount storage). generalize (mount storage).
  induction events as [|ev events IH]; intros s Hs; [done|].
  simpl. by apply IH, invariant_dispatch.
Qed.

(** X24: the library and the views opened from it are shown only after a
    language was chosen and the onboarding was completed or skipped: when
    one of them is on the screen, both items are set in [localStorage]. *)
Theorem main_views_after_setup (storage : LocalStorage) (events : list Event) :
  is_main (render (run storage events)) = true →
  truthy (noveily_lang (localStorage (run storage events))) = true
  ∧ truthy (noveily_onboarding_complete (localStorage (run storage events))) = true.
Proof.
  destruct (invariant_run storage events) as (Hlang & Honb & _).
  unfold render. destruct (isInitialLoading _); [done|].
  destruct (showLangSelection _); [done|].
  destruct (showOnboarding _); [done|]. auto.
Qed.

(** X25: there is always a screen.  A reader, an editor or a cover editor
    is never selected without its comic, and the onboarding screen shows
    one of its four steps. *)
Theorem screen_always_defined (storage : LocalStorage) (events : list Event) :
  match render (run storage events) with
  | ShowsNothing => False
  | ShowsOnboarding currentStep => (currentStep < onboardingSteps_length)%nat
  | _ => True
  end.
Proof.
  destruct (invariant_run storage events) as (_ & _ & Hview & Hstep).
  revert Hview Hstep. generalize (run storage events). intros s Hview Hstep.
  unfold render. destruct (isInitialLoading s); [done|].
  destruct (showLangSelection s); [done|].
  destruct (showOnboarding s); [done|].
  destruct (view s), (activeComic s); try done; by destruct Hview.
Qed.

End Screens.

Lemma main_views_after_setup_witness :
  App.is_main (App.render (App.run first_run
    [App.SplashFinished; App.LanguageChosen App.ru; App.OnboardingSkipped;
     App.OpenUploader])) = true
  ∧ App.truthy (App.noveily_lang (App.localStorage (App.run first_run
      [App.SplashFinished; App.LanguageChosen App.ru; App.OnboardingSkipped;
       App.OpenUploader]))) = true
  ∧ App.truthy (App.noveily_onboarding_complete (App.localStorage (App.run first_run
      [App.SplashFinished; App.LanguageChosen App.ru; App.OnboardingSkipped;
       App.OpenUploader]))) = true.
Proof.
  split; [reflexivity|].
  apply (main_views_after_setup first_run
    [App.SplashFinished; App.LanguageChosen App.ru; App.OnboardingSkipped;
     App.OpenUploader]).
  reflexivity.
Defined.

(** ** The reader and the stored reading position *)

Lemma renders_last (current : Z) (seen : list Z) :
  last (renders current seen) = Some (default current (last seen)).
Proof.
  revert current. induction seen as [|index seen IH]; intros current; [done|].
  cbn [renders]. rewrite (last_cons index seen).
  destruct (decide (index = current)) as [->|Hne].
  - rewrite IH. by destruct (last seen).
  - rewrite last_cons, IH. by destruct (last seen).
Qed.

Lemma renders_valid (P : Z → Prop) (current : Z) (seen : list Z) :
  P current → Forall P seen → Forall P (renders current seen).
Proof.
  intros Hc Hseen. revert current Hc.
  induction Hseen as [|index seen Hi Hseen IH]; intros current Hc; simpl.
  - by constructor.
  - destruct (decide (index = current)); [by apply IH|].
    constructor; [done|by apply IH].
Qed.

(** X26: the reader opens on a page that exists.  For a comic of a
    consistent library the page at the stored reading position, or at 0
    when none is stored, is defined, and it is the page with that
    [order]. *)
Theorem reader_opens_on_a_page (comic : Comic) (db : DB) :
  library_consistent db →
  comics db !! Comic.id comic = Some comic →
  ∃ page, pageAt (getComicPages (Comic.id comic) db) (initialPageIndex comic) = Some page
          ∧ ComicPage.order page = initialPageIndex comic.
Proof.
  intros (_ & Hcomics & _) Hc.
  destruct (Hcomics _ _ Hc) as (Hne & Htotal & Horders & Hlast). simpl in *.
  set (sorted := sortedPages (Comic.id comic) (pages db)) in *.
  assert (Hi : 0 ≤ initialPageIndex comic < Z.of_nat (length sorted)).
  { unfold initialPageIndex. destruct (Comic.lastReadPage comic) as [l|].
    - rewrite <-Htotal. by apply Hlast.
    - destruct sorted; [done|]. simpl. lia. }
  unfold pageAt, getComicPages. fold sorted. rewrite decide_True by lia.
  destruct (lookup_lt_is_Some_2 sorted (Z.to_nat (initialPageIndex comic)))
    as [p Hp]; [lia|].
  exists (toComicPage p). split; [by rewrite list_lookup_fmap, Hp|]. simpl.
  assert (Ho : (PageRecord.order <$> sorted) !! Z.to_nat (initialPageIndex comic)
               = Some (PageRecord.order p)) by by rewrite list_lookup_fmap, Hp.
  rewrite Horders, list_lookup_fmap, lookup_seq_lt in Ho by lia.
  simpl in Ho. injection Ho as <-. lia.
Qed.

Lemma reader_opens_on_a_page_witness :
  ∃ page, pageAt (getComicPages "c1" sample_db) (initialPageIndex sample_alpha) = Some page
          ∧ ComicPage.order page = initialPageIndex sample_alpha.
Proof.
  apply (reader_opens_on_a_page sample_alpha sample_db sample_db_consistent).
  reflexivity.
Defined.

Lemma saveProgress_spec (f : nat → Faults) (comicId : string) (comic : Comic)
    (indices : list Z) :
  Forall (λ i, 0 ≤ i < Comic.totalPages comic) indices →
  ∀ (n : nat) (stored : Comic) (db : DB),
    library_consistent db →
    comics db !! comicId = Some stored →
    Comic.set_lastReadPage stored None = Comic.set_lastReadPage comic None →
    let db' := saveProgress f n comicId indices db in
    library_consistent db'
    ∧ pages db' = pages db
    ∧ (∀ k, k ≠ comicId → comics db' !! k = comics db !! k)
    ∧ ∃ stored', comics db' !! comicId = Some stored'
        ∧ Comic.set_lastReadPage stored' None = Comic.set_lastReadPage comic None
        ∧ ((∀ m, f m = no_faults) →
           Comic.lastReadPage stored'
           = match last indices with
             | Some i => Some i
             | None => Comic.lastReadPage stored
             end).
Proof.
  induction 1 as [|i indices Hi Hrest IH]; intros n stored db Hdb Hstored Hsame; simpl.
  { split; [done|]. split; [done|]. split; [done|]. by exists stored. }
  assert (Hid : Comic.id stored = comicId).
  { by apply (proj1 (proj1 Hdb) comicId stored). }
  assert (Hfields : Comic.id stored = Comic.id comic
                    ∧ Comic.totalPages stored = Comic.totalPages comic).
  { destruct stored, comic. simpl in *. unfold Comic.set_lastReadPage in Hsame.
    simpl in Hsame. by injection Hsame as -> -> -> -> ->. }
  destruct Hfields as [Hid' Htotal].
  unfold updateComicProgress, IDB.get. rewrite Hstored.
  destruct (get_fails (f n)) eqn:Hget; simpl.
  { destruct (IH (S n) stored db Hdb Hstored Hsame) as (H1 & H2 & H3 & s' & H4 & H5 & H6).
    split; [done|]. split; [done|]. split; [done|]. exists s'.
    split; [done|]. split; [done|]. intros Hall.
    rewrite Hall in Hget. done. }
  destruct (put_fails (f n)) eqn:Hput; simpl.
  { destruct (IH (S n) stored db Hdb Hstored Hsame) as (H1 & H2 & H3 & s' & H4 & H5 & H6).
    split; [done|]. split; [done|]. split; [done|]. exists s'.
    split; [done|]. split; [done|]. intros Hall.
    rewrite Hall in Hput. done. }
  set (stored1 := Comic.set_lastReadPage stored (Some i)).
  set (db1 := mkDB (IDB.put Comic.id stored1 (comics db)) (pages db)).
  assert (Hdb1 : library_consistent db1).
  { apply (put_comic_consistent db comicId stored); try done.
    simpl. intros l [= <-]. by rewrite Htotal. }
  assert (Hstored1 : comics db1 !! comicId = Some stored1).
  { unfold db1, IDB.put. simpl. rewrite Hid. by rewrite lookup_insert_eq. }
  assert (Hsame1 : Comic.set_lastReadPage stored1 None = Comic.set_lastReadPage comic None).
  { by rewrite <-Hsame. }
  destruct (IH (S n) stored1 db1 Hdb1 Hstored1 Hsame1)
    as (H1 & H2 & H3 & s' & H4 & H5 & H6).
  split; [done|]. split; [done|]. split.
  { intros k Hk. rewrite H3 by done. unfold db1, IDB.put. simpl.
    rewrite lookup_insert_ne; [done|]. by rewrite Hid. }
  exists s'. split; [done|]. split; [done|]. intros Hall. rewrite (H6 Hall).
  rewrite (last_cons i indices). by destruct (last indices).
Qed.

(** X27: reading saves the position.  For a comic of a consistent library
    and page indices of that comic, closing the reader leaves a consistent
    library in which only this comic's record may differ, and only in its
    reading position; when no request fails the position stored is the
    last page that came into view, or the one the reader opened on. *)
Theorem readerSession_saves_position
    (f : nat → Faults) (comic : Comic) (seen : list Z) (db : DB) :
  library_consistent db →
  comics db !! Comic.id comic = Some comic →
  Forall (λ i, 0 ≤ i < Comic.totalPages comic) seen →
  let db' := readerSession f comic seen db in
  library_consistent db'
  ∧ pages db' = pages db
  ∧ (∀ k, k ≠ Comic.id comic → comics db' !! k = comics db !! k)
  ∧ (∃ position, comics db' !! Comic.id comic
                 = Some (Comic.set_lastReadPage comic position))
  ∧ ((∀ n, f n = no_faults) →
     comics db' !! Comic.id comic
     = Some (Comic.set_lastReadPage comic
               (Some (default (initialPageIndex comic) (last seen))))).
Proof.
  intros Hdb Hc Hseen db'. subst db'. unfold readerSession.
  assert (Hinit : 0 ≤ initialPageIndex comic < Comic.totalPages comic).
  { destruct (proj1 (proj2 Hdb) _ _ Hc) as (Hne & Htotal & _ & Hlast). simpl in *.
    unfold initialPageIndex. destruct (Comic.lastReadPage comic) as [l|]; [by apply Hlast|].
    rewrite Htotal. destruct (sortedPages _ _); [done|]. simpl. lia. }
  destruct (saveProgress_spec f (Comic.id comic) comic
              (renders (initialPageIndex comic) seen)
              (renders_valid _ _ _ Hinit Hseen) 0%nat comic db Hdb Hc eq_refl)
    as (H1 & H2 & H3 & stored' & H4 & H5 & H6).
  split; [done|]. split; [done|]. split; [done|].
  assert (Hshape : stored' = Comic.set_lastReadPage comic (Comic.lastReadPage stored')).
  { destruct stored', comic. unfold Comic.set_lastReadPage in *. simpl in *.
    by injection H5 as -> -> -> -> ->. }
  split.
  - exists (Comic.lastReadPage stored'). by rewrite H4, <-Hshape.
  - intros Hall. rewrite H4. rewrite Hshape. f_equal. f_equal.
    rewrite (H6 Hall). by rewrite renders_last.
Qed.

Lemma readerSession_saves_position_witness :
  library_consistent sample_db
  ∧ comics (readerSession (λ _, no_faults) sample_alpha [1; 1; 0; 1] sample_db) !! "c1"
    = Some (Comic.set_lastReadPage sample_alpha (Some 1)).
Proof.
  split; [exact sample_db_consistent|].
  refine (proj2 (proj2 (proj2 (proj2
    (readerSession_saves_position (λ _, no_faults) sample_alpha [1; 1; 0; 1] sample_db
       sample_db_consistent eq_refl _)))) _).
  - repeat (apply Forall_cons_2; [unfold sample_alpha; simpl; lia|]). apply Forall_nil_2.
  - done.
Defined.

(** ** The library list after a comic is added or removed *)

Lemma getAll_delete_keyed {A} (key : A → string) (s : gmap string A) (k : string) :
  keyed_by_id key s →
  IDB.getAll (IDB.delete k s) = filter (λ r, key r ≠ k) (IDB.getAll s).
Proof.
  intros Hkeyed. unfold IDB.getAll. rewrite entries_delete, filter_fmap_list.
  f_equal. apply filter_ext_in. intros [k' r] Hin. simpl.
  apply elem_of_entries in Hin. by rewrite (Hkeyed k' r Hin).
Qed.

Lemma getAllComics_delete (comicId : string) (comicStore : gmap string Comic)
    (pageStore pageStore' : gmap string PageRecord) :
  keyed_by_id Comic.id comicStore →
  getAllComics (mkDB (IDB.delete comicId comicStore) pageStore')
  = filter (λ c, Comic.id c ≠ comicId) (getAllComics (mkDB comicStore pageStore)).
Proof.
  intros Hkeyed. unfold getAllComics, JS.sort. simpl.
  rewrite (getAll_delete_keyed Comic.id) by done.
  symmetry. apply filter_stable_sort.
  - intros a b. rewrite !bool_decide_eq_true. lia.
  - intros a b c. rewrite !bool_decide_eq_true. lia.
Qed.

(** X28: after a comic is deleted the library lists the comics it listed
    before, in the same order, without that comic. *)
Theorem getAllComics_deleteComic (comicId : string) (db : DB) :
  well_keyed db →
  getAllComics (deleteComic comicId db)
  = filter (λ c, Comic.id c ≠ comicId) (getAllComics db).
Proof.
  intros [Hkeyed _]. destruct db as [cs ps]. by apply getAllComics_delete.
Qed.

Lemma getAllComics_deleteComic_witness :
  well_keyed sample_db
  ∧ getAllComics (deleteComic "c2" sample_db)
    = filter (λ c, Comic.id c ≠ "c2") (getAllComics sample_db).
Proof.
  split; [exact sample_db_well_keyed|].
  apply (getAllComics_deleteComic "c2" sample_db sample_db_well_keyed).
Defined.

(** X29: after a comic is saved under a new identifier the library lists
    it, and the comics it listed before keep their order. *)
Theorem getAllComics_saveComic (comic : Comic) (pgs : list PageRecord) (db : DB) :
  well_keyed db →
  comics db !! Comic.id comic = None →
  comic ∈ getAllComics (saveComic comic pgs db)
  ∧ filter (λ c, Comic.id c ≠ Comic.id comic) (getAllComics (saveComic comic pgs db))
    = getAllComics db.
Proof.
  intros Hwk Hnew. split.
  - apply elem_of_getAllComics. exists (Comic.id comic). simpl.
    unfold IDB.put. by rewrite lookup_insert_eq.
  - pose proof (saveComic_well_keyed comic pgs db Hwk) as [Hkeyed _].
    destruct db as [cs ps]. simpl in *.
    unfold saveComic. simpl.
    rewrite <-(getAllComics_delete (Comic.id comic) (IDB.put Comic.id comic cs)
                 (foldl (λ pageStore page, IDB.put PageRecord.id page pageStore) ps pgs)
                 ps Hkeyed).
    unfold IDB.delete, IDB.put. by rewrite delete_insert_id.
Qed.

Lemma getAllComics_saveComic_witness :
  well_keyed sample_db ∧ comics sample_db !! "c4" = None
  ∧ filter (λ c, Comic.id c ≠ "c4")
      (getAllComics
         (saveComic (Comic.mk "c4" "Delta" None 1500 1 None) [sample_page "s0" "c4" 0]
            sample_db))
    = getAllComics sample_db.
Proof.
  split; [exact sample_db_well_keyed|]. split; [reflexivity|].
  apply (getAllComics_saveComic (Comic.mk "c4" "Delta" None 1500 1 None)
           [sample_page "s0" "c4" 0] sample_db sample_db_well_keyed eq_refl).
Defined.
